(** * A shallow embedding of Kakoune's threaded regex engine (regex_impl.cc)

    The development follows the three parts of the source file: the
    recursive descent [Parser], the bytecode writer of [RegexCompiler]
    and the thread list simulation of [ThreadedRegexVM].  Bytes are
    integers in [0, 256), pointers into the program or into the subject
    are byte offsets, [nullptr] is [None]. *)

From Stdlib Require Import ZArith List Bool String Ascii Lia Permutation.
Import ListNotations.

Local Open Scope Z_scope.

(** ** Outcomes of fallible code *)

(** The messages of the [runtime_error]s thrown by the parser. *)
Inductive error : Type :=
| InvalidUtf8            (* "Invalid utf8 in regex" *)
| UnclosedParen          (* "Unclosed parenthesis" *)
| UnclosedClass          (* "Unclosed character class" *)
| InvalidRange           (* "Invalid range specified" *)
| ExpectedClosingBrace   (* "expected closing bracket" *)
| UnknownEscape          (* "Unknown atom escape" *)
| ParseError             (* "Parse error in alternative" *)
| InvalidCodepoint.      (* thrown by utf8::dump *)

(** Places where the C++ source leaves the defined behaviour of its
    containers and iterators. *)
Inductive fault : Type :=
| OutOfBounds       (* operator[] or a pointer outside its vector *)
| NullInst          (* a thread whose [inst] is [nullptr] is stepped *)
| AssertionFailed   (* kak_assert *)
| SignedOverflow.   (* int arithmetic leaves the range of int *)

Inductive outcome (A : Type) : Type :=
| Ok (a : A)
| Throw (e : error)
| Fault (f : fault)
| OutOfFuel.

Arguments Ok {A} a.
Arguments Throw {A} e.
Arguments Fault {A} f.
Arguments OutOfFuel {A}.

Definition bind {A B : Type} (m : outcome A) (k : A -> outcome B) : outcome B :=
  match m with
  | Ok a => k a
  | Throw e => Throw e
  | Fault f => Fault f
  | OutOfFuel => OutOfFuel
  end.

Declare Scope outcome_scope.
Delimit Scope outcome_scope with outcome.
Notation "x <- m ;; k" := (bind m (fun x => k))
  (at level 61, m at next level, right associativity) : outcome_scope.
Notation "' p <- m ;; k" := (bind m (fun p => k))
  (at level 61, p pattern, m at next level, right associativity) : outcome_scope.
Local Open Scope outcome_scope.

(** ** Machine integers and bytes *)

Definition Codepoint : Type := Z.      (* char32_t *)
Definition byte : Type := Z.           (* the bit pattern of a char, in [0, 256) *)

Definition two32 : Z := 4294967296.
Definition INT_MAX : Z := 2147483647.

(** [(Codepoint)-1], the default [value] of an AST node. *)
Definition minus_one : Codepoint := two32 - 1.

(** Conversion of an integer to [char]: the low eight bits are kept. *)
Definition to_char (v : Z) : byte := v mod 256.

(** The value of a [char] read back as an integer; [char] is signed on the
    platforms the editor is built for. *)
Definition char_value (b : byte) : Z := if b <? 128 then b else b - 256.

(** Conversion of an unsigned 32-bit result to [int]. *)
Definition to_int (v : Z) : Z :=
  let w := v mod two32 in if w <=? INT_MAX then w else w - two32.

Definition bytes_of_string (s : string) : list byte :=
  map (fun c => Z.of_N (N_of_ascii c)) (list_ascii_of_string s).

(** [l[i]] on a vector, by byte offset. *)
Definition at_index {A : Type} (l : list A) (i : Z) : option A :=
  if i <? 0 then None else nth_error l (Z.to_nat i).

Definition update_at {A : Type} (l : list A) (i : nat) (x : A) : list A :=
  firstn i l ++ match skipn i l with
                | [] => []
                | _ :: tl => x :: tl
                end.

Definition size {A : Type} (l : list A) : Z := Z.of_nat (List.length l).

(** ** UTF-8 helpers *)

Module utf8.

(** Modelled from the spec: utf8.hh and utf8_iterator.hh are not under src/;
    the spec lists "UTF-8 decode/encode" among the utilities the engine
    consumes.  [read_codepoint] decodes one codepoint of at most four bytes
    at offset [it] and returns it with the offset after it; [inl] is a decoded
    codepoint, [inr] the value handed to the iterator's invalid policy. *)
Definition read_codepoint (s : list byte) (it : Z) : (Codepoint + Codepoint) * Z :=
  match at_index s it with
  | None => (inr minus_one, it)
  | Some b0 =>
    let cont (i : Z) : Z := match at_index s i with
                            | Some b => Z.land b 63
                            | None => 0
                            end in
    if Z.land b0 128 =? 0 then (inl b0, it + 1)
    else if size s <=? it + 1 then (inr b0, it + 1)
    else if Z.land b0 224 =? 192 then
      (inl (Z.lor (Z.shiftl (Z.land b0 31) 6) (cont (it + 1))), it + 2)
    else if Z.land b0 240 =? 224 then
      let cp := Z.lor (Z.shiftl (Z.land b0 15) 12) (Z.shiftl (cont (it + 1)) 6) in
      if size s <=? it + 2 then (inr cp, it + 2)
      else (inl (Z.lor cp (cont (it + 2))), it + 3)
    else if Z.land b0 248 =? 240 then
      let cp := Z.lor (Z.shiftl (Z.land b0 7) 18) (Z.shiftl (cont (it + 1)) 12) in
      if size s <=? it + 2 then (inr cp, it + 2)
      else
        let cp' := Z.lor cp (Z.shiftl (cont (it + 2)) 6) in
        if size s <=? it + 3 then (inr cp', it + 3)
        else (inl (Z.lor cp' (cont (it + 3))), it + 4)
    else (inr b0, it + 1)
  end.

(** The default policy of the iterators of the VM: the value is passed on. *)
Definition pass (r : Codepoint + Codepoint) : Codepoint :=
  match r with inl c => c | inr c => c end.

(** Modelled from the spec: [utf8::dump], the UTF-8 encoding of a codepoint. *)
Definition dump (cp : Codepoint) : outcome (list byte) :=
  if cp <=? 127 then Ok [cp]
  else if cp <=? 2047 then
    Ok [Z.lor 192 (Z.shiftr cp 6); Z.lor 128 (Z.land cp 63)]
  else if cp <=? 65535 then
    Ok [Z.lor 224 (Z.shiftr cp 12);
        Z.lor 128 (Z.land (Z.shiftr cp 6) 63);
        Z.lor 128 (Z.land cp 63)]
  else if cp <=? 1114111 then
    Ok [Z.lor 240 (Z.shiftr cp 18);
        Z.lor 128 (Z.land (Z.shiftr cp 12) 63);
        Z.lor 128 (Z.land (Z.shiftr cp 6) 63);
        Z.lor 128 (Z.land cp 63)]
  else Throw InvalidCodepoint.

Definition is_continuation (b : byte) : bool := Z.land b 192 =? 128.

Fixpoint skip_continuation (fuel : nat) (s : list byte) (it : Z) : Z :=
  match fuel with
  | O => it
  | S fuel' =>
    match at_index s it with
    | Some b => if is_continuation b then skip_continuation fuel' s (it + 1) else it
    | None => it
    end
  end.

(** Modelled from the spec: [utf8::to_next], the offset of the next
    codepoint; the end of the sequence is never passed. *)
Definition to_next (s : list byte) (it : Z) : Z :=
  match at_index s it with
  | None => it
  | Some b =>
    if Z.land b 128 =? 0 then it + 1
    else skip_continuation (List.length s) s (it + 1)
  end.

Fixpoint back_continuation (fuel : nat) (s : list byte) (it : Z) : Z :=
  match fuel with
  | O => it
  | S fuel' =>
    if it <=? 0 then it
    else match at_index s it with
         | Some b => if is_continuation b then back_continuation fuel' s (it - 1) else it
         | None => it
         end
  end.

(** Modelled from the spec: [utf8::to_previous], the "one-step-back lookup
    used by LineStart and WordBoundary". *)
Definition to_previous (s : list byte) (it : Z) : Z :=
  back_continuation (List.length s) s (it - 1).

(** Modelled from the spec: [utf8::advance] by a count of codepoints, as used
    to move a thread "past the remainder of the payload"; a count that is
    not positive leaves the offset where it is. *)
Definition advance (s : list byte) (it : Z) (d : Z) : Z :=
  Nat.iter (Z.to_nat d) (to_next s) it.

End utf8.

(** ** The compiled program *)

Module CompiledRegex.

Inductive Op : Type :=
| Match
| Literal
| AnyChar
| CharRange
| NegativeCharRange
| Jump
| Split_PrioritizeParent
| Split_PrioritizeChild
| Save
| LineStart
| LineEnd
| WordBoundary
| NotWordBoundary
| SubjectBegin
| SubjectEnd.

(** The enumerators are numbered from zero in declaration order. *)
Definition code (op : Op) : byte :=
  match op with
  | Match => 0 | Literal => 1 | AnyChar => 2 | CharRange => 3
  | NegativeCharRange => 4 | Jump => 5 | Split_PrioritizeParent => 6
  | Split_PrioritizeChild => 7 | Save => 8 | LineStart => 9 | LineEnd => 10
  | WordBoundary => 11 | NotWordBoundary => 12 | SubjectBegin => 13
  | SubjectEnd => 14
  end.

(** [(CompiledRegex::Op)b]; [None] is a value no case of a switch handles. *)
Definition decode (b : byte) : option Op :=
  match b with
  | 0 => Some Match | 1 => Some Literal | 2 => Some AnyChar
  | 3 => Some CharRange | 4 => Some NegativeCharRange | 5 => Some Jump
  | 6 => Some Split_PrioritizeParent | 7 => Some Split_PrioritizeChild
  | 8 => Some Save | 9 => Some LineStart | 10 => Some LineEnd
  | 11 => Some WordBoundary | 12 => Some NotWordBoundary
  | 13 => Some SubjectBegin | 14 => Some SubjectEnd
  | _ => None
  end.

Definition Offset : Type := Z.          (* unsigned *)
Definition sizeof_Offset : Z := 4.

(** Conversion of a size or pointer difference to [Offset]. *)
Definition to_offset (v : Z) : Offset := v mod two32.

Record t : Type := mk {
  bytecode : list byte;
  save_count : Z
}.

End CompiledRegex.

Abbreviation Offset := CompiledRegex.Offset.
Abbreviation sizeof_Offset := CompiledRegex.sizeof_Offset.
Abbreviation to_offset := CompiledRegex.to_offset.

(** The four bytes of an [Offset] in the program, least significant first. *)
Definition offset_bytes (v : Z) : list byte :=
  [v mod 256; (v / 256) mod 256; (v / 65536) mod 256; (v / 16777216) mod 256].

Definition alloc_offset (bytecode : list byte) : list byte * Offset :=
  (bytecode ++ [0; 0; 0; 0], to_offset (size bytecode)).

(** [get_offset(program, pos) = v]. *)
Definition set_offset (bytecode : list byte) (pos : Offset) (v : Z) : outcome (list byte) :=
  if (0 <=? pos) && (pos + sizeof_Offset <=? size bytecode) then
    Ok (firstn (Z.to_nat pos) bytecode ++ offset_bytes v
        ++ skipn (Z.to_nat (pos + sizeof_Offset)) bytecode)
  else Fault OutOfBounds.

(** [*reinterpret_cast<const Offset*>(inst)]. *)
Definition read_offset (bytecode : list byte) (pos : Z) : outcome Offset :=
  match at_index bytecode pos, at_index bytecode (pos + 1),
        at_index bytecode (pos + 2), at_index bytecode (pos + 3) with
  | Some b0, Some b1, Some b2, Some b3 =>
    Ok (b0 + 256 * b1 + 65536 * b2 + 16777216 * b3)
  | _, _, _, _ => Fault OutOfBounds
  end.

Fixpoint set_offsets (bytecode : list byte) (offsets : list Offset) (v : Z)
  : outcome (list byte) :=
  match offsets with
  | [] => Ok bytecode
  | o :: rest => bc <- set_offset bytecode o v ;; set_offsets bc rest v
  end.

(** A counted loop whose body can fail. *)
Fixpoint repeat_loop {S : Type} (n : nat) (body : S -> outcome S) (s : S) : outcome S :=
  match n with
  | O => Ok s
  | Datatypes.S n' => s' <- body s ;; repeat_loop n' body s'
  end.

Definition chr (c : ascii) : Codepoint := Z.of_N (N_of_ascii c).

(** Modelled from the spec: [contains] of the container utilities is not
    under src/; membership of a value among the elements of a container.
    The parser hands it a string literal, an array of [char] whose last
    element is the terminating NUL: codepoint 0 is among the elements. *)
Definition contains (s : string) (cp : Codepoint) : bool :=
  existsb (Z.eqb cp) (bytes_of_string s ++ [0]).

(** ** Parser and compiler *)

Module RegexCompiler.

Module Quantifier.

Inductive Type_ : Type :=
| One
| Optional
| RepeatZeroOrMore
| RepeatOneOrMore
| RepeatMinMax.

Record t : Type := mk {
  type : Type_;
  min : Z;
  max : Z
}.

(** [{type}]: the members [min] and [max] keep their initialiser [-1]. *)
Definition of_type (ty : Type_) : t := mk ty (-1) (-1).

Definition is_type (a b : Type_) : bool :=
  match a, b with
  | One, One | Optional, Optional | RepeatZeroOrMore, RepeatZeroOrMore
  | RepeatOneOrMore, RepeatOneOrMore | RepeatMinMax, RepeatMinMax => true
  | _, _ => false
  end.

Definition allows_none (q : t) : bool :=
  is_type (type q) Optional ||
  is_type (type q) RepeatZeroOrMore ||
  (is_type (type q) RepeatMinMax && (min q <=? 0)).

Definition allows_infinite_repeat (q : t) : bool :=
  is_type (type q) RepeatZeroOrMore ||
  is_type (type q) RepeatOneOrMore ||
  (is_type (type q) RepeatMinMax && (max q =? -1)).

End Quantifier.

Inductive Op : Type :=
| Literal
| AnyChar
| CharRange
| NegativeCharRange
| Sequence
| Alternation
| LineStart
| LineEnd
| WordBoundary
| NotWordBoundary
| SubjectBegin
| SubjectEnd.

#[local] Unset Elimination Schemes.
Inductive AstNode : Type :=
  mkAstNode {
    op : Op;
    value : Codepoint;
    quantifier : Quantifier.t;
    children : list AstNode
  }.
#[local] Set Elimination Schemes.

Record CharRange_ : Type := mkCharRange { range_min : Codepoint; range_max : Codepoint }.

(** [ParsedRegex] without its [ast], which [parse] fills in last. *)
Record ParsedRegex : Type := mkParsedRegex {
  capture_count : Z;
  ranges : list (list CharRange_)
}.

Definition make_ast_node (o : Op) (v : Codepoint) (q : Quantifier.t) : AstNode :=
  mkAstNode o v q [].

Definition make_ast_node_op (o : Op) : AstNode :=
  make_ast_node o minus_one (Quantifier.of_type Quantifier.One).

Definition make_ast_node_value (o : Op) (v : Codepoint) : AstNode :=
  make_ast_node o v (Quantifier.of_type Quantifier.One).

Definition set_value (n : AstNode) (v : Codepoint) : AstNode :=
  mkAstNode (op n) v (quantifier n) (children n).

Definition set_quantifier (n : AstNode) (q : Quantifier.t) : AstNode :=
  mkAstNode (op n) (value n) q (children n).

(** [n->children.push_back(c)]. *)
Definition push_child (n c : AstNode) : AstNode :=
  mkAstNode (op n) (value n) (quantifier n) (children n ++ [c]).

(** *** The recursive descent parser *)

Module Parser.

Section WithPattern.

(** The pattern [re]; an [Iterator] is the byte offset it stands at, and
    [end] is the size of the pattern. *)
Variable re : list byte.

Definition end_ : Z := size re.

(** [*pos]: the iterator decodes with [utf8::read_codepoint], which hands
    malformed UTF-8, and a read at [end], to [InvalidPolicy]; the policy of
    the parser throws. *)
Definition deref (pos : Z) : outcome Codepoint :=
  match fst (utf8.read_codepoint re pos) with
  | inl cp => Ok cp
  | inr _ => Throw InvalidUtf8
  end.

(** [++pos], [pos + n] and [pos += n]. *)
Definition next (pos : Z) : Z := utf8.to_next re pos.
Definition plus (pos : Z) (n : Z) : Z := utf8.advance re pos n.

Definition assertion (pos : Z) : outcome (option AstNode * Z) :=
  if pos =? end_ then Ok (None, pos)
  else
    c <- deref pos ;;
    if c =? chr "^" then Ok (Some (make_ast_node_op LineStart), next pos)
    else if c =? chr "$" then Ok (Some (make_ast_node_op LineEnd), next pos)
    else if c =? chr "\" then
      if plus pos 1 =? end_ then Ok (None, pos)
      else
        c1 <- deref (plus pos 1) ;;
        if c1 =? chr "b" then Ok (Some (make_ast_node_op WordBoundary), plus pos 2)
        else if c1 =? chr "B" then Ok (Some (make_ast_node_op NotWordBoundary), plus pos 2)
        else if c1 =? chr "`" then Ok (Some (make_ast_node_op SubjectBegin), plus pos 2)
        else if c1 =? chr "'" then Ok (Some (make_ast_node_op SubjectEnd), plus pos 2)
        else Ok (None, pos)
    else Ok (None, pos).

Definition control_escapes : list (Codepoint * Codepoint) :=
  [(chr "f", 12); (chr "n", 10); (chr "r", 13); (chr "t", 9); (chr "v", 11)].

(** [atom_escape] reads [*pos] and leaves [pos] where it is. *)
Definition atom_escape (pos : Z) : outcome AstNode :=
  cp <- deref pos ;;
  match find (fun control => fst control =? cp) control_escapes with
  | Some control => Ok (make_ast_node_value Literal (snd control))
  | None =>
    if contains "^$\.*+?()[]{}|" cp then Ok (make_ast_node_value Literal cp)
    else Throw UnknownEscape
  end.

(** The [while] loop of [character_class]; [None] is the [break] taken when
    the pattern ends inside the class. *)
Fixpoint character_class_loop (fuel : nat) (rs : list CharRange_) (pos : Z)
  : outcome (list CharRange_ * Z) :=
  match fuel with
  | O => OutOfFuel
  | S fuel' =>
    if pos =? end_ then Ok (rs, pos)
    else
      c <- deref pos ;;
      if c =? chr "]" then Ok (rs, pos)
      else
        let cp := c in
        let pos := next pos in
        if cp =? chr "-" then
          character_class_loop fuel' (rs ++ [mkCharRange (chr "-") 0]) pos
        else if pos =? end_ then Ok (rs, pos)
        else
          c' <- deref pos ;;
          if c' =? chr "-" then
            let pos := next pos in
            if pos =? end_ then Ok (rs, pos)
            else
              hi <- deref pos ;;
              let pos := next pos in
              if hi <? cp then Throw InvalidRange
              else character_class_loop fuel' (rs ++ [mkCharRange cp hi]) pos
          else character_class_loop fuel' (rs ++ [mkCharRange cp 0]) pos
  end.

Definition character_class (fuel : nat) (parsed_regex : ParsedRegex) (pos : Z)
  : outcome (AstNode * ParsedRegex * Z) :=
  negative <- (if pos =? end_ then Ok false
               else c <- deref pos ;; Ok (c =? chr "^")) ;;
  let pos := if negative : bool then next pos else pos in
  '(rs, pos) <- character_class_loop fuel [] pos ;;
  if pos =? end_ then Throw UnclosedClass
  else
    let pos := next pos in
    let ranges_id := size (ranges parsed_regex) in
    let parsed_regex :=
      mkParsedRegex (capture_count parsed_regex) (ranges parsed_regex ++ [rs]) in
    Ok (make_ast_node_value
          (if negative then NegativeCharRange else CharRange)
          (ranges_id mod two32),
        parsed_regex, pos).

(** The lambda [read_int] of [quantifier]: [res * 10] is computed in [int],
    the sum in [unsigned] (a [Codepoint] operand), and converted back. *)
Fixpoint read_int (fuel : nat) (res : Z) (pos begin : Z) : outcome (Z * Z) :=
  match fuel with
  | O => OutOfFuel
  | S fuel' =>
    if pos =? end_ then Ok (res, pos)
    else
      cp <- deref pos ;;
      if (cp <? chr "0") || (chr "9" <? cp) then
        Ok (if pos =? begin then -1 else res, pos)
      else if (INT_MAX <? res * 10) || (res * 10 <? - INT_MAX - 1) then
        Fault SignedOverflow
      else read_int fuel' (to_int (res * 10 + cp - chr "0")) (next pos) begin
  end.

Definition quantifier (fuel : nat) (pos : Z) : outcome (Quantifier.t * Z) :=
  if pos =? end_ then Ok (Quantifier.of_type Quantifier.One, pos)
  else
    c <- deref pos ;;
    if c =? chr "*" then Ok (Quantifier.of_type Quantifier.RepeatZeroOrMore, next pos)
    else if c =? chr "+" then Ok (Quantifier.of_type Quantifier.RepeatOneOrMore, next pos)
    else if c =? chr "?" then Ok (Quantifier.of_type Quantifier.Optional, next pos)
    else if c =? chr "{" then
      let it := plus pos 1 in
      '(min, it) <- read_int fuel 0 it it ;;
      c1 <- deref it ;;
      '(max, it) <- (if c1 =? chr ","
                     then let it := next it in read_int fuel 0 it it
                     else Ok (-1, it)) ;;
      c2 <- deref it ;;
      if negb (c2 =? chr "}") then Throw ExpectedClosingBrace
      else Ok (Quantifier.mk Quantifier.RepeatMinMax min max, next it)
    else Ok (Quantifier.of_type Quantifier.One, pos).

(** [atom], [term] and [alternative] call back into [disjunction], which is
    passed to them as [disj]. *)
Section WithDisjunction.

Variable disj : ParsedRegex -> Z -> Codepoint -> outcome (AstNode * ParsedRegex * Z).

Definition atom (fuel : nat) (parsed_regex : ParsedRegex) (pos : Z)
  : outcome (option AstNode * ParsedRegex * Z) :=
  if pos =? end_ then Ok (None, parsed_regex, pos)
  else
    cp <- deref pos ;;
    if cp =? chr "." then Ok (Some (make_ast_node_op AnyChar), parsed_regex, next pos)
    else if cp =? chr "(" then
      let pos := next pos in
      let capture := capture_count parsed_regex mod two32 in
      let parsed_regex :=
        mkParsedRegex (capture_count parsed_regex + 1) (ranges parsed_regex) in
      '(content, parsed_regex, pos) <- disj parsed_regex pos capture ;;
      closed <- (if pos =? end_ then Ok false
                 else c <- deref pos ;; Ok (c =? chr ")")) ;;
      if closed : bool then Ok (Some content, parsed_regex, next pos)
      else Throw UnclosedParen
    else if cp =? chr "\" then
      let pos := next pos in
      node <- atom_escape pos ;;
      Ok (Some node, parsed_regex, pos)
    else if cp =? chr "[" then
      '(node, parsed_regex, pos) <- character_class fuel parsed_regex (next pos) ;;
      Ok (Some node, parsed_regex, pos)
    else if contains "^$.*+?()[]{}|" cp then Ok (None, parsed_regex, pos)
    else Ok (Some (make_ast_node_value Literal cp), parsed_regex, next pos).

Definition term (fuel : nat) (parsed_regex : ParsedRegex) (pos : Z)
  : outcome (option AstNode * ParsedRegex * Z) :=
  '(a, pos') <- assertion pos ;;
  match a with
  | Some node => Ok (Some node, parsed_regex, pos')
  | None =>
    '(n, parsed_regex, pos) <- atom fuel parsed_regex pos ;;
    match n with
    | Some node =>
      '(q, pos) <- quantifier fuel pos ;;
      Ok (Some (set_quantifier node q), parsed_regex, pos)
    | None => Ok (None, parsed_regex, pos)
    end
  end.

Fixpoint alternative_loop (fuel : nat) (res : AstNode) (parsed_regex : ParsedRegex)
  (pos : Z) : outcome (AstNode * ParsedRegex * Z) :=
  match fuel with
  | O => OutOfFuel
  | S fuel' =>
    '(n, parsed_regex, pos) <- term fuel' parsed_regex pos ;;
    match n with
    | Some node =>
      alternative_loop fuel' (push_child res node) parsed_regex pos
    | None => Ok (res, parsed_regex, pos)
    end
  end.

Definition alternative (fuel : nat) (parsed_regex : ParsedRegex) (pos : Z)
  : outcome (AstNode * ParsedRegex * Z) :=
  '(res, parsed_regex, pos) <-
    alternative_loop fuel (make_ast_node_op Sequence) parsed_regex pos ;;
  match children res with
  | [] => Throw ParseError
  | _ => Ok (res, parsed_regex, pos)
  end.

End WithDisjunction.

Fixpoint disjunction (fuel : nat) (parsed_regex : ParsedRegex) (pos : Z)
  (capture : Codepoint) : outcome (AstNode * ParsedRegex * Z) :=
  match fuel with
  | O => OutOfFuel
  | S fuel' =>
    '(node, parsed_regex, pos) <- alternative (disjunction fuel') fuel' parsed_regex pos ;;
    bar <- (if pos =? end_ then Ok false
            else c <- deref pos ;; Ok (c =? chr "|")) ;;
    if bar : bool then
      let res := make_ast_node_op Alternation in
      '(rhs, parsed_regex, pos) <- disjunction fuel' parsed_regex (next pos) minus_one ;;
      Ok (set_value (push_child (push_child res node) rhs) capture, parsed_regex, pos)
    else Ok (set_value node capture, parsed_regex, pos)
  end.

(** [parse]: the root disjunction is capture 0; the result pairs the [ast]
    with the other two members of [ParsedRegex]. *)
Definition parse (fuel : nat) : outcome (AstNode * ParsedRegex) :=
  '(ast, parsed_regex, _) <- disjunction fuel (mkParsedRegex 1 []) 0 0 ;;
  Ok (ast, parsed_regex).

End WithPattern.

End Parser.

(** *** The bytecode writer *)

Definition push_codepoint (bytecode : list byte) (cp : Codepoint) : outcome (list byte) :=
  bs <- utf8.dump cp ;; Ok (bytecode ++ bs).

Fixpoint push_codepoints (bytecode : list byte) (cps : list Codepoint)
  : outcome (list byte) :=
  match cps with
  | [] => Ok bytecode
  | cp :: rest => bc <- push_codepoint bytecode cp ;; push_codepoints bc rest
  end.

Definition is_single (r : CharRange_) : bool := range_max r =? 0.

Definition single_codepoints (rs : list CharRange_) : list Codepoint :=
  map range_min (filter is_single rs).

Definition range_codepoints (rs : list CharRange_) : list Codepoint :=
  flat_map (fun r => [range_min r; range_max r])
           (filter (fun r => negb (is_single r)) rs).

(** The body of [compile_node], over the writer [inner] of the node's own
    code ([compile_node_inner] applied to the node). *)
Definition compile_quantified (q : Quantifier.t)
  (inner : list byte -> outcome (list byte * Offset)) (bytecode : list byte)
  : outcome (list byte * Offset) :=
  let pos := to_offset (size bytecode) in
  let '(bytecode, goto_end_offsets) :=
    if Quantifier.allows_none q then
      let '(bc, o) :=
        alloc_offset (bytecode ++ [CompiledRegex.code CompiledRegex.Split_PrioritizeParent]) in
      (bc, [o])
    else (bytecode, []) in
  first <- inner bytecode ;;
  '(bytecode, inner_pos) <-
    repeat_loop (Z.to_nat (Quantifier.min q - 1))
                (fun s : list byte * Offset => inner (fst s)) first ;;
  '(bytecode, goto_end_offsets) <-
    (if Quantifier.allows_infinite_repeat q then
       let '(bc, o) :=
         alloc_offset (bytecode ++ [CompiledRegex.code CompiledRegex.Split_PrioritizeChild]) in
       bc <- set_offset bc o inner_pos ;;
       Ok (bc, goto_end_offsets)
     else
       repeat_loop (Z.to_nat (Quantifier.max q - Z.max 1 (Quantifier.min q)))
         (fun s : list byte * list Offset =>
            let '(bc, o) :=
              alloc_offset (fst s ++ [CompiledRegex.code CompiledRegex.Split_PrioritizeParent]) in
            '(bc, _) <- inner bc ;;
            Ok (bc, snd s ++ [o]))
         (bytecode, goto_end_offsets)) ;;
  bytecode <- set_offsets bytecode goto_end_offsets (size bytecode) ;;
  Ok (bytecode, pos).

(** [for (auto& child : node->children) compile_node(program, parsed_regex,
    child);] over the [compile_node] of the children. *)
Section Children.

Variable compile_child : AstNode -> list byte -> outcome (list byte * Offset).

Fixpoint compile_children (cs : list AstNode) (bytecode : list byte)
  : outcome (list byte) :=
  match cs with
  | [] => Ok bytecode
  | child :: rest =>
    '(bc, _) <- compile_child child bytecode ;;
    compile_children rest bc
  end.

End Children.

Section WithRanges.

(** [parsed_regex.ranges], the only member the writer reads. *)
Variable parsed_ranges : list (list CharRange_).

Fixpoint compile_node_inner (node : AstNode) (bytecode : list byte) {struct node}
  : outcome (list byte * Offset) :=
  let start_pos := size bytecode in
  let capture :=
    match op node with
    | Alternation | Sequence => value node
    | _ => minus_one
    end in
  let bytecode :=
    if negb (capture =? minus_one)
    then bytecode ++ [CompiledRegex.code CompiledRegex.Save; to_char (capture * 2)]
    else bytecode in
  '(bytecode, goto_inner_end_offsets) <-
    match op node with
    | Literal =>
      bc <- push_codepoint (bytecode ++ [CompiledRegex.code CompiledRegex.Literal])
                           (value node) ;;
      Ok (bc, [])
    | AnyChar => Ok (bytecode ++ [CompiledRegex.code CompiledRegex.AnyChar], [])
    | CharRange | NegativeCharRange =>
      match at_index parsed_ranges (value node) with
      | None => Fault OutOfBounds
      | Some rs =>
        let single_count := size (filter is_single rs) in
        let bc := bytecode ++
          [CompiledRegex.code
             match op node with
             | CharRange => CompiledRegex.CharRange
             | _ => CompiledRegex.NegativeCharRange
             end;
           to_char single_count;
           to_char (size rs - single_count)] in
        bc <- push_codepoints bc (single_codepoints rs) ;;
        bc <- push_codepoints bc (range_codepoints rs) ;;
        Ok (bc, [])
      end
    | Sequence =>
      bc <- compile_children
              (fun child => compile_quantified (quantifier child) (compile_node_inner child))
              (children node) bytecode ;;
      Ok (bc, [])
    | Alternation =>
      match children node with
      | [lhs; rhs] =>
        let '(bc, offset) :=
          alloc_offset (bytecode ++ [CompiledRegex.code CompiledRegex.Split_PrioritizeParent]) in
        '(bc, _) <- compile_quantified (quantifier lhs) (compile_node_inner lhs) bc ;;
        let '(bc, end_offset) :=
          alloc_offset (bc ++ [CompiledRegex.code CompiledRegex.Jump]) in
        '(bc, right_pos) <-
          compile_quantified (quantifier rhs) (compile_node_inner rhs) bc ;;
        bc <- set_offset bc offset right_pos ;;
        Ok (bc, [end_offset])
      | _ => Fault AssertionFailed
      end
    | LineStart => Ok (bytecode ++ [CompiledRegex.code CompiledRegex.LineStart], [])
    | LineEnd => Ok (bytecode ++ [CompiledRegex.code CompiledRegex.LineEnd], [])
    | WordBoundary => Ok (bytecode ++ [CompiledRegex.code CompiledRegex.WordBoundary], [])
    | NotWordBoundary =>
      Ok (bytecode ++ [CompiledRegex.code CompiledRegex.NotWordBoundary], [])
    | SubjectBegin => Ok (bytecode ++ [CompiledRegex.code CompiledRegex.SubjectBegin], [])
    | SubjectEnd => Ok (bytecode ++ [CompiledRegex.code CompiledRegex.SubjectEnd], [])
    end ;;
  bytecode <- set_offsets bytecode goto_inner_end_offsets (size bytecode) ;;
  let bytecode :=
    if negb (capture =? minus_one)
    then bytecode ++ [CompiledRegex.code CompiledRegex.Save; to_char (capture * 2 + 1)]
    else bytecode in
  Ok (bytecode, to_offset start_pos).

Definition compile_node (node : AstNode) (bytecode : list byte)
  : outcome (list byte * Offset) :=
  compile_quantified (quantifier node) (compile_node_inner node) bytecode.

End WithRanges.

Definition prefix_size : Offset := 3 + 2 * sizeof_Offset.

Definition write_search_prefix (bytecode : list byte) : outcome (list byte) :=
  match bytecode with
  | _ :: _ => Fault AssertionFailed
  | [] =>
    let '(bc, o) :=
      alloc_offset (bytecode ++ [CompiledRegex.code CompiledRegex.Split_PrioritizeChild]) in
    bc <- set_offset bc o prefix_size ;;
    let bc := bc ++ [CompiledRegex.code CompiledRegex.AnyChar] in
    let '(bc, o) :=
      alloc_offset (bc ++ [CompiledRegex.code CompiledRegex.Split_PrioritizeParent]) in
    set_offset bc o (1 + sizeof_Offset)
  end.

(** [compile(const ParsedRegex&)]. *)
Definition compile_parsed (ast : AstNode) (parsed_regex : ParsedRegex)
  : outcome CompiledRegex.t :=
  bc <- write_search_prefix [] ;;
  '(bc, _) <- compile_node (ranges parsed_regex) ast bc ;;
  Ok (CompiledRegex.mk (bc ++ [CompiledRegex.code CompiledRegex.Match])
                       (capture_count parsed_regex * 2)).

(** [compile(StringView)]. *)
Definition compile (fuel : nat) (re : list byte) : outcome CompiledRegex.t :=
  '(ast, parsed_regex) <- Parser.parse re fuel ;;
  compile_parsed ast parsed_regex.

End RegexCompiler.

(** ** The thread list VM *)

Module ThreadedRegexVM.

(** [inst] is an offset from [prog_start], [None] is [nullptr]; a save is an
    offset into the subject, [None] is [nullptr]. *)
Record Thread : Type := mkThread {
  inst : option Z;
  saves : list (option Z)
}.

Inductive StepResult : Type := Consumed | Matched | Failed.

(** The members that change during [exec]; [m_begin] is offset 0 of the
    subject and [m_end] its size. *)
Record VM : Type := mkVM {
  m_threads : list Thread;
  m_pos : Z;
  m_captures : list (option Z)
}.

Definition inst_eqb (a b : option Z) : bool :=
  match a, b with
  | Some x, Some y => x =? y
  | None, None => true
  | _, _ => false
  end.

(** [std::find_if(..., t.inst == inst) != m_threads.end()]. *)
Definition has_thread_at (threads : list Thread) (i : option Z) : bool :=
  existsb (fun t => inst_eqb (inst t) i) threads.

Definition add_thread (threads : list Thread) (index : nat) (pos : Offset)
  (svs : list (option Z)) : list Thread :=
  let i := Some pos in
  if has_thread_at threads i then threads
  else firstn index threads ++ mkThread i svs :: skipn index threads.

Definition set_threads (vm : VM) (ts : list Thread) : VM :=
  mkVM ts (m_pos vm) (m_captures vm).

Definition set_inst (vm : VM) (thread_index : nat) (i : option Z) : VM :=
  match nth_error (m_threads vm) thread_index with
  | Some t => set_threads vm (update_at (m_threads vm) thread_index (mkThread i (saves t)))
  | None => vm
  end.

Definition set_save (vm : VM) (thread_index : nat) (index : nat) (p : Z) : VM :=
  match nth_error (m_threads vm) thread_index with
  | Some t =>
    set_threads vm (update_at (m_threads vm) thread_index
                              (mkThread (inst t) (update_at (saves t) index (Some p))))
  | None => vm
  end.

Section WithSubject.

(** [is_word] comes from unicode.hh, which is not under src/: the
    classification of codepoints into word characters is a parameter. *)
Variable is_word : Codepoint -> bool.

Variable m_program : CompiledRegex.t.

(** The subject, [data] of [exec]. *)
Variable data : list byte.

Definition m_begin : Z := 0.
Definition m_end : Z := size data.

(** [*it] for an iterator over the subject. *)
Definition codepoint_at (it : Z) : Codepoint :=
  utf8.pass (fst (utf8.read_codepoint data it)).

(** [*(it - 1)]. *)
Definition codepoint_before (it : Z) : Codepoint :=
  codepoint_at (utf8.to_previous data it).

Definition is_line_start (vm : VM) : bool :=
  (m_pos vm =? m_begin) || (codepoint_before (m_pos vm) =? 10).

Definition is_line_end (vm : VM) : bool :=
  (m_pos vm =? m_end) || (codepoint_at (m_pos vm) =? 10).

Definition is_word_boundary (vm : VM) : bool :=
  (m_pos vm =? m_begin) || (m_pos vm =? m_end) ||
  negb (Bool.eqb (is_word (codepoint_before (m_pos vm)))
                 (is_word (codepoint_at (m_pos vm)))).

Definition program_codepoint (it : Z) : Codepoint * Z :=
  let r := utf8.read_codepoint (CompiledRegex.bytecode m_program) it in
  (utf8.pass (fst r), snd r).

(** The first loop of the CharRange case: [Some it] is the instruction
    pointer after a candidate equal to [cp], advanced past the rest of the
    payload; [None] with the pointer after the singles otherwise. *)
Fixpoint match_singles (n : nat) (i : Z) (single_count range_count : Z)
  (cp : Codepoint) (it : Z) : option Z * Z :=
  match n with
  | O => (None, it)
  | S n' =>
    let '(candidate, it) := program_codepoint it in
    if cp =? candidate then
      (Some (utf8.advance (CompiledRegex.bytecode m_program) it
                          (single_count - (i + 1) + range_count * 2)), it)
    else match_singles n' (i + 1) single_count range_count cp it
  end.

Fixpoint match_ranges (n : nat) (i : Z) (range_count : Z)
  (cp : Codepoint) (it : Z) : option Z * Z :=
  match n with
  | O => (None, it)
  | S n' =>
    let '(lo, it) := program_codepoint it in
    let '(hi, it) := program_codepoint it in
    if (lo <=? cp) && (cp <=? hi) then
      (Some (utf8.advance (CompiledRegex.bytecode m_program) it
                          ((range_count - (i + 1)) * 2)), it)
    else match_ranges n' (i + 1) range_count cp it
  end.

(** What one turn of the [while (true)] loop of [step] does. *)
Inductive turn : Type :=
| Return (r : StepResult) (vm : VM)
| Continue (vm : VM).

(** One turn of the loop: the instruction at [thread.inst] is fetched,
    [thread.inst] is incremented and the case of the opcode runs. *)
Definition step_instruction (vm : VM) (thread_index : nat) : outcome turn :=
  let bytecode := CompiledRegex.bytecode m_program in
  match nth_error (m_threads vm) thread_index with
  | None => Fault OutOfBounds
  | Some thread =>
    match inst thread with
    | None => Fault NullInst
    | Some pc =>
      let cp := if m_pos vm =? m_end then 0 else codepoint_at (m_pos vm) in
      match at_index bytecode pc with
      | None => Fault OutOfBounds
      | Some b =>
        let pc := pc + 1 in
        let vm := set_inst vm thread_index (Some pc) in
        match CompiledRegex.decode b with
        | None => Ok (Continue vm)
        | Some CompiledRegex.Literal =>
          let '(c, pc) := program_codepoint pc in
          let vm := set_inst vm thread_index (Some pc) in
          Ok (Return (if c =? cp then Consumed else Failed) vm)
        | Some CompiledRegex.AnyChar => Ok (Return Consumed vm)
        | Some CompiledRegex.Jump =>
          target <- read_offset bytecode pc ;;
          if has_thread_at (m_threads vm) (Some target)
          then Ok (Return Failed vm)
          else Ok (Continue (set_inst vm thread_index (Some target)))
        | Some CompiledRegex.Split_PrioritizeParent =>
          target <- read_offset bytecode pc ;;
          let vm := set_threads vm (add_thread (m_threads vm) (thread_index + 1)
                                               target (saves thread)) in
          Ok (Continue (set_inst vm thread_index (Some (pc + sizeof_Offset))))
        | Some CompiledRegex.Split_PrioritizeChild =>
          let vm := set_threads vm (add_thread (m_threads vm) (thread_index + 1)
                                               (to_offset (pc + sizeof_Offset))
                                               (saves thread)) in
          target <- read_offset bytecode pc ;;
          Ok (Continue (set_inst vm thread_index (Some target)))
        | Some CompiledRegex.Save =>
          match at_index bytecode pc with
          | None => Fault OutOfBounds
          | Some ib =>
            let index := char_value ib in
            if (0 <=? index) && (index <? size (saves thread)) then
              Ok (Continue (set_save (set_inst vm thread_index (Some (pc + 1)))
                                     thread_index (Z.to_nat index) (m_pos vm)))
            else Fault OutOfBounds
          end
        | Some (CompiledRegex.CharRange as o) | Some (CompiledRegex.NegativeCharRange as o) =>
          let positive := match o with CompiledRegex.CharRange => true | _ => false end in
          match at_index bytecode pc, at_index bytecode (pc + 1) with
          | Some sb, Some rb =>
            let single_count := char_value sb in
            let range_count := char_value rb in
            let pc := pc + 2 in
            match match_singles (Z.to_nat single_count) 0 single_count range_count cp pc with
            | (Some pc', _) =>
              Ok (Return (if positive then Consumed else Failed)
                         (set_inst vm thread_index (Some pc')))
            | (None, pc) =>
              match match_ranges (Z.to_nat range_count) 0 range_count cp pc with
              | (Some pc', _) =>
                Ok (Return (if positive then Consumed else Failed)
                           (set_inst vm thread_index (Some pc')))
              | (None, pc) =>
                Ok (Return (if positive then Failed else Consumed)
                           (set_inst vm thread_index (Some pc)))
              end
            end
          | _, _ => Fault OutOfBounds
          end
        | Some CompiledRegex.LineStart =>
          if negb (is_line_start vm) then Ok (Return Failed vm) else Ok (Continue vm)
        | Some CompiledRegex.LineEnd =>
          if negb (is_line_end vm) then Ok (Return Failed vm) else Ok (Continue vm)
        | Some CompiledRegex.WordBoundary =>
          if negb (is_word_boundary vm) then Ok (Return Failed vm) else Ok (Continue vm)
        | Some CompiledRegex.NotWordBoundary =>
          if is_word_boundary vm then Ok (Return Failed vm) else Ok (Continue vm)
        | Some CompiledRegex.SubjectBegin =>
          if negb (m_pos vm =? m_begin) then Ok (Return Failed vm) else Ok (Continue vm)
        | Some CompiledRegex.SubjectEnd =>
          if negb (m_pos vm =? m_end) then Ok (Return Failed vm) else Ok (Continue vm)
        | Some CompiledRegex.Match =>
          Ok (Return Matched (set_inst vm thread_index None))
        end
      end
    end
  end.

(** [step]: the loop runs until a case returns; [fuel] bounds its turns. *)
Fixpoint step (fuel : nat) (vm : VM) (thread_index : nat) : outcome (StepResult * VM) :=
  match fuel with
  | O => OutOfFuel
  | S fuel' =>
    t <- step_instruction vm thread_index ;;
    match t with
    | Return r vm => Ok (r, vm)
    | Continue vm => step fuel' vm thread_index
    end
  end.

Definition thread_saves (vm : VM) (i : nat) : list (option Z) :=
  match nth_error (m_threads vm) i with
  | Some t => saves t
  | None => []
  end.

(** What a loop over the threads leaves: [Some b] is [return b] from
    [exec], [None] the end of the loop, with [found_match]. *)
Definition loop_result : Type := (option bool * bool * VM)%type.

Section WithFlags.

Variables match_ longest : bool.

(** [for (int i = 0; i < m_threads.size(); ++i)] inside the loop over the
    subject. *)
Fixpoint step_threads (fuel : nat) (i : nat) (found_match : bool) (vm : VM)
  : outcome loop_result :=
  match fuel with
  | O => OutOfFuel
  | S fuel' =>
    if (i <? List.length (m_threads vm))%nat then
      '(res, vm) <- step fuel' vm i ;;
      match res with
      | Matched =>
        if match_ then step_threads fuel' (i + 1) found_match vm
        else
          let vm := mkVM (firstn i (m_threads vm)) (m_pos vm) (thread_saves vm i) in
          if negb longest then Ok (Some true, true, vm)
          else step_threads fuel' (i + 1) true vm
      | Failed => step_threads fuel' (i + 1) found_match (set_inst vm i None)
      | Consumed => step_threads fuel' (i + 1) found_match vm
      end
    else Ok (None, found_match, vm)
  end.

(** The loop after the subject is exhausted. *)
Fixpoint step_remaining (fuel : nat) (i : nat) (found_match : bool) (vm : VM)
  : outcome loop_result :=
  match fuel with
  | O => OutOfFuel
  | S fuel' =>
    if (i <? List.length (m_threads vm))%nat then
      '(res, vm) <- step fuel' vm i ;;
      match res with
      | Matched =>
        let vm := mkVM (firstn i (m_threads vm)) (m_pos vm) (thread_saves vm i) in
        if negb longest then Ok (Some true, true, vm)
        else step_remaining fuel' (i + 1) true vm
      | _ => step_remaining fuel' (i + 1) found_match vm
      end
    else Ok (None, found_match, vm)
  end.

Definition is_dead (t : Thread) : bool := inst_eqb (inst t) None.

(** The body of [for (m_pos = ...; m_pos != m_end; ++m_pos)] with its
    increment: the threads are stepped, the dead ones erased, and the
    cursor moves on unless [exec] returns. *)
Definition exec_round (fuel : nat) (found_match : bool) (vm : VM) : outcome loop_result :=
  '(ret, found_match, vm) <- step_threads fuel 0 found_match vm ;;
  match ret with
  | Some b => Ok (Some b, found_match, vm)
  | None =>
    let vm := set_threads vm (filter (fun t => negb (is_dead t)) (m_threads vm)) in
    match m_threads vm with
    | [] => Ok (Some false, found_match, vm)
    | _ => Ok (None, found_match,
               mkVM (m_threads vm) (utf8.to_next data (m_pos vm)) (m_captures vm))
    end
  end.

(** The loop over the subject and the loop over the remaining threads that
    follows it. *)
Fixpoint exec_loop (fuel : nat) (found_match : bool) (vm : VM) : outcome (bool * VM) :=
  match fuel with
  | O => OutOfFuel
  | S fuel' =>
    if negb (m_pos vm =? m_end) then
      '(ret, found_match, vm) <- exec_round fuel' found_match vm ;;
      match ret with
      | Some b => Ok (b, vm)
      | None => exec_loop fuel' found_match vm
      end
    else
      '(ret, found_match, vm) <- step_remaining fuel' 0 found_match vm ;;
      match ret with
      | Some b => Ok (b, vm)
      | None => Ok (found_match, vm)
      end
  end.

(** The seed of [exec]: the thread list is cleared and one thread is added. *)
Definition exec_seed (vm : VM) : VM :=
  mkVM (add_thread [] 0 (if match_ then RegexCompiler.prefix_size else 0)
                   (repeat None (Z.to_nat (CompiledRegex.save_count m_program))))
       m_begin (m_captures vm).

Definition exec (fuel : nat) (vm : VM) : outcome (bool * VM) :=
  exec_loop fuel false (exec_seed vm).

(** The states [exec] is in when it tests [m_pos != m_end]: the seed, and
    what a round that does not return leaves. *)
Inductive loop_head (vm0 : VM) : bool -> VM -> Prop :=
| head_seed : loop_head vm0 false (exec_seed vm0)
| head_round (fuel : nat) (found_match found_match' : bool) (vm vm' : VM) :
    loop_head vm0 found_match vm ->
    m_pos vm <> m_end ->
    exec_round fuel found_match vm = Ok (None, found_match', vm') ->
    loop_head vm0 found_match' vm'.

(** The head of the loop over the subject after [n] rounds, computed:
    [None] when [exec] has left the loop before. *)
Fixpoint loop_head_after (fuel n : nat) (found_match : bool) (vm : VM)
  : outcome (option (bool * VM)) :=
  match n with
  | O => Ok (Some (found_match, vm))
  | S n' =>
    if m_pos vm =? m_end then Ok None
    else
      '(ret, found_match, vm) <- exec_round fuel found_match vm ;;
      match ret with
      | Some _ => Ok None
      | None => loop_head_after fuel n' found_match vm
      end
  end.

End WithFlags.

End WithSubject.

(** What [exec] returns, when it returns. *)
Definition returned (o : outcome (bool * VM)) : option bool :=
  match o with
  | Ok (b, _) => Some b
  | _ => None
  end.

(** A VM as its constructor leaves it. *)
Definition fresh : VM := mkVM [] 0 [].

(** [StringView{first, last}] over the subject, for two saved pointers. *)
Definition string_view (data : list byte) (first last : option (option Z))
  : option (list byte) :=
  match first, last with
  | Some (Some a), Some (Some b) =>
    Some (firstn (Z.to_nat (b - a)) (skipn (Z.to_nat a) data))
  | _, _ => None
  end.

(** The instruction pointers of the live threads, in list order. *)
Definition live_insts (threads : list Thread) : list Z :=
  flat_map (fun t => match inst t with Some i => [i] | None => [] end) threads.

End ThreadedRegexVM.

(** * Properties *)

Import RegexCompiler ThreadedRegexVM.

Local Open Scope string_scope.
Local Open Scope list_scope.
Local Open Scope Z_scope.

(** Closes a goal by running the embedded program. *)
Ltac run := vm_compute; reflexivity.

(** Runs the [n + 1] members of a conjunction, one after the other. *)
Tactic Notation "runs" integer(n) := do n (split; [run |]); run.

(** The subject made of [k] times the letter a, then the letter b. *)
Definition a_times_b (k : nat) : list byte := repeat (chr "a") k ++ [chr "b"].

(** [b] extends [a]: it is at least as long and, as long as its size fits an
    [Offset], it begins with [a]. *)
Definition extends (a b : list byte) : Prop :=
  (List.length a <= List.length b)%nat /\
  (size b < two32 -> firstn (List.length a) b = a).

(** An offset allocated after [a] was written and inside [b]. *)
Definition pending (a b : list byte) (o : Offset) : Prop :=
  exists n, o = to_offset n /\ size a <= n /\ n + sizeof_Offset <= size b.

(** Whether a turn of the loop of [step] goes on to the next instruction. *)
Definition succeeds (t : outcome turn) : bool :=
  match t with
  | Ok (Continue _) => true
  | _ => false
  end.

Definition fails (t : outcome turn) : bool :=
  match t with
  | Ok (Return Failed _) => true
  | _ => false
  end.

(** The word boundary of the specification text: the classification differs
    between the codepoint before the cursor and the codepoint at it, and
    beyond either end of the subject there is a non-word character. *)
Definition spec_word_boundary (is_word : Codepoint -> bool) (data : list byte)
  (pos : Z) : bool :=
  negb (Bool.eqb
          (if pos =? m_begin then false else is_word (codepoint_before data pos))
          (if pos =? m_end data then false else is_word (codepoint_at data pos)))%Z.

(** The seed offset of the specification text: 0 when anchored, [prefix_size]
    in search mode. *)
Definition spec_seed_offset (anchored : bool) : Offset :=
  if anchored then 0 else prefix_size.

(** Modelled from the spec: [is_word] of unicode.hh is not under src/; the
    glossary's word character, taken on ASCII as letters, digits and the
    underscore.  It instantiates the parameter of the VM in examples. *)
Definition ascii_is_word (c : Codepoint) : bool :=
  (((48 <=? c) && (c <=? 57)) || ((65 <=? c) && (c <=? 90)) ||
   ((97 <=? c) && (c <=? 122)) || (c =? 95))%Z.

(** The VM a turn of the loop of [step] leaves. *)
Definition turn_vm (t : turn) : VM :=
  match t with
  | Return _ vm => vm
  | Continue vm => vm
  end.

(** The program of [write_search_prefix]. *)
Definition search_prefix : list byte := [7; 11; 0; 0; 0; 2; 6; 5; 0; 0; 0].

(** The patterns of the scenarios. *)
Definition scenario_3 : list byte := bytes_of_string "^(foo|qux|baz)+(bar)?baz$".
Definition scenario_5 : list byte := bytes_of_string "\`a{3,5}b\'".
Definition scenario_max_3 : list byte := bytes_of_string "\`a{,3}b\'".
Definition scenario_max_0 : list byte := bytes_of_string "\`a{,0}b\'".

(** The threads of [vm] are stepped in list order from index [i] on, as the
    two loops of [exec] step them, and the thread at index [k] is the first
    whose [step] ends in Matched; [vm'] is the VM right after that step.
    [in_subject] tells the loop over the subject, which sets the [inst] of a
    thread that failed to [nullptr], from the loop after it, which leaves
    such a thread as it is. *)
Inductive first_match (is_word : Codepoint -> bool) (program : CompiledRegex.t)
  (data : list byte) (in_subject : bool) : nat -> VM -> nat -> VM -> Prop :=
| first_match_here (fuel : nat) (i : nat) (vm vm' : VM) :
    (i < List.length (m_threads vm))%nat ->
    step is_word program data fuel vm i = Ok (Matched, vm') ->
    first_match is_word program data in_subject i vm i vm'
| first_match_consumed (fuel : nat) (i k : nat) (vm vm1 vm' : VM) :
    (i < List.length (m_threads vm))%nat ->
    step is_word program data fuel vm i = Ok (Consumed, vm1) ->
    first_match is_word program data in_subject (i + 1) vm1 k vm' ->
    first_match is_word program data in_subject i vm k vm'
| first_match_failed (fuel : nat) (i k : nat) (vm vm1 vm' : VM) :
    (i < List.length (m_threads vm))%nat ->
    step is_word program data fuel vm i = Ok (Failed, vm1) ->
    first_match is_word program data in_subject (i + 1)
                (if in_subject then set_inst vm1 i None else vm1) k vm' ->
    first_match is_word program data in_subject i vm k vm'.

(** What [exec] leaves when the thread at index [k] of [vm] has matched and
    [longest] is not set: that thread and the threads after it are removed,
    its saves are the captures, and the threads before it stay as they are. *)
Definition matched_at (vm : VM) (k : nat) : VM :=
  mkVM (firstn k (m_threads vm)) (m_pos vm) (thread_saves vm k).

(** A save that is unset or an offset of the subject, whose size is [hi]. *)
Definition save_in_range (hi : Z) (s : option Z) : Prop :=
  match s with
  | Some p => 0 <= p <= hi
  | None => True
  end.

(** A saves vector of [n] slots, each unset or inside the subject. *)
Definition saves_ok (n : nat) (hi : Z) (svs : list (option Z)) : Prop :=
  List.length svs = n /\ Forall (save_in_range hi) svs.

(** Every thread of the VM has such a saves vector. *)
Definition all_saves_ok (n : nat) (hi : Z) (vm : VM) : Prop :=
  Forall (fun t => saves_ok n hi (saves t)) (m_threads vm).

(** Every thread of the VM has such a saves vector, and the cursor is inside
    the subject. *)
Definition threads_ok (n : nat) (hi : Z) (vm : VM) : Prop :=
  Forall (fun t => saves_ok n hi (saves t)) (m_threads vm) /\
  0 <= m_pos vm <= hi.

(** What the loops of [exec] keep: the saves vectors of the threads, the
    cursor inside the subject, and the captures once a match was found. *)
Definition exec_inv (n : nat) (data : list byte) (found : bool) (vm : VM) : Prop :=
  threads_ok n (size data) vm /\
  (found = true -> saves_ok n (size data) (m_captures vm)).

Definition exec_inv_result (n : nat) (data : list byte) (r : loop_result) : Prop :=
  let '(ret, found, vm) := r in
  exec_inv n data found vm /\ (ret = Some true -> found = true).

(** The shape of the trees the parser builds, for a table of [nranges]
    character classes: an Alternation has two children, a Sequence at least
    one, the other nodes none, and a character class node holds an index of
    the table. *)
Fixpoint well_formed (nranges : Z) (node : AstNode) : bool :=
  match node with
  | mkAstNode o v _ cs =>
    match o with
    | Alternation => (List.length cs =? 2)%nat
    | Sequence => negb (List.length cs =? 0)%nat
    | CharRange | NegativeCharRange =>
      (List.length cs =? 0)%nat && (0 <=? v) && (v <? nranges)
    | _ => (List.length cs =? 0)%nat
    end && forallb (well_formed nranges) cs
  end.

(** The nodes [compile_node_inner] brackets with Save instructions when
    their [value] is a capture. *)
Definition is_group (node : AstNode) : bool :=
  match op node with
  | Sequence | Alternation => true
  | _ => false
  end.

(** The table of character classes and the capture count of [pr'] are those
    of [pr] or larger. *)
Definition grows (pr pr' : ParsedRegex) : Prop :=
  size (ranges pr) <= size (ranges pr') /\ capture_count pr <= capture_count pr'.

(** An outcome that is a result or a thrown error: no assertion failed and
    nothing was read or written out of range. *)
Definition safe {A : Type} (o : outcome A) : Prop :=
  match o with
  | Ok _ | Throw _ => True
  | Fault _ | OutOfFuel => False
  end.

(** A byte below 128: a codepoint that is its own UTF-8 encoding. *)
Definition is_ascii (b : byte) : Prop := 0 <= b < 128.

(** A character of a pattern that stands for itself: below 128 and none of
    the elements of the literal of syntax characters, which are the syntax
    characters and the NUL that ends the literal. *)
Definition plain (c : byte) : Prop :=
  is_ascii c /\ contains "^$\.*+?()[]{}|" c = false.

Definition literal_node (c : Codepoint) : AstNode := make_ast_node_value Literal c.

(** The tree of a pattern made of plain characters, and its program. *)
Definition literal_ast (lits : list byte) : AstNode :=
  mkAstNode Sequence 0 (Quantifier.of_type Quantifier.One) (map literal_node lits).

Definition literal_code (lits : list byte) : list byte :=
  flat_map (fun c => [CompiledRegex.code CompiledRegex.Literal; c]) lits.

Definition literal_program (lits : list byte) : CompiledRegex.t :=
  CompiledRegex.mk
    (search_prefix ++ [CompiledRegex.code CompiledRegex.Save; 0] ++ literal_code lits
     ++ [CompiledRegex.code CompiledRegex.Save; 1; CompiledRegex.code CompiledRegex.Match])
    2.

(** The one thread of the anchored run of [literal_program] when the cursor
    is [k] characters into the subject. *)
Definition literal_thread (k : nat) : Thread :=
  match k with
  | O => mkThread (Some prefix_size) [None; None]
  | S _ => mkThread (Some (13 + 2 * Z.of_nat k)) [Some 0; None]
  end.

(** Whether a codepoint is in a character class: it is one of the singles
    (the entries whose [max] is 0) or inside one of the ranges. *)
Definition class_accepts (rs : list CharRange_) (cp : Codepoint) : bool :=
  existsb (fun r => if is_single r then cp =? range_min r
                    else (range_min r <=? cp) && (cp <=? range_max r)) rs.

(** The instruction of a character class: opcode, the two counts, the
    singles and the bounds of the ranges. *)
Definition class_code (positive : bool) (rs : list CharRange_) : list byte :=
  [CompiledRegex.code (if positive then CompiledRegex.CharRange
                       else CompiledRegex.NegativeCharRange);
   to_char (size (filter is_single rs));
   to_char (size rs - size (filter is_single rs))]
  ++ single_codepoints rs ++ range_codepoints rs.

Definition ascii_range (r : CharRange_) : Prop :=
  is_ascii (range_min r) /\ is_ascii (range_max r).

(** The bytes [l] stand in [b] from offset [base] on. *)
Definition holds (b : list byte) (base : Z) (l : list byte) : Prop :=
  forall n x, nth_error l n = Some x -> at_index b (base + Z.of_nat n) = Some x.

(** The pattern (^)* and the program [compile] returns for it: a group that
    matches the empty string, repeated. *)
Definition line_start_star : list byte := bytes_of_string "(^)*".

Definition line_start_star_program : CompiledRegex.t :=
  CompiledRegex.mk
    [7; 11; 0; 0; 0; 2; 6; 5; 0; 0; 0; 8; 0; 6; 28; 0; 0; 0; 8; 2; 9; 8; 3;
     7; 18; 0; 0; 0; 8; 1; 0] 4.

(** The states of that program in which the first thread is on its way
    into, or inside, the loop of the repetition at the begin of the subject. *)
Definition spinning (vm : VM) : Prop :=
  m_pos vm = 0 /\
  exists pc s0 s1 s2 s3 rest,
    m_threads vm = mkThread (Some pc) [s0; s1; s2; s3] :: rest /\
    (pc = 0 \/ pc = 11 \/ pc = 13 \/
     ((pc = 18 \/ pc = 20 \/ pc = 21 \/ pc = 23) /\ has_thread_at rest (Some 28) = true)).

(** Decimal digits, their characters in a pattern and the number they
    write; [count_of] is what the [read_int] of [quantifier] makes of a run
    of digits, -1 when there is none. *)
Definition is_digit (d : Z) : Prop := 0 <= d <= 9.

Definition digit_codes (ds : list Z) : list byte := map (fun d => chr "0" + d) ds.

Definition decimal_from (acc : Z) (ds : list Z) : Z :=
  fold_left (fun a d => a * 10 + d) ds acc.

Definition count_of (ds : list Z) : Z :=
  match ds with
  | [] => -1
  | _ => decimal_from 0 ds
  end.

(** What ends a run of plain characters without starting anything: the end
    of the pattern, a closing bracket that nothing opened, or a NUL. *)
Definition ends_run (tail : list byte) : Prop :=
  tail = [] \/ exists c rest, tail = c :: rest /\ contains ")]}" c = true.

(** The thread of the attempt to match [literal_program] that started at
    offset [s] of the subject, when the cursor is at [p]; and the thread of
    the search prefix, which starts an attempt at every offset. *)
Definition attempt_thread (p s : nat) : Thread :=
  mkThread (Some (13 + 2 * Z.of_nat (p - s))) [Some (Z.of_nat s); None].

Definition scout_thread (p : nat) : Thread :=
  mkThread (Some (match p with O => 0 | S _ => 6 end)) [None; None].

(** The pattern stands in the subject at offset [s]. *)
Definition occurs_at (lits data : list byte) (s : nat) : Prop :=
  firstn (List.length lits) (skipn s data) = lits.

(** The subject from [s] up to [p] is a beginning of the pattern. *)
Definition agrees (lits data : list byte) (s p : nat) : Prop :=
  forall j, (j < p - s)%nat -> nth_error data (s + j) = nth_error lits j.

(** The thread of an attempt after a round of [exec] in which the subject
    held [d] under the cursor, and the starts of the attempts that are
    still alive after it. *)
Definition after_round (lits : list byte) (p : nat) (d : byte) (s : nat) : Thread :=
  match nth_error lits (p - s) with
  | Some c =>
    if c =? d then attempt_thread (S p) s else mkThread None [Some (Z.of_nat s); None]
  | None => mkThread None [Some (Z.of_nat s); None]
  end.

Definition goes_on (lits : list byte) (p : nat) (d : byte) (s : nat) : bool :=
  match nth_error lits (p - s) with
  | Some c => c =? d
  | None => false
  end.

Definition next_starts (lits : list byte) (p : nat) (d : byte) (ss : list nat) : list nat :=
  filter (goes_on lits p d) ss ++ (if goes_on lits p d p then [p] else []).

(** The VM of a search at the head of the loop over the subject. *)
Definition search_vm (p : nat) (ss : list nat) (caps : list (option Z)) : VM :=
  mkVM (map (attempt_thread p) ss ++ [scout_thread p]) (Z.of_nat p) caps.

(** What the loop of a search keeps: at cursor [p] the attempts alive are at
    most [p], and they are the starts before [p], not further back than the
    pattern is long, from which the subject agrees with the pattern up to
    [p]. *)
Definition search_inv (lits data : list byte) (p : nat) (ss : list nat) : Prop :=
  (List.length ss <= p)%nat /\
  forall s, In s ss <->
            (s < p)%nat /\ (p <= s + List.length lits)%nat /\ agrees lits data s p.

(** ** Outcomes *)

Lemma bind_Ok {A B : Type} (m : outcome A) (k : A -> outcome B) (b : B) :
  bind m k = Ok b -> exists a, m = Ok a /\ k a = Ok b.
Proof.
  destruct m as [a | e | f |]; simpl; intro H; try discriminate.
  exists a. split; [reflexivity | exact H].
Qed.

(** Takes a hypothesis [x <- m ;; k = Ok _] apart. *)
Ltac bind_inv H :=
  let a := fresh "r" in
  let Ha := fresh "Hr" in
  apply bind_Ok in H; destruct H as [a [Ha H]].

(** ** More fuel changes nothing *)

Lemma step_fuel_monotone (is_word : Codepoint -> bool) (program : CompiledRegex.t)
  (data : list byte) :
  forall fuel fuel' vm i r,
    (fuel <= fuel')%nat ->
    step is_word program data fuel vm i = Ok r ->
    step is_word program data fuel' vm i = Ok r.
Proof.
  induction fuel as [| fuel IH]; intros fuel' vm i r Hle H; [discriminate |].
  destruct fuel' as [| fuel']; [lia |].
  simpl in H |- *.
  destruct (step_instruction is_word program data vm i) as [[res vm1 | vm1] | | |];
    simpl in H |- *; try discriminate.
  - exact H.
  - apply (IH fuel' vm1 i r); [lia | exact H].
Qed.

Lemma step_threads_fuel_monotone (is_word : Codepoint -> bool)
  (program : CompiledRegex.t) (data : list byte) (match_ longest : bool) :
  forall fuel fuel' i found vm r,
    (fuel <= fuel')%nat ->
    step_threads is_word program data match_ longest fuel i found vm = Ok r ->
    step_threads is_word program data match_ longest fuel' i found vm = Ok r.
Proof.
  induction fuel as [| fuel IH]; intros fuel' i found vm r Hle H; [discriminate |].
  destruct fuel' as [| fuel']; [lia |].
  simpl in H |- *.
  destruct (i <? List.length (m_threads vm))%nat; [| exact H].
  bind_inv H. destruct r0 as [res vm1].
  rewrite (step_fuel_monotone is_word program data fuel fuel' vm i _ ltac:(lia) Hr).
  cbn [bind].
  destruct res; [| destruct match_; [| destruct (negb longest)] |];
    try exact H; apply IH; try lia; exact H.
Qed.

Lemma step_remaining_fuel_monotone (is_word : Codepoint -> bool)
  (program : CompiledRegex.t) (data : list byte) (longest : bool) :
  forall fuel fuel' i found vm r,
    (fuel <= fuel')%nat ->
    step_remaining is_word program data longest fuel i found vm = Ok r ->
    step_remaining is_word program data longest fuel' i found vm = Ok r.
Proof.
  induction fuel as [| fuel IH]; intros fuel' i found vm r Hle H; [discriminate |].
  destruct fuel' as [| fuel']; [lia |].
  simpl in H |- *.
  destruct (i <? List.length (m_threads vm))%nat; [| exact H].
  bind_inv H. destruct r0 as [res vm1].
  rewrite (step_fuel_monotone is_word program data fuel fuel' vm i _ ltac:(lia) Hr).
  cbn [bind].
  destruct res; [| destruct (negb longest) |];
    try exact H; apply IH; try lia; exact H.
Qed.

Lemma exec_round_fuel_monotone (is_word : Codepoint -> bool)
  (program : CompiledRegex.t) (data : list byte) (match_ longest : bool) :
  forall fuel fuel' found vm r,
    (fuel <= fuel')%nat ->
    exec_round is_word program data match_ longest fuel found vm = Ok r ->
    exec_round is_word program data match_ longest fuel' found vm = Ok r.
Proof.
  intros fuel fuel' found vm r Hle H. unfold exec_round in H |- *.
  bind_inv H.
  rewrite (step_threads_fuel_monotone is_word program data match_ longest
             fuel fuel' 0 found vm _ Hle Hr).
  exact H.
Qed.

Lemma exec_loop_fuel_monotone (is_word : Codepoint -> bool)
  (program : CompiledRegex.t) (data : list byte) (match_ longest : bool) :
  forall fuel fuel' found vm r,
    (fuel <= fuel')%nat ->
    exec_loop is_word program data match_ longest fuel found vm = Ok r ->
    exec_loop is_word program data match_ longest fuel' found vm = Ok r.
Proof.
  induction fuel as [| fuel IH]; intros fuel' found vm r Hle H; [discriminate |].
  destruct fuel' as [| fuel']; [lia |].
  simpl in H |- *.
  destruct (negb (m_pos vm =? m_end data)).
  - bind_inv H. destruct r0 as [[ret found1] vm1].
    rewrite (exec_round_fuel_monotone is_word program data match_ longest
               fuel fuel' found vm _ ltac:(lia) Hr).
    cbn [bind]. destruct ret as [b |]; [exact H |].
    apply IH; [lia | exact H].
  - bind_inv H.
    rewrite (step_remaining_fuel_monotone is_word program data longest
               fuel fuel' 0 found vm _ ltac:(lia) Hr).
    exact H.
Qed.

(** What [exec] returns with some fuel it returns with any larger fuel. *)
Lemma exec_fuel_monotone (is_word : Codepoint -> bool)
  (program : CompiledRegex.t) (data : list byte) (match_ longest : bool) :
  forall fuel fuel' vm r,
    (fuel <= fuel')%nat ->
    exec is_word program data match_ longest fuel vm = Ok r ->
    exec is_word program data match_ longest fuel' vm = Ok r.
Proof.
  intros fuel fuel' vm r. unfold exec. apply exec_loop_fuel_monotone.
Qed.

Section ParserFuel.

Variable re : list byte.

Lemma read_int_fuel_monotone :
  forall fuel fuel' res pos begin r,
    (fuel <= fuel')%nat ->
    Parser.read_int re fuel res pos begin = Ok r ->
    Parser.read_int re fuel' res pos begin = Ok r.
Proof.
  induction fuel as [| fuel IH]; intros fuel' res pos begin r Hle H; [discriminate |].
  destruct fuel' as [| fuel']; [lia |].
  cbn [Parser.read_int] in H |- *.
  destruct (pos =? Parser.end_ re); [exact H |].
  destruct (Parser.deref re pos) as [cp | | |]; cbn [bind] in H |- *; try discriminate.
  destruct ((cp <? chr "0") || (chr "9" <? cp)); [exact H |].
  destruct ((INT_MAX <? res * 10) || (res * 10 <? - INT_MAX - 1)); [discriminate |].
  apply IH; [lia | exact H].
Qed.

Lemma character_class_loop_fuel_monotone :
  forall fuel fuel' rs pos r,
    (fuel <= fuel')%nat ->
    Parser.character_class_loop re fuel rs pos = Ok r ->
    Parser.character_class_loop re fuel' rs pos = Ok r.
Proof.
  induction fuel as [| fuel IH]; intros fuel' rs pos r Hle H; [discriminate |].
  destruct fuel' as [| fuel']; [lia |].
  cbn [Parser.character_class_loop] in H |- *.
  destruct (pos =? Parser.end_ re); [exact H |].
  destruct (Parser.deref re pos) as [c | | |]; cbn [bind] in H |- *; try discriminate.
  destruct (c =? chr "]"); [exact H |].
  destruct (c =? chr "-"); [apply IH; [lia | exact H] |].
  destruct (Parser.next re pos =? Parser.end_ re); [exact H |].
  destruct (Parser.deref re (Parser.next re pos)) as [c' | | |];
    cbn [bind] in H |- *; try discriminate.
  destruct (c' =? chr "-"); [| apply IH; [lia | exact H]].
  destruct (Parser.next re (Parser.next re pos) =? Parser.end_ re); [exact H |].
  destruct (Parser.deref re (Parser.next re (Parser.next re pos))) as [hi | | |];
    cbn [bind] in H |- *; try discriminate.
  destruct (hi <? c); [discriminate |].
  apply IH; [lia | exact H].
Qed.

Lemma character_class_fuel_monotone :
  forall fuel fuel' parsed_regex pos r,
    (fuel <= fuel')%nat ->
    Parser.character_class re fuel parsed_regex pos = Ok r ->
    Parser.character_class re fuel' parsed_regex pos = Ok r.
Proof.
  intros fuel fuel' parsed_regex pos r Hle H.
  unfold Parser.character_class in H |- *.
  bind_inv H. rewrite Hr. cbn [bind].
  bind_inv H.
  rewrite (character_class_loop_fuel_monotone _ _ _ _ _ Hle Hr0).
  exact H.
Qed.

Lemma quantifier_fuel_monotone :
  forall fuel fuel' pos r,
    (fuel <= fuel')%nat ->
    Parser.quantifier re fuel pos = Ok r ->
    Parser.quantifier re fuel' pos = Ok r.
Proof.
  intros fuel fuel' pos r Hle H.
  unfold Parser.quantifier in H |- *.
  destruct (pos =? Parser.end_ re); [exact H |].
  destruct (Parser.deref re pos) as [c | | |]; cbn [bind] in H |- *; try discriminate.
  destruct (c =? chr "*"); [exact H |].
  destruct (c =? chr "+"); [exact H |].
  destruct (c =? chr "?"); [exact H |].
  destruct (c =? chr "{"); [| exact H].
  bind_inv H. rewrite (read_int_fuel_monotone _ _ _ _ _ _ Hle Hr). cbn [bind].
  destruct r0 as [mn it].
  destruct (Parser.deref re it) as [c1 | | |]; cbn [bind] in H |- *; try discriminate.
  bind_inv H.
  assert (Hmax : (if c1 =? chr ","
                  then Parser.read_int re fuel' 0 (Parser.next re it) (Parser.next re it)
                  else Ok (-1, it)) = Ok r0).
  { destruct (c1 =? chr ","); [| exact Hr0].
    apply (read_int_fuel_monotone _ _ _ _ _ _ Hle Hr0). }
  rewrite Hmax. exact H.
Qed.

Section WithDisjunctions.

Variables disj disj' :
  ParsedRegex -> Z -> Codepoint -> outcome (AstNode * ParsedRegex * Z).

Hypothesis disj_le :
  forall parsed_regex pos capture r,
    disj parsed_regex pos capture = Ok r -> disj' parsed_regex pos capture = Ok r.

Lemma atom_fuel_monotone :
  forall fuel fuel' parsed_regex pos r,
    (fuel <= fuel')%nat ->
    Parser.atom re disj fuel parsed_regex pos = Ok r ->
    Parser.atom re disj' fuel' parsed_regex pos = Ok r.
Proof.
  intros fuel fuel' parsed_regex pos r Hle H.
  unfold Parser.atom in H |- *.
  destruct (pos =? Parser.end_ re); [exact H |].
  destruct (Parser.deref re pos) as [cp | | |]; cbn [bind] in H |- *; try discriminate.
  destruct (cp =? chr "."); [exact H |].
  destruct (cp =? chr "(").
  { bind_inv H. rewrite (disj_le _ _ _ _ Hr). exact H. }
  destruct (cp =? chr "\"); [exact H |].
  destruct (cp =? chr "["); [| exact H].
  bind_inv H. rewrite (character_class_fuel_monotone _ _ _ _ _ Hle Hr). exact H.
Qed.

Lemma term_fuel_monotone :
  forall fuel fuel' parsed_regex pos r,
    (fuel <= fuel')%nat ->
    Parser.term re disj fuel parsed_regex pos = Ok r ->
    Parser.term re disj' fuel' parsed_regex pos = Ok r.
Proof.
  intros fuel fuel' parsed_regex pos r Hle H.
  unfold Parser.term in H |- *.
  bind_inv H. rewrite Hr. cbn [bind]. destruct r0 as [[node |] pos']; [exact H |].
  bind_inv H. rewrite (atom_fuel_monotone _ _ _ _ _ Hle Hr0). cbn [bind].
  destruct r0 as [[[node |] pr] pos1]; [| exact H].
  bind_inv H. rewrite (quantifier_fuel_monotone _ _ _ _ Hle Hr1). exact H.
Qed.

Lemma alternative_loop_fuel_monotone :
  forall fuel fuel' res parsed_regex pos r,
    (fuel <= fuel')%nat ->
    Parser.alternative_loop re disj fuel res parsed_regex pos = Ok r ->
    Parser.alternative_loop re disj' fuel' res parsed_regex pos = Ok r.
Proof.
  induction fuel as [| fuel IH]; intros fuel' res parsed_regex pos r Hle H;
    [discriminate |].
  destruct fuel' as [| fuel']; [lia |].
  cbn [Parser.alternative_loop] in H |- *.
  bind_inv H. rewrite (term_fuel_monotone fuel fuel' _ _ _ ltac:(lia) Hr). cbn [bind].
  destruct r0 as [[[node |] pr] pos1]; [| exact H].
  apply IH; [lia | exact H].
Qed.

Lemma alternative_fuel_monotone :
  forall fuel fuel' parsed_regex pos r,
    (fuel <= fuel')%nat ->
    Parser.alternative re disj fuel parsed_regex pos = Ok r ->
    Parser.alternative re disj' fuel' parsed_regex pos = Ok r.
Proof.
  intros fuel fuel' parsed_regex pos r Hle H.
  unfold Parser.alternative in H |- *.
  bind_inv H. rewrite (alternative_loop_fuel_monotone _ _ _ _ _ _ Hle Hr). exact H.
Qed.

End WithDisjunctions.

Lemma disjunction_fuel_monotone :
  forall fuel fuel' parsed_regex pos capture r,
    (fuel <= fuel')%nat ->
    Parser.disjunction re fuel parsed_regex pos capture = Ok r ->
    Parser.disjunction re fuel' parsed_regex pos capture = Ok r.
Proof.
  induction fuel as [| fuel IH]; intros fuel' parsed_regex pos capture r Hle H;
    [discriminate |].
  destruct fuel' as [| fuel']; [lia |].
  cbn [Parser.disjunction] in H |- *.
  bind_inv H.
  rewrite (alternative_fuel_monotone
             (Parser.disjunction re fuel) (Parser.disjunction re fuel')
             (fun pr p c r' => IH fuel' pr p c r' ltac:(lia))
             fuel fuel' _ _ _ ltac:(lia) Hr).
  cbn [bind]. destruct r0 as [[node pr] pos1].
  bind_inv H. rewrite Hr0. cbn [bind].
  destruct r0; [| exact H].
  bind_inv H. rewrite (IH fuel' _ _ _ _ ltac:(lia) Hr1). exact H.
Qed.

(** What [compile] returns with some fuel it returns with any larger fuel. *)
Lemma compile_fuel_monotone :
  forall fuel fuel' program,
    (fuel <= fuel')%nat ->
    compile fuel re = Ok program -> compile fuel' re = Ok program.
Proof.
  intros fuel fuel' program Hle H. unfold compile, Parser.parse in H |- *.
  bind_inv H. bind_inv Hr.
  rewrite (disjunction_fuel_monotone _ _ _ _ _ _ Hle Hr0). cbn [bind].
  rewrite Hr. exact H.
Qed.

End ParserFuel.

(** The same for the value [exec] returns. *)
Lemma returned_fuel_monotone (is_word : Codepoint -> bool)
  (program : CompiledRegex.t) (data : list byte) (match_ longest : bool) :
  forall fuel fuel' vm b,
    (fuel <= fuel')%nat ->
    returned (exec is_word program data match_ longest fuel vm) = Some b ->
    returned (exec is_word program data match_ longest fuel' vm) = Some b.
Proof.
  intros fuel fuel' vm b Hle H.
  destruct (exec is_word program data match_ longest fuel vm) as [[b0 vm0] | | |] eqn:He;
    try discriminate.
  rewrite (exec_fuel_monotone is_word program data match_ longest fuel fuel' vm _ Hle He).
  exact H.
Qed.

(** Runs [compile] and [exec] with the fuel named, for any fuel above it. *)
Ltac run_compile n :=
  intro; apply (compile_fuel_monotone _ n); [lia | run].
Ltac run_exec n :=
  intro; apply (exec_fuel_monotone _ _ _ _ _ n); [lia | run].
Ltac run_returned n :=
  intro; apply (returned_fuel_monotone _ _ _ _ _ n); [lia | run].

(** ** The scenarios of the unit test *)

(** C5: the pattern ^(foo|qux|baz)+(bar)?baz$ compiles, and executed anchored
    it matches "fooquxbarbaz" with the saves of group 1 around "qux", does
    not match "fooquxbarbaze", and matches "bazbaz" and "quxbaz"; the
    executions run on one VM, one after the other, as in the unit test, and
    return with any fuel from the one named on. *)
Theorem C5_group_of_last_iteration : forall is_word : Codepoint -> bool,
  exists program vm1 vm2 vm3 vm4,
    (forall fuel, compile (64 + fuel) scenario_3 = Ok program) /\
    (forall fuel,
        exec is_word program (bytes_of_string "fooquxbarbaz") true false
             (256 + fuel) fresh = Ok (true, vm1)) /\
    string_view (bytes_of_string "fooquxbarbaz")
                (nth_error (m_captures vm1) 2) (nth_error (m_captures vm1) 3)
      = Some (bytes_of_string "qux") /\
    (forall fuel,
        exec is_word program (bytes_of_string "fooquxbarbaze") true false
             (256 + fuel) vm1 = Ok (false, vm2)) /\
    (forall fuel,
        exec is_word program (bytes_of_string "bazbaz") true false
             (256 + fuel) vm2 = Ok (true, vm3)) /\
    (forall fuel,
        exec is_word program (bytes_of_string "quxbaz") true false
             (256 + fuel) vm3 = Ok (true, vm4)).
Proof.
  intro is_word.
  do 5 eexists.
  split; [run_compile 64%nat |].
  split; [run_exec 256%nat |].
  split; [run |].
  split; [run_exec 256%nat |].
  split; [run_exec 256%nat | run_exec 256%nat].
Qed.

(** C6: the pattern \`a{3,5}b\' compiles, and executed anchored it returns
    false on "aab", true on "aaab", true on "aaaaab" and false on "aaaaaab";
    over the subjects of zero to eight a followed by b, it returns true
    exactly for three, four and five a. *)
Theorem C6_three_to_five : forall is_word : Codepoint -> bool,
  exists program,
    (forall fuel, compile (64 + fuel) scenario_5 = Ok program) /\
    (forall fuel,
        returned (exec is_word program (bytes_of_string "aab") true false
                       (256 + fuel) fresh) = Some false) /\
    (forall fuel,
        returned (exec is_word program (bytes_of_string "aaab") true false
                       (256 + fuel) fresh) = Some true) /\
    (forall fuel,
        returned (exec is_word program (bytes_of_string "aaaaab") true false
                       (256 + fuel) fresh) = Some true) /\
    (forall fuel,
        returned (exec is_word program (bytes_of_string "aaaaaab") true false
                       (256 + fuel) fresh) = Some false) /\
    map (fun k => returned (exec is_word program (a_times_b k) true false 256 fresh))
        (seq 0 9)
      = map (fun k => Some ((3 <=? k)%nat && (k <=? 5)%nat)) (seq 0 9).
Proof.
  intro is_word.
  eexists.
  split; [run_compile 64%nat |].
  do 4 (split; [run_returned 256%nat |]).
  run.
Qed.

(** What the unit test checks for \`a{,3}b\': anchored, it matches "b", "ab"
    and "aaab" and not "aaaab"; the quantifier is parsed with [min = -1]. *)
Lemma max_3_scenario : forall is_word : Codepoint -> bool,
  exists ast parsed_regex program,
    Parser.parse scenario_max_3 64 = Ok (ast, parsed_regex) /\
    map quantifier (children ast)
      = [Quantifier.of_type Quantifier.One;
         Quantifier.mk Quantifier.RepeatMinMax (-1) 3;
         Quantifier.of_type Quantifier.One;
         Quantifier.of_type Quantifier.One] /\
    (forall fuel, compile (64 + fuel) scenario_max_3 = Ok program) /\
    (forall fuel,
        returned (exec is_word program (bytes_of_string "b") true false
                       (256 + fuel) fresh) = Some true) /\
    (forall fuel,
        returned (exec is_word program (bytes_of_string "ab") true false
                       (256 + fuel) fresh) = Some true) /\
    (forall fuel,
        returned (exec is_word program (bytes_of_string "aaab") true false
                       (256 + fuel) fresh) = Some true) /\
    (forall fuel,
        returned (exec is_word program (bytes_of_string "aaaab") true false
                       (256 + fuel) fresh) = Some false) /\
    map (fun k => returned (exec is_word program (a_times_b k) true false 256 fresh))
        (seq 0 6)
      = map (fun k => Some (k <=? 3)%nat) (seq 0 6).
Proof.
  intro is_word.
  do 3 eexists.
  split; [run |]. split; [run |].
  split; [run_compile 64%nat |].
  do 4 (split; [run_returned 256%nat |]).
  run.
Qed.

(** C8: for [{,0}] the writer still emits the atom once, behind the split
    that skips it: \`a{,0}b\' is parsed with [min = -1] and [max = 0], and
    executed anchored it matches "ab", one repetition of the atom, as well as
    "b"; it does not match "aab". *)
Theorem C8_max_zero_accepts_one : forall is_word : Codepoint -> bool,
  exists ast parsed_regex program,
    Parser.parse scenario_max_0 64 = Ok (ast, parsed_regex) /\
    map quantifier (children ast)
      = [Quantifier.of_type Quantifier.One;
         Quantifier.mk Quantifier.RepeatMinMax (-1) 0;
         Quantifier.of_type Quantifier.One;
         Quantifier.of_type Quantifier.One] /\
    (forall fuel, compile (64 + fuel) scenario_max_0 = Ok program) /\
    (forall fuel,
        returned (exec is_word program (bytes_of_string "b") true false
                       (256 + fuel) fresh) = Some true) /\
    (forall fuel,
        returned (exec is_word program (bytes_of_string "ab") true false
                       (256 + fuel) fresh) = Some true) /\
    (forall fuel,
        returned (exec is_word program (bytes_of_string "aab") true false
                       (256 + fuel) fresh) = Some false).
Proof.
  intro is_word.
  do 3 eexists.
  split; [run |]. split; [run |].
  split; [run_compile 64%nat |].
  do 2 (split; [run_returned 256%nat |]).
  run_returned 256%nat.
Qed.

(** ** Where the code leaves its description *)

(** *** The captures of a run that returns false *)

Lemma m_captures_set_inst (vm : VM) (i : nat) (x : option Z) :
  m_captures (set_inst vm i x) = m_captures vm.
Proof. unfold set_inst. destruct (nth_error (m_threads vm) i); reflexivity. Qed.

Lemma m_captures_set_save (vm : VM) (i k : nat) (p : Z) :
  m_captures (set_save vm i k p) = m_captures vm.
Proof. unfold set_save. destruct (nth_error (m_threads vm) i); reflexivity. Qed.

(** Takes the result of a turn apart, case by case. *)
Ltac turn_cases H :=
  repeat first
    [ discriminate
    | match type of H with
      | bind _ _ = Ok _ => bind_inv H
      | context [match ?x with _ => _ end] => destruct x eqn:?
      end ].

(** No turn of the loop of [step] touches [m_captures]. *)
Lemma step_instruction_captures (is_word : Codepoint -> bool)
  (program : CompiledRegex.t) (data : list byte) (vm : VM) (i : nat) (t : turn) :
  step_instruction is_word program data vm i = Ok t ->
  m_captures (turn_vm t) = m_captures vm.
Proof.
  intro H. unfold step_instruction in H.
  turn_cases H; injection H as <-; cbn [turn_vm];
    rewrite ?m_captures_set_save, ?m_captures_set_inst; cbn [set_threads m_captures];
    rewrite ?m_captures_set_inst; reflexivity.
Qed.

Lemma step_captures (is_word : Codepoint -> bool) (program : CompiledRegex.t)
  (data : list byte) :
  forall fuel vm i r vm',
    step is_word program data fuel vm i = Ok (r, vm') ->
    m_captures vm' = m_captures vm.
Proof.
  induction fuel as [| fuel IH]; intros vm i r vm' H; [discriminate |].
  simpl in H. bind_inv H.
  apply step_instruction_captures in Hr.
  destruct r0 as [res vm1 | vm1]; cbn [turn_vm] in Hr.
  - injection H as _ <-. exact Hr.
  - rewrite <- Hr. apply (IH vm1 i r vm' H).
Qed.

(** Without [longest], a loop over the threads either returns true or
    leaves [found_match] and [m_captures] as they were. *)
Lemma step_threads_captures (is_word : Codepoint -> bool) (program : CompiledRegex.t)
  (data : list byte) (match_ : bool) :
  forall fuel i found vm ret found' vm',
    step_threads is_word program data match_ false fuel i found vm
      = Ok (ret, found', vm') ->
    ret = Some true \/
    (ret = None /\ found' = found /\ m_captures vm' = m_captures vm).
Proof.
  induction fuel as [| fuel IH]; intros i found vm ret found' vm' H; [discriminate |].
  simpl in H.
  destruct (i <? List.length (m_threads vm))%nat.
  - bind_inv H. destruct r as [res vm1].
    apply step_captures in Hr.
    destruct res; [| destruct match_ |].
    + destruct (IH _ _ _ _ _ _ H) as [Ht | [Hn [Hf Hc]]]; [left; exact Ht |].
      right. rewrite Hc, Hr. auto.
    + destruct (IH _ _ _ _ _ _ H) as [Ht | [Hn [Hf Hc]]]; [left; exact Ht |].
      right. rewrite Hc, Hr. auto.
    + cbn [negb] in H. injection H as <- _ _. left. reflexivity.
    + destruct (IH _ _ _ _ _ _ H) as [Ht | [Hn [Hf Hc]]]; [left; exact Ht |].
      right. rewrite Hc, m_captures_set_inst, Hr. auto.
  - injection H as <- <- <-. right. auto.
Qed.

Lemma step_remaining_captures (is_word : Codepoint -> bool) (program : CompiledRegex.t)
  (data : list byte) :
  forall fuel i found vm ret found' vm',
    step_remaining is_word program data false fuel i found vm
      = Ok (ret, found', vm') ->
    ret = Some true \/
    (ret = None /\ found' = found /\ m_captures vm' = m_captures vm).
Proof.
  induction fuel as [| fuel IH]; intros i found vm ret found' vm' H; [discriminate |].
  simpl in H.
  destruct (i <? List.length (m_threads vm))%nat.
  - bind_inv H. destruct r as [res vm1].
    apply step_captures in Hr.
    destruct res.
    + destruct (IH _ _ _ _ _ _ H) as [Ht | [Hn [Hf Hc]]]; [left; exact Ht |].
      right. rewrite Hc, Hr. auto.
    + cbn [negb] in H. injection H as <- _ _. left. reflexivity.
    + destruct (IH _ _ _ _ _ _ H) as [Ht | [Hn [Hf Hc]]]; [left; exact Ht |].
      right. rewrite Hc, Hr. auto.
  - injection H as <- <- <-. right. auto.
Qed.

Lemma exec_loop_captures (is_word : Codepoint -> bool) (program : CompiledRegex.t)
  (data : list byte) (match_ : bool) :
  forall fuel vm vm',
    exec_loop is_word program data match_ false fuel false vm = Ok (false, vm') ->
    m_captures vm' = m_captures vm.
Proof.
  induction fuel as [| fuel IH]; intros vm vm' H; [discriminate |].
  simpl in H.
  destruct (negb (m_pos vm =? m_end data)).
  - bind_inv H. destruct r as [[ret found1] vm1].
    unfold exec_round in Hr. bind_inv Hr. destruct r as [[ret0 found0] vm0].
    apply step_threads_captures in Hr0.
    destruct Hr0 as [-> | [-> [-> Hc]]].
    + injection Hr as <- _ <-. discriminate.
    + cbn [set_threads m_threads] in Hr.
      destruct (filter (fun t => negb (is_dead t)) (m_threads vm0)).
      * injection Hr as <- _ <-. injection H as <-. exact Hc.
      * injection Hr as <- <- <-. rewrite (IH _ _ H). exact Hc.
  - bind_inv H. destruct r as [[ret found1] vm1].
    apply step_remaining_captures in Hr.
    destruct Hr as [-> | [-> [-> Hc]]].
    + discriminate.
    + injection H as <-. exact Hc.
Qed.

(** Without [longest], a run of [exec] that returns false leaves
    [m_captures] as it was before the call. *)
Lemma exec_false_keeps_captures (is_word : Codepoint -> bool)
  (program : CompiledRegex.t) (data : list byte) (match_ : bool) :
  forall fuel vm vm',
    exec is_word program data match_ false fuel vm = Ok (false, vm') ->
    m_captures vm' = m_captures vm.
Proof.
  intros fuel vm vm' H. unfold exec in H.
  apply exec_loop_captures in H. exact H.
Qed.

(** C9: with [longest] set, [exec] can return false after it has moved the
    saves of a matching thread into [m_captures].  The pattern a, searched
    for in "xa", matches with the saves 1 and 2; searched for next in "ab" on
    the same VM, the match at 0 empties the thread list, [exec] returns false
    at [m_threads.empty()], and [m_captures] holds 0 and 1. *)
Theorem C9_false_with_new_captures : forall is_word : Codepoint -> bool,
  exists program vm1 vm2,
    (forall fuel, compile (64 + fuel) (bytes_of_string "a") = Ok program) /\
    (forall fuel,
        exec is_word program (bytes_of_string "xa") false true (256 + fuel) fresh
          = Ok (true, vm1)) /\
    m_captures vm1 = [Some 1; Some 2] /\
    (forall fuel,
        exec is_word program (bytes_of_string "ab") false true (256 + fuel) vm1
          = Ok (false, vm2)) /\
    m_captures vm2 = [Some 0; Some 1] /\
    m_captures vm2 <> m_captures vm1.
Proof.
  intro is_word.
  do 3 eexists.
  split; [run_compile 64%nat |].
  split; [run_exec 256%nat |].
  split; [run |].
  split; [run_exec 256%nat |].
  split; [run |].
  vm_compute. discriminate.
Qed.

(** ** The match [exec] selects without [longest] *)

Section FirstMatch.

Variable is_word : Codepoint -> bool.
Variable program : CompiledRegex.t.
Variable data : list byte.

(** Without [longest] the flag [found_match] is still false at every head
    of the loop over the subject. *)
Lemma loop_head_found (match_ : bool) (vm0 : VM) (found : bool) (vm : VM) :
  loop_head is_word program data match_ false vm0 found vm -> found = false.
Proof.
  induction 1 as [| fuel found found' vm vm' Hhead IH Hpos Hround]; [reflexivity |].
  unfold exec_round in Hround. bind_inv Hround. destruct r as [[ret f1] vm1].
  destruct (step_threads_captures _ _ _ _ _ _ _ _ _ _ _ Hr) as [-> | [-> [-> _]]];
    [discriminate |].
  cbn [set_threads m_threads] in Hround.
  destruct (filter (fun t => negb (is_dead t)) (m_threads vm1)); [discriminate |].
  injection Hround as <- _. exact IH.
Qed.

(** A loop over the threads that returns has met a first thread that
    matched, and leaves what [exec] makes of it. *)
Lemma step_threads_first (match_ : bool) :
  forall fuel i found vm b found' vm',
    step_threads is_word program data match_ false fuel i found vm
      = Ok (Some b, found', vm') ->
    match_ = false /\ b = true /\
    exists k vm1,
      first_match is_word program data true i vm k vm1 /\ vm' = matched_at vm1 k.
Proof.
  induction fuel as [| fuel IH]; intros i found vm b found' vm' H; [discriminate |].
  simpl in H.
  destruct (i <? List.length (m_threads vm))%nat eqn:Hi; [| discriminate].
  apply Nat.ltb_lt in Hi.
  bind_inv H. destruct r as [res vm1].
  destruct res; [| destruct match_ |].
  - destruct (IH _ _ _ _ _ _ H) as [Hm [Hb [k [vm2 [Hfirst Hvm]]]]].
    split; [exact Hm |]. split; [exact Hb |]. exists k, vm2.
    split; [| exact Hvm].
    exact (first_match_consumed _ _ _ _ fuel i k vm vm1 vm2 Hi Hr Hfirst).
  - destruct (IH _ _ _ _ _ _ H) as [Hm _]. discriminate.
  - cbn [negb] in H. injection H as <- _ <-.
    split; [reflexivity |]. split; [reflexivity |]. exists i, vm1.
    split; [| reflexivity].
    exact (first_match_here _ _ _ _ fuel i vm vm1 Hi Hr).
  - destruct (IH _ _ _ _ _ _ H) as [Hm [Hb [k [vm2 [Hfirst Hvm]]]]].
    split; [exact Hm |]. split; [exact Hb |]. exists k, vm2.
    split; [| exact Hvm].
    exact (first_match_failed _ _ _ _ fuel i k vm vm1 vm2 Hi Hr Hfirst).
Qed.

Lemma step_remaining_first :
  forall fuel i found vm b found' vm',
    step_remaining is_word program data false fuel i found vm
      = Ok (Some b, found', vm') ->
    b = true /\
    exists k vm1,
      first_match is_word program data false i vm k vm1 /\ vm' = matched_at vm1 k.
Proof.
  induction fuel as [| fuel IH]; intros i found vm b found' vm' H; [discriminate |].
  simpl in H.
  destruct (i <? List.length (m_threads vm))%nat eqn:Hi; [| discriminate].
  apply Nat.ltb_lt in Hi.
  bind_inv H. destruct r as [res vm1].
  destruct res.
  - destruct (IH _ _ _ _ _ _ H) as [Hb [k [vm2 [Hfirst Hvm]]]].
    split; [exact Hb |]. exists k, vm2. split; [| exact Hvm].
    exact (first_match_consumed _ _ _ _ fuel i k vm vm1 vm2 Hi Hr Hfirst).
  - cbn [negb] in H. injection H as <- _ <-.
    split; [reflexivity |]. exists i, vm1. split; [| reflexivity].
    exact (first_match_here _ _ _ _ fuel i vm vm1 Hi Hr).
  - destruct (IH _ _ _ _ _ _ H) as [Hb [k [vm2 [Hfirst Hvm]]]].
    split; [exact Hb |]. exists k, vm2. split; [| exact Hvm].
    exact (first_match_failed _ _ _ _ fuel i k vm vm1 vm2 Hi Hr Hfirst).
Qed.

(** The first thread that matches makes the loop return, with enough fuel. *)
Lemma first_match_step_threads :
  forall i vm k vm1,
    first_match is_word program data true i vm k vm1 ->
    exists fuel, forall found,
      step_threads is_word program data false false fuel i found vm
        = Ok (Some true, true, matched_at vm1 k).
Proof.
  induction 1 as [fuel i vm vm' Hi Hstep
                 | fuel i k vm vm1 vm' Hi Hstep Hfirst [f1 IH]
                 | fuel i k vm vm1 vm' Hi Hstep Hfirst [f1 IH]].
  - exists (S fuel). intro found. simpl.
    apply Nat.ltb_lt in Hi. rewrite Hi, Hstep. reflexivity.
  - exists (S (Nat.max fuel f1)). intro found. simpl.
    apply Nat.ltb_lt in Hi. rewrite Hi.
    rewrite (step_fuel_monotone is_word program data fuel _ vm i _
               (Nat.le_max_l fuel f1) Hstep).
    cbn [bind].
    apply (step_threads_fuel_monotone is_word program data false false f1 _ _ _ _ _
             (Nat.le_max_r fuel f1) (IH found)).
  - exists (S (Nat.max fuel f1)). intro found. simpl.
    apply Nat.ltb_lt in Hi. rewrite Hi.
    rewrite (step_fuel_monotone is_word program data fuel _ vm i _
               (Nat.le_max_l fuel f1) Hstep).
    cbn [bind].
    apply (step_threads_fuel_monotone is_word program data false false f1 _ _ _ _ _
             (Nat.le_max_r fuel f1) (IH found)).
Qed.

Lemma first_match_step_remaining :
  forall i vm k vm1,
    first_match is_word program data false i vm k vm1 ->
    exists fuel, forall found,
      step_remaining is_word program data false fuel i found vm
        = Ok (Some true, true, matched_at vm1 k).
Proof.
  induction 1 as [fuel i vm vm' Hi Hstep
                 | fuel i k vm vm1 vm' Hi Hstep Hfirst [f1 IH]
                 | fuel i k vm vm1 vm' Hi Hstep Hfirst [f1 IH]].
  - exists (S fuel). intro found. simpl.
    apply Nat.ltb_lt in Hi. rewrite Hi, Hstep. reflexivity.
  - exists (S (Nat.max fuel f1)). intro found. simpl.
    apply Nat.ltb_lt in Hi. rewrite Hi.
    rewrite (step_fuel_monotone is_word program data fuel _ vm i _
               (Nat.le_max_l fuel f1) Hstep).
    cbn [bind].
    apply (step_remaining_fuel_monotone is_word program data false f1 _ _ _ _ _
             (Nat.le_max_r fuel f1) (IH found)).
  - exists (S (Nat.max fuel f1)). intro found. simpl.
    apply Nat.ltb_lt in Hi. rewrite Hi.
    rewrite (step_fuel_monotone is_word program data fuel _ vm i _
               (Nat.le_max_l fuel f1) Hstep).
    cbn [bind].
    apply (step_remaining_fuel_monotone is_word program data false f1 _ _ _ _ _
             (Nat.le_max_r fuel f1) (IH found)).
Qed.

(** What the loop returns from one of its heads, [exec] returns. *)
Lemma loop_head_exec (match_ longest : bool) (vm0 : VM) (found : bool) (vm : VM)
  (r : bool * VM) :
  loop_head is_word program data match_ longest vm0 found vm ->
  (exists fuel, exec_loop is_word program data match_ longest fuel found vm = Ok r) ->
  exists fuel, exec is_word program data match_ longest fuel vm0 = Ok r.
Proof.
  induction 1 as [| fuel found found' vm vm' Hhead IH Hpos Hround];
    intros [f Hrun]; [exists f; exact Hrun |].
  apply IH. exists (S (Nat.max fuel f)). simpl.
  apply Z.eqb_neq in Hpos. rewrite Hpos. cbn [negb].
  rewrite (exec_round_fuel_monotone is_word program data match_ longest fuel _ _ _ _
             (Nat.le_max_l fuel f) Hround).
  cbn [bind].
  apply (exec_loop_fuel_monotone is_word program data match_ longest f _ _ _ _
           (Nat.le_max_r fuel f) Hrun).
Qed.

(** A run of the loops that returns true has met, at one of the heads of
    the loop, a first thread that matched. *)
Lemma exec_loop_first (match_ : bool) (vm0 : VM) :
  forall fuel found vm vm',
    loop_head is_word program data match_ false vm0 found vm ->
    exec_loop is_word program data match_ false fuel found vm = Ok (true, vm') ->
    exists vmh k vm1,
      loop_head is_word program data match_ false vm0 false vmh /\
      (match_ = true -> m_pos vmh = m_end data) /\
      first_match is_word program data (negb (m_pos vmh =? m_end data)) 0 vmh k vm1 /\
      vm' = matched_at vm1 k.
Proof.
  induction fuel as [| fuel IH]; intros found vm vm' Hhead H; [discriminate |].
  pose proof (loop_head_found _ _ _ _ Hhead) as Hfound. subst found.
  simpl in H.
  destruct (m_pos vm =? m_end data) eqn:Hend; cbn [negb] in H.
  - bind_inv H. destruct r as [[ret f1] vm1].
    destruct ret as [b |].
    + injection H as -> <-.
      destruct (step_remaining_first _ _ _ _ _ _ _ Hr) as [_ [k [vm2 [Hfirst Hvm]]]].
      exists vm, k, vm2. split; [exact Hhead |].
      split; [intros _; apply Z.eqb_eq; exact Hend |].
      rewrite Hend. cbn [negb]. split; [exact Hfirst | exact Hvm].
    + destruct (step_remaining_captures _ _ _ _ _ _ _ _ _ _ Hr)
        as [Hs | [_ [-> _]]]; [discriminate |].
      injection H as H _. discriminate.
  - bind_inv H. destruct r as [[ret f1] vm1].
    destruct ret as [b |].
    + injection H as -> <-.
      unfold exec_round in Hr. bind_inv Hr. destruct r as [[ret0 f0] vm2].
      destruct ret0 as [b |].
      * cbv beta iota in Hr. injection Hr as -> _ <-.
        destruct (step_threads_first _ _ _ _ _ _ _ _ Hr0)
          as [Hm [_ [k [vm3 [Hfirst Hvm]]]]].
        exists vm, k, vm3. split; [exact Hhead |].
        split; [intro Ht; rewrite Ht in Hm; discriminate |].
        rewrite Hend. cbn [negb]. subst match_. split; [exact Hfirst | exact Hvm].
      * cbn [set_threads m_threads] in Hr.
        destruct (filter (fun t => negb (is_dead t)) (m_threads vm2));
          injection Hr as Hr _ _; discriminate.
    + apply (IH f1 vm1 vm'); [| exact H].
      apply head_round with (fuel := fuel) (found_match := false) (vm := vm).
      * exact Hhead.
      * apply Z.eqb_neq. exact Hend.
      * exact Hr.
Qed.

End FirstMatch.

(** C4: without [longest], the match [exec] selects is that of the first
    thread to reach Match.  [exec] returns true exactly when, at one of the
    heads of its loop over the subject (the cursor going from the begin of
    the subject to its end, no earlier round having returned), the threads
    stepped in list order meet a first thread whose [step] ends in Matched;
    with [match] set this is at the end of the subject.  What [exec] leaves
    is then [matched_at]: the saves of that thread are the captures, the
    thread and those after it are removed, and the threads before it, of
    higher priority, are abandoned as they are. *)
Theorem C4_first_thread_to_match :
  forall (is_word : Codepoint -> bool) (program : CompiledRegex.t) (data : list byte)
         (match_ : bool) (vm0 vm' : VM),
    (exists fuel, exec is_word program data match_ false fuel vm0 = Ok (true, vm')) <->
    (exists vm k vm1,
        loop_head is_word program data match_ false vm0 false vm /\
        (match_ = true -> m_pos vm = m_end data) /\
        first_match is_word program data (negb (m_pos vm =? m_end data)) 0 vm k vm1 /\
        vm' = matched_at vm1 k).
Proof.
  intros is_word program data match_ vm0 vm'. split.
  - intros [fuel H]. unfold exec in H.
    apply (exec_loop_first is_word program data match_ vm0 fuel false
             (exec_seed program match_ vm0) vm');
      [apply head_seed | exact H].
  - intros [vm [k [vm1 [Hhead [Hanchored [Hfirst ->]]]]]].
    apply (loop_head_exec is_word program data match_ false vm0 false vm _ Hhead).
    destruct (m_pos vm =? m_end data) eqn:Hend; cbn [negb] in Hfirst.
    + destruct (first_match_step_remaining _ _ _ _ _ _ _ Hfirst) as [f Hrun].
      exists (S f). simpl. rewrite Hend. cbn [negb]. rewrite (Hrun false). reflexivity.
    + assert (Hm : match_ = false).
      { destruct match_; [| reflexivity].
        apply Z.eqb_neq in Hend. elim Hend. apply Hanchored. reflexivity. }
      subst match_.
      destruct (first_match_step_threads _ _ _ _ _ _ _ Hfirst) as [f Hrun].
      exists (S f). simpl. rewrite Hend. cbn [negb].
      unfold exec_round. rewrite (Hrun false). reflexivity.
Qed.

(** The match selected is neither the leftmost one nor, among the matches of
    one start, that of the earlier alternative or of the greedy branch.  The
    pattern abc|b matches the whole of "abc", and searched for in "abc" the
    saves of group 0 are 1 and 2, the "b" in the middle: the thread of the
    first alternative, which started at 0, has consumed the c and is
    abandoned at offset 24.  The pattern ab|a matches the whole of "ab", and
    searched for in "ab" the saves are 0 and 1, the second alternative; the
    pattern a* matches the whole of "aa", and searched for in "aa" the saves
    are 0 and 0, no repetition at all. *)
Lemma C4_first_thread_to_match_counterexample :
  exists p1 p2 p3 vm1 vm1' vm2 vm2' vm3 vm3',
    (forall fuel, compile (64 + fuel) (bytes_of_string "abc|b") = Ok p1) /\
    (forall fuel,
        exec ascii_is_word p1 (bytes_of_string "abc") true false (256 + fuel) fresh
          = Ok (true, vm1)) /\
    m_captures vm1 = [Some 0; Some 3] /\
    (forall fuel,
        exec ascii_is_word p1 (bytes_of_string "abc") false false (256 + fuel) fresh
          = Ok (true, vm1')) /\
    m_captures vm1' = [Some 1; Some 2] /\
    live_insts (m_threads vm1') = [24] /\
    (forall fuel, compile (64 + fuel) (bytes_of_string "ab|a") = Ok p2) /\
    (forall fuel,
        exec ascii_is_word p2 (bytes_of_string "ab") true false (256 + fuel) fresh
          = Ok (true, vm2)) /\
    m_captures vm2 = [Some 0; Some 2] /\
    (forall fuel,
        exec ascii_is_word p2 (bytes_of_string "ab") false false (256 + fuel) fresh
          = Ok (true, vm2')) /\
    m_captures vm2' = [Some 0; Some 1] /\
    (forall fuel, compile (64 + fuel) (bytes_of_string "a*") = Ok p3) /\
    (forall fuel,
        exec ascii_is_word p3 (bytes_of_string "aa") true false (256 + fuel) fresh
          = Ok (true, vm3)) /\
    m_captures vm3 = [Some 0; Some 2] /\
    (forall fuel,
        exec ascii_is_word p3 (bytes_of_string "aa") false false (256 + fuel) fresh
          = Ok (true, vm3')) /\
    m_captures vm3' = [Some 0; Some 0].
Proof.
  do 9 eexists.
  split; [run_compile 64%nat |].
  split; [run_exec 256%nat |].
  split; [run |].
  split; [run_exec 256%nat |].
  split; [run |].
  split; [run |].
  split; [run_compile 64%nat |].
  split; [run_exec 256%nat |].
  split; [run |].
  split; [run_exec 256%nat |].
  split; [run |].
  split; [run_compile 64%nat |].
  split; [run_exec 256%nat |].
  split; [run |].
  split; [run_exec 256%nat | run].
Qed.

(** The same search with the Jump of the first alternative dropped because
    the second alternative already waits at its target: ab|b in "ab" reports
    the saves 1 and 2. *)
Lemma jump_collapse_drops_the_first_alternative : forall is_word : Codepoint -> bool,
  exists program vm,
    (forall fuel, compile (64 + fuel) (bytes_of_string "ab|b") = Ok program) /\
    (forall fuel,
        exec is_word program (bytes_of_string "ab") false false (256 + fuel) fresh
          = Ok (true, vm)) /\
    m_captures vm = [Some 1; Some 2].
Proof.
  intro is_word.
  do 2 eexists.
  split; [run_compile 64%nat |].
  split; [run_exec 256%nat | run].
Qed.

(** Read at [end], the iterator of the parser throws. *)
Lemma deref_at_end (re : list byte) :
  Parser.deref re (Parser.end_ re) = Throw InvalidUtf8.
Proof.
  unfold Parser.deref, Parser.end_, utf8.read_codepoint, at_index, size.
  destruct (Z.of_nat (List.length re) <? 0) eqn:Hneg; [reflexivity |].
  rewrite Nat2Z.id.
  replace (nth_error re (List.length re)) with (@None byte); [reflexivity |].
  symmetry. apply nth_error_None. apply Nat.le_refl.
Qed.

(** A pattern whose last character is the opening brace of a quantifier:
    [read_int] stops at [end] and [*it == ','] is evaluated there. *)
Lemma quantifier_brace_at_end (re : list byte) (pos : Z) (fuel : nat) :
  Parser.deref re pos = Ok (chr "{") ->
  Parser.plus re pos 1 = Parser.end_ re ->
  Parser.quantifier re (S fuel) pos = Throw InvalidUtf8.
Proof.
  intros Hbrace Hlast. unfold Parser.quantifier.
  destruct (pos =? Parser.end_ re) eqn:Hend.
  { apply Z.eqb_eq in Hend. rewrite Hend, deref_at_end in Hbrace. discriminate. }
  rewrite Hbrace. cbn [bind].
  change (chr "{" =? chr "*") with false.
  change (chr "{" =? chr "+") with false.
  change (chr "{" =? chr "?") with false.
  change (chr "{" =? chr "{") with true.
  cbv iota. rewrite Hlast. cbn [Parser.read_int].
  rewrite Z.eqb_refl. cbn [bind].
  rewrite deref_at_end. reflexivity.
Qed.

(** C7: a pattern that ends inside a brace quantifier is refused with the
    message of malformed UTF-8, not with that of the missing brace.
    [quantifier] evaluates [*it == ','] and [*it++ != '}'] without testing
    [it == end]: on "a{", "a{3" and "a{3," the iterator is read at [end],
    where it throws "Invalid utf8 in regex", with any fuel that lets the
    parser reach the brace, and so does every pattern whose last character
    is the opening brace of a quantifier; "expected closing bracket" is
    thrown only when a codepoint other than the closing brace stands there,
    as in "a{3x". *)
Theorem C7_unclosed_brace_is_invalid_utf8 :
  (forall fuel, Parser.parse (bytes_of_string "a{") (8 + fuel) = Throw InvalidUtf8) /\
  (forall fuel, Parser.parse (bytes_of_string "a{3") (8 + fuel) = Throw InvalidUtf8) /\
  (forall fuel, Parser.parse (bytes_of_string "a{3,") (8 + fuel) = Throw InvalidUtf8) /\
  (forall fuel, Parser.parse (bytes_of_string "a{3,4") (8 + fuel) = Throw InvalidUtf8) /\
  (forall fuel,
      Parser.parse (bytes_of_string "a{3x") (8 + fuel) = Throw ExpectedClosingBrace) /\
  (forall (re : list byte) (pos : Z) (fuel : nat),
      Parser.deref re pos = Ok (chr "{") ->
      Parser.plus re pos 1 = Parser.end_ re ->
      Parser.quantifier re (S fuel) pos = Throw InvalidUtf8).
Proof.
  split; [| split; [| split; [| split; [| split]]]];
    try (intro fuel; reflexivity).
  intros re pos fuel. apply quantifier_brace_at_end.
Qed.

(** The sibling functions test [pos == end] before they dereference: a
    pattern that ends inside a group or inside a class is refused with the
    error of its kind. *)
Lemma unclosed_group_and_class_are_guarded :
  (forall fuel, Parser.parse (bytes_of_string "(a") (8 + fuel) = Throw UnclosedParen) /\
  (forall fuel, Parser.parse (bytes_of_string "[a") (8 + fuel) = Throw UnclosedClass) /\
  (forall fuel, Parser.parse (bytes_of_string "[a-") (8 + fuel) = Throw UnclosedClass).
Proof.
  split; [| split]; intro fuel; reflexivity.
Qed.

(** A head of the loop computed by [loop_head_after] is one of [loop_head]. *)
Lemma loop_head_after_sound :
  forall is_word program data match_ longest fuel vm0 n found_match vm found_match' vm',
    loop_head is_word program data match_ longest vm0 found_match vm ->
    loop_head_after is_word program data match_ longest fuel n found_match vm
      = Ok (Some (found_match', vm')) ->
    loop_head is_word program data match_ longest vm0 found_match' vm'.
Proof.
  intros is_word program data match_ longest fuel vm0 n.
  induction n as [| n IH]; intros found_match vm found_match' vm' Hhead Hrun.
  - simpl in Hrun. injection Hrun as <- <-. exact Hhead.
  - simpl in Hrun.
    destruct (m_pos vm =? m_end data)%Z eqn:Hend; [discriminate |].
    destruct (exec_round is_word program data match_ longest fuel found_match vm)
      as [[[ret f1] vm1] | | |] eqn:Hround; simpl in Hrun; try discriminate.
    destruct ret as [b |]; [discriminate |].
    apply (IH f1 vm1); [| exact Hrun].
    apply head_round with (fuel := fuel) (found_match := found_match) (vm := vm).
    + exact Hhead.
    + apply Z.eqb_neq. exact Hend.
    + exact Hround.
Qed.

(** C3: two live threads with one instruction pointer.  The pattern a*a*
    executed anchored on "aa" is, after two rounds, at the head of the loop
    with three live threads, two of them at offset 32; on forty-one a the
    loop is at its head with more live threads than the program has bytes. *)
Theorem C3_live_threads_share_inst : forall is_word : Codepoint -> bool,
  exists program vm vm',
    (forall fuel, compile (64 + fuel) (bytes_of_string "a*a*") = Ok program) /\
    loop_head is_word program (bytes_of_string "aa") true false fresh false vm /\
    live_insts (m_threads vm) = [20; 32; 32] /\
    ~ NoDup (live_insts (m_threads vm)) /\
    loop_head is_word program (repeat (chr "a") 41) true false fresh false vm' /\
    (List.length (CompiledRegex.bytecode program)
       < List.length (live_insts (m_threads vm')))%nat.
Proof.
  intro is_word.
  do 3 eexists.
  split; [run_compile 64%nat |].
  split.
  { eapply loop_head_after_sound with (fuel := 64%nat) (n := 2%nat);
      [apply head_seed | run]. }
  split; [run |].
  split.
  { vm_compute. intro H.
    apply NoDup_cons_iff in H. destruct H as [_ H].
    apply NoDup_cons_iff in H. destruct H as [H _].
    apply H. left. reflexivity. }
  split.
  { eapply loop_head_after_sound with (fuel := 256%nat) (n := 41%nat);
      [apply head_seed | run]. }
  vm_compute. lia.
Qed.

(** ** What the duplicate checks do keep *)

Lemma live_insts_app (a b : list Thread) :
  live_insts (a ++ b) = live_insts a ++ live_insts b.
Proof. unfold live_insts. apply flat_map_app. Qed.

Lemma has_thread_at_live (threads : list Thread) (pos : Z) :
  has_thread_at threads (Some pos) = false -> ~ In pos (live_insts threads).
Proof.
  induction threads as [| t ts IH]; intros H Hin; [exact Hin |].
  simpl in H. apply orb_false_iff in H. destruct H as [Ht Hts].
  unfold live_insts in Hin. simpl in Hin. apply in_app_or in Hin.
  destruct Hin as [Hin | Hin].
  - destruct (inst t) as [x |]; simpl in Hin; [| exact Hin].
    destruct Hin as [-> | []]. simpl in Ht. rewrite Z.eqb_refl in Ht. discriminate.
  - apply (IH Hts Hin).
Qed.

(** [add_thread] keeps the instruction pointers of the live threads distinct:
    it adds nothing where a thread of the list already is. *)
Lemma add_thread_keeps_distinct (threads : list Thread) (index : nat) (pos : Offset)
  (svs : list (option Z)) :
  NoDup (live_insts threads) ->
  NoDup (live_insts (add_thread threads index pos svs)).
Proof.
  intro Hnd. unfold add_thread.
  destruct (has_thread_at threads (Some pos)) eqn:Hat; [exact Hnd |].
  apply has_thread_at_live in Hat.
  rewrite <- (firstn_skipn index threads) in Hnd, Hat.
  rewrite live_insts_app in Hnd, Hat |- *.
  change (live_insts (mkThread (Some pos) svs :: skipn index threads))
    with (pos :: live_insts (skipn index threads)).
  apply (Permutation_NoDup (Permutation_middle _ _ pos)).
  constructor; assumption.
Qed.

(** A Jump that goes on has found no thread at its target. *)
Lemma step_instruction_Jump (is_word : Codepoint -> bool) (program : CompiledRegex.t)
  (data : list byte) (vm vm' : VM) (i : nat) (thread : Thread) (pc : Z) :
  nth_error (m_threads vm) i = Some thread ->
  inst thread = Some pc ->
  at_index (CompiledRegex.bytecode program) pc
    = Some (CompiledRegex.code CompiledRegex.Jump) ->
  step_instruction is_word program data vm i = Ok (Continue vm') ->
  exists target,
    read_offset (CompiledRegex.bytecode program) (pc + 1) = Ok target /\
    has_thread_at (m_threads (set_inst vm i (Some (pc + 1)))) (Some target) = false /\
    vm' = set_inst (set_inst vm i (Some (pc + 1))) i (Some target).
Proof.
  intros Hth Hinst Hop H.
  unfold step_instruction in H. rewrite Hth, Hinst, Hop in H.
  cbn [CompiledRegex.decode CompiledRegex.code] in H.
  bind_inv H. exists r. split; [exact Hr |].
  destruct (has_thread_at (m_threads (set_inst vm i (Some (pc + 1)))) (Some r));
    [discriminate |].
  injection H as <-. split; reflexivity.
Qed.

(** ** The writer only appends *)

Lemma size_app (a b : list byte) : size (a ++ b) = (size a + size b)%Z.
Proof. unfold size. rewrite length_app. lia. Qed.

Lemma size_nonneg (a : list byte) : (0 <= size a)%Z.
Proof. unfold size. lia. Qed.

Lemma extends_refl (a : list byte) : extends a a.
Proof. split; [lia | intros _; apply firstn_all]. Qed.

Lemma extends_trans (a b c : list byte) : extends a b -> extends b c -> extends a c.
Proof.
  intros [Hab Hab'] [Hbc Hbc']. split; [lia |].
  intro Hc.
  assert (Hb : (size b < two32)%Z) by (unfold size in *; lia).
  transitivity (firstn (List.length a) (firstn (List.length b) c)).
  - rewrite firstn_firstn. f_equal. lia.
  - rewrite (Hbc' Hc). apply Hab'. exact Hb.
Qed.

Lemma extends_app (a x : list byte) : extends a (a ++ x).
Proof.
  split; [rewrite length_app; lia |].
  intros _. rewrite firstn_app, firstn_all, Nat.sub_diag. simpl. apply app_nil_r.
Qed.

Lemma extends_app_trans (a b x : list byte) : extends a b -> extends a (b ++ x).
Proof. intro H. apply (extends_trans a b); [exact H | apply extends_app]. Qed.

Lemma extends_length (a b : list byte) : extends a b -> (size a <= size b)%Z.
Proof. intros [H _]. unfold size. lia. Qed.

Lemma pending_mono (a b c : list byte) (o : Offset) :
  pending a b o -> (size b <= size c)%Z -> pending a c o.
Proof. intros [n [Ho [Ha Hb]]] Hbc. exists n. repeat split; [exact Ho | lia | lia]. Qed.

Lemma pending_alloc (a b : list byte) :
  extends a b -> pending a (fst (alloc_offset b)) (snd (alloc_offset b)).
Proof.
  intro H. apply extends_length in H.
  exists (size b). unfold alloc_offset. simpl.
  rewrite size_app. unfold CompiledRegex.sizeof_Offset.
  change (size [0; 0; 0; 0]%Z) with 4%Z.
  split; [reflexivity | lia].
Qed.

Lemma set_offset_length (b b' : list byte) (o : Offset) (v : Z) :
  set_offset b o v = Ok b' -> List.length b' = List.length b.
Proof.
  unfold set_offset.
  destruct ((0 <=? o)%Z && (o + sizeof_Offset <=? size b)%Z) eqn:Hr; [| discriminate].
  apply andb_true_iff in Hr. destruct Hr as [H0 H1].
  apply Z.leb_le in H0. apply Z.leb_le in H1.
  unfold size, sizeof_Offset, CompiledRegex.sizeof_Offset in *.
  intro H. injection H as <-.
  rewrite !length_app, length_firstn. simpl. rewrite length_skipn. lia.
Qed.

Lemma set_offset_extends (a b b' : list byte) (o : Offset) (v : Z) :
  extends a b -> pending a b o -> set_offset b o v = Ok b' -> extends a b'.
Proof.
  intros [Hlen Hpre] [n [Ho [Han Hnb]]] Hset.
  pose proof (set_offset_length _ _ _ _ Hset) as Hl.
  split; [lia |].
  intro Hb'.
  assert (Hb : (size b < two32)%Z) by (unfold size in *; lia).
  assert (Hn : o = n).
  { rewrite Ho. unfold CompiledRegex.to_offset.
    apply Z.mod_small. pose proof (size_nonneg a).
    unfold CompiledRegex.sizeof_Offset in Hnb. lia. }
  clear Ho. rewrite Hn in Hset. clear Hn o. unfold set_offset in Hset.
  destruct ((0 <=? n)%Z && (n + sizeof_Offset <=? size b)%Z); [| discriminate].
  injection Hset as <-.
  pose proof (size_nonneg a).
  unfold size, CompiledRegex.sizeof_Offset in *.
  rewrite firstn_app, length_firstn.
  replace (List.length a - Nat.min (Z.to_nat n) (List.length b))%nat with 0%nat by lia.
  simpl. rewrite app_nil_r, firstn_firstn.
  replace (Nat.min (List.length a) (Z.to_nat n)) with (List.length a) by lia.
  apply Hpre. exact Hb.
Qed.

Lemma set_offsets_extends (a : list byte) (os : list Offset) (v : Z) :
  forall b b', extends a b -> Forall (pending a b) os ->
               set_offsets b os v = Ok b' -> extends a b'.
Proof.
  induction os as [| o os IH]; intros b b' Hab Hpend Hset; simpl in Hset.
  - injection Hset as <-. exact Hab.
  - bind_inv Hset. inversion Hpend as [| o' os' Ho Hos]; subst.
    pose proof (set_offset_length _ _ _ _ Hr) as Hl.
    apply (IH r b').
    + apply (set_offset_extends a b r o v); assumption.
    + eapply Forall_impl; [| exact Hos].
      intros o' Ho'. apply (pending_mono a b r); [exact Ho' | unfold size; lia].
    + exact Hset.
Qed.

Lemma repeat_loop_invariant {S : Type} (I : S -> Prop) (body : S -> outcome S) :
  (forall s s', I s -> body s = Ok s' -> I s') ->
  forall n s s', I s -> repeat_loop n body s = Ok s' -> I s'.
Proof.
  intros Hbody n. induction n as [| n IH]; intros s s' Hs Hrun; simpl in Hrun.
  - injection Hrun as <-. exact Hs.
  - bind_inv Hrun. apply (IH r s'); [| exact Hrun].
    apply (Hbody s r); assumption.
Qed.

Lemma extends_alloc (a b ba : list byte) (opb : byte) (oa : Offset) :
  alloc_offset (b ++ [opb]) = (ba, oa) -> extends a b -> extends a ba.
Proof.
  unfold alloc_offset. intros Halloc H. injection Halloc as <- _.
  apply extends_app_trans. apply extends_app_trans. exact H.
Qed.

Lemma pending_after_op (a b ba x : list byte) (opb : byte) (oa : Offset) :
  alloc_offset (b ++ [opb]) = (ba, oa) ->
  extends a b -> extends ba x -> pending a x oa.
Proof.
  intros Halloc Hab Hx.
  apply (pending_mono a ba).
  - pose proof (pending_alloc a (b ++ [opb]) (extends_app_trans _ _ _ Hab)) as H.
    rewrite Halloc in H. exact H.
  - apply extends_length. exact Hx.
Qed.

Lemma Forall_pending_mono (a b c : list byte) (os : list Offset) :
  Forall (pending a b) os -> extends b c -> Forall (pending a c) os.
Proof.
  intros H Hbc. eapply Forall_impl; [| exact H].
  intros o Ho. apply (pending_mono a b c o Ho). apply extends_length. exact Hbc.
Qed.

Lemma set_offset_extends_self (b b' : list byte) (o : Offset) (v : Z) :
  set_offset b o v = Ok b' -> (size b <= size b')%Z.
Proof. intro H. apply set_offset_length in H. unfold size. lia. Qed.

(** [compile_node] extends the program when the writer of the node does. *)
Lemma compile_quantified_extends (q : Quantifier.t)
  (inner : list byte -> outcome (list byte * Offset)) :
  (forall b b' o, inner b = Ok (b', o) -> extends b b') ->
  forall bc bc' o, compile_quantified q inner bc = Ok (bc', o) -> extends bc bc'.
Proof.
  intros Hinner bc bc' o H. unfold compile_quantified in H.
  set (stage := if Quantifier.allows_none q
                then let '(bc0, o0) :=
                       alloc_offset (bc ++ [CompiledRegex.code CompiledRegex.Split_PrioritizeParent])
                     in (bc0, [o0])
                else (bc, [])) in H.
  assert (HA : extends bc (fst stage) /\ Forall (pending bc (fst stage)) (snd stage)).
  { unfold stage. destruct (Quantifier.allows_none q).
    - destruct (alloc_offset (bc ++ [CompiledRegex.code CompiledRegex.Split_PrioritizeParent]))
        as [ba oa] eqn:Halloc.
      simpl. split.
      + apply (extends_alloc _ _ _ _ _ Halloc), extends_refl.
      + constructor; [| constructor].
        apply (pending_after_op _ _ _ _ _ _ Halloc); apply extends_refl.
    - split; [apply extends_refl | constructor]. }
  destruct stage as [b1 offs1]. simpl in HA. destruct HA as [Hb1 Hoffs1].
  bind_inv H. destruct r as [b2 p2].
  pose proof (Hinner _ _ _ Hr) as Hb2.
  bind_inv H. destruct r as [b3 inner_pos].
  assert (Hb3 : extends b2 b3).
  { refine (repeat_loop_invariant (fun s => extends b2 (fst s)) _ _ _
                                    (b2, p2) (b3, inner_pos) _ Hr0).
    - intros s [x y] Hs Hbody.
      apply (extends_trans _ (fst s)); [exact Hs | apply (Hinner _ _ _ Hbody)].
    - apply extends_refl. }
  assert (Hbc3 : extends bc b3).
  { apply (extends_trans bc b1); [exact Hb1 |].
    apply (extends_trans b1 b2); assumption. }
  assert (Hoffs3 : Forall (pending bc b3) offs1).
  { apply (Forall_pending_mono bc b1); [exact Hoffs1 |].
    apply (extends_trans b1 b2); assumption. }
  bind_inv H. destruct r as [b4 offs4].
  assert (H4 : extends bc b4 /\ Forall (pending bc b4) offs4).
  { destruct (Quantifier.allows_infinite_repeat q).
    - destruct (alloc_offset (b3 ++ [CompiledRegex.code CompiledRegex.Split_PrioritizeChild]))
        as [ba oa] eqn:Halloc.
      bind_inv Hr1. injection Hr1 as <- <-.
      pose proof (extends_alloc _ _ _ _ _ Halloc Hbc3) as Hba.
      pose proof (pending_after_op _ _ _ _ _ _ Halloc Hbc3 (extends_refl ba)) as Hpa.
      split.
      + apply (set_offset_extends bc ba r oa inner_pos); assumption.
      + eapply Forall_impl; [| exact Hoffs3].
        intros o' Ho'. apply (pending_mono bc b3); [exact Ho' |].
        pose proof (extends_length _ _ (extends_alloc _ _ _ _ _ Halloc (extends_refl b3))).
        pose proof (set_offset_extends_self _ _ _ _ Hr2). lia.
    - refine (repeat_loop_invariant
                (fun s => extends bc (fst s) /\ Forall (pending bc (fst s)) (snd s))
                _ _ _ (b3, offs1) (b4, offs4) _ Hr1); [| split; assumption].
      intros [sb so] s' [Hsb Hso] Hbody. simpl in Hsb, Hso.
      cbn beta iota delta [fst snd] in Hbody.
      destruct (alloc_offset (sb ++ [CompiledRegex.code CompiledRegex.Split_PrioritizeParent]))
        as [ba oa] eqn:Halloc.
      bind_inv Hbody. destruct r as [bi pi]. injection Hbody as <-. simpl.
      pose proof (Hinner _ _ _ Hr2) as Hbi.
      pose proof (extends_alloc _ _ _ _ _ Halloc (extends_refl sb)) as Hba.
      split.
      + apply (extends_trans bc sb); [exact Hsb |].
        apply (extends_trans sb ba); assumption.
      + apply Forall_app. split.
        * apply (Forall_pending_mono bc sb); [exact Hso |].
          apply (extends_trans sb ba); assumption.
        * constructor; [| constructor].
          apply (pending_after_op _ _ _ _ _ _ Halloc Hsb Hbi). }
  destruct H4 as [Hb4 Hoffs4].
  bind_inv H. injection H as <- _.
  apply (set_offsets_extends bc offs4 (size b4) b4 r); assumption.
Qed.

(** Induction over the tree, with the property for all the children. *)
Lemma AstNode_ind (P : AstNode -> Prop) :
  (forall o v q cs, Forall P cs -> P (mkAstNode o v q cs)) ->
  forall node, P node.
Proof.
  intro H. fix IH 1. intros [o v q cs]. apply H.
  induction cs as [| c cs IHcs]; constructor; [apply IH | exact IHcs].
Qed.

Lemma push_codepoint_extends (a b b' : list byte) (cp : Codepoint) :
  extends a b -> push_codepoint b cp = Ok b' -> extends a b'.
Proof.
  intros Hab H. unfold push_codepoint in H. bind_inv H. injection H as <-.
  apply extends_app_trans. exact Hab.
Qed.

Lemma push_codepoints_extends (a : list byte) (cps : list Codepoint) :
  forall b b', extends a b -> push_codepoints b cps = Ok b' -> extends a b'.
Proof.
  induction cps as [| cp cps IH]; intros b b' Hab H; simpl in H.
  - injection H as <-. exact Hab.
  - bind_inv H. apply (IH r b'); [| exact H].
    apply (push_codepoint_extends a b r cp); assumption.
Qed.

Lemma compile_children_extends
  (f : AstNode -> list byte -> outcome (list byte * Offset)) (cs : list AstNode) :
  Forall (fun c => forall b b' o, f c b = Ok (b', o) -> extends b b') cs ->
  forall a b b', extends a b -> compile_children f cs b = Ok b' -> extends a b'.
Proof.
  induction 1 as [| c cs Hc Hcs IH]; intros a b b' Hab H; simpl in H.
  - injection H as <-. exact Hab.
  - bind_inv H. destruct r as [b1 p1].
    apply (IH a b1 b'); [| exact H].
    apply (extends_trans a b); [exact Hab | apply (Hc _ _ _ Hr)].
Qed.

Arguments compile_quantified : simpl never.
Arguments alloc_offset : simpl never.

(** [compile_node_inner] extends the program it is given. *)
Lemma compile_node_inner_extends (parsed_ranges : list (list CharRange_)) :
  forall node bc bc' o,
    compile_node_inner parsed_ranges node bc = Ok (bc', o) -> extends bc bc'.
Proof.
  induction node as [o v q cs IH] using AstNode_ind.
  intros bc bc' pos H.
  cbn [compile_node_inner op value quantifier children] in H.
  set (capture := match o with Alternation | Sequence => v | _ => minus_one end) in H.
  set (b0 := if negb (capture =? minus_one)%Z
             then bc ++ [CompiledRegex.code CompiledRegex.Save; to_char (capture * 2)]
             else bc) in H.
  assert (Hb0 : extends bc b0).
  { unfold b0. destruct (negb (capture =? minus_one)%Z);
      [apply extends_app | apply extends_refl]. }
  clearbody b0.
  bind_inv H. destruct r as [b1 offs].
  assert (H1 : extends bc b1 /\ Forall (pending bc b1) offs).
  { assert (Hchildren :
              Forall (fun c => forall b b' p,
                        compile_quantified (quantifier c)
                                           (compile_node_inner parsed_ranges c) b
                          = Ok (b', p) -> extends b b') cs).
    { eapply Forall_impl; [| exact IH].
      intros c Hc b b' p. apply compile_quantified_extends. exact Hc. }
    destruct o.
    - (* Literal *)
      bind_inv Hr. injection Hr as <- <-. split; [| constructor].
      apply (push_codepoint_extends bc _ _ _ (extends_app_trans _ _ _ Hb0) Hr0).
    - (* AnyChar *)
      injection Hr as <- <-. split; [apply extends_app_trans; exact Hb0 | constructor].
    - (* CharRange *)
      destruct (at_index parsed_ranges v) as [rs |]; [| discriminate].
      bind_inv Hr. bind_inv Hr. injection Hr as <- <-. split; [| constructor].
      apply (push_codepoints_extends bc _ _ _
               (push_codepoints_extends bc _ _ _ (extends_app_trans _ _ _ Hb0) Hr0) Hr1).
    - (* NegativeCharRange *)
      destruct (at_index parsed_ranges v) as [rs |]; [| discriminate].
      bind_inv Hr. bind_inv Hr. injection Hr as <- <-. split; [| constructor].
      apply (push_codepoints_extends bc _ _ _
               (push_codepoints_extends bc _ _ _ (extends_app_trans _ _ _ Hb0) Hr0) Hr1).
    - (* Sequence *)
      bind_inv Hr. injection Hr as <- <-. split; [| constructor].
      apply (compile_children_extends _ cs Hchildren bc b0 r Hb0 Hr0).
    - (* Alternation *)
      destruct cs as [| lhs [| rhs [| x cs]]]; try discriminate.
      inversion Hchildren as [| c1 l1 Hlhs Hrest]; subst.
      inversion Hrest as [| c2 l2 Hrhs _]; subst.
      destruct (alloc_offset (b0 ++ [CompiledRegex.code CompiledRegex.Split_PrioritizeParent]))
        as [ba oa] eqn:Halloc.
      bind_inv Hr. destruct r as [bl pl].
      destruct (alloc_offset (bl ++ [CompiledRegex.code CompiledRegex.Jump]))
        as [bj oj] eqn:Hjump.
      bind_inv Hr. destruct r as [br pr].
      bind_inv Hr. injection Hr as <- <-.
      pose proof (extends_alloc _ _ _ _ _ Halloc Hb0) as Hba.
      pose proof (Hlhs _ _ _ Hr0) as Hbl.
      pose proof (extends_trans _ _ _ Hba Hbl) as Hbcl.
      pose proof (extends_alloc _ _ _ _ _ Hjump Hbcl) as Hbj.
      pose proof (Hrhs _ _ _ Hr1) as Hbr.
      pose proof (extends_trans _ _ _ Hbj Hbr) as Hbcr.
      assert (Hpa : pending bc br oa).
      { apply (pending_after_op _ _ _ _ _ _ Halloc Hb0).
        apply (extends_trans ba bl); [exact Hbl |].
        apply (extends_trans bl bj); [| exact Hbr].
        apply (extends_alloc _ _ _ _ _ Hjump), extends_refl. }
      assert (Hpj : pending bc br oj).
      { apply (pending_after_op _ _ _ _ _ _ Hjump Hbcl Hbr). }
      split.
      + apply (set_offset_extends bc br r oa pr); assumption.
      + constructor; [| constructor].
        apply (pending_mono bc br); [exact Hpj |].
        apply (set_offset_extends_self _ _ _ _ Hr2).
    - injection Hr as <- <-. split; [apply extends_app_trans; exact Hb0 | constructor].
    - injection Hr as <- <-. split; [apply extends_app_trans; exact Hb0 | constructor].
    - injection Hr as <- <-. split; [apply extends_app_trans; exact Hb0 | constructor].
    - injection Hr as <- <-. split; [apply extends_app_trans; exact Hb0 | constructor].
    - injection Hr as <- <-. split; [apply extends_app_trans; exact Hb0 | constructor].
    - injection Hr as <- <-. split; [apply extends_app_trans; exact Hb0 | constructor]. }
  destruct H1 as [Hb1 Hoffs].
  bind_inv H. injection H as <- _.
  pose proof (set_offsets_extends bc offs (size b1) b1 r Hb1 Hoffs Hr0) as Hr1.
  destruct (negb (capture =? minus_one)%Z);
    [apply extends_app_trans; exact Hr1 | exact Hr1].
Qed.

Lemma compile_node_extends (parsed_ranges : list (list CharRange_)) :
  forall node bc bc' o,
    compile_node parsed_ranges node bc = Ok (bc', o) -> extends bc bc'.
Proof.
  intros node bc bc' o. unfold compile_node.
  apply compile_quantified_extends. apply compile_node_inner_extends.
Qed.

(** The writer of a capturing node brackets the code of the same node
    without its capture between the two Save instructions. *)
Lemma compile_node_inner_capture (parsed_ranges : list (list CharRange_)) :
  forall node bc bc' pos,
    (op node = Sequence \/ op node = Alternation) ->
    value node <> minus_one ->
    compile_node_inner parsed_ranges node bc = Ok (bc', pos) ->
    exists body p,
      compile_node_inner parsed_ranges (set_value node minus_one)
        (bc ++ [CompiledRegex.code CompiledRegex.Save; to_char (value node * 2)])
        = Ok (body, p) /\
      bc' = body ++ [CompiledRegex.code CompiledRegex.Save; to_char (value node * 2 + 1)].
Proof.
  intros [o v q cs] bc bc' pos Hop Hv H. simpl in Hop, Hv.
  assert (Hne : (v =? minus_one) = false) by (apply Z.eqb_neq; exact Hv).
  unfold set_value. cbn [op value quantifier children].
  destruct Hop as [-> | ->];
    cbn [compile_node_inner op value quantifier children] in H |- *;
    rewrite Hne in H; rewrite Z.eqb_refl;
    cbn [negb] in H |- *;
    bind_inv H; destruct r as [b1 offs]; bind_inv H; injection H as <- _;
    rewrite Hr; cbn [bind]; rewrite Hr0; cbn [bind];
    eexists; eexists; split; reflexivity.
Qed.

Lemma to_char_small (v : Z) : 0 <= v -> (to_char v = v <-> v < 256).
Proof.
  intro H0. unfold to_char. split.
  - intro H. pose proof (Z.mod_pos_bound v 256). lia.
  - intro H. apply Z.mod_small. lia.
Qed.

Lemma char_value_small (v : Z) : 0 <= v -> char_value (to_char v) = v -> v < 128.
Proof.
  intros H0. unfold char_value, to_char.
  pose proof (Z.mod_pos_bound v 256 ltac:(lia)) as Hb.
  destruct (v mod 256 <? 128) eqn:Hlt.
  - apply Z.ltb_lt in Hlt. intro H. lia.
  - intro H. lia.
Qed.

Lemma nth_error_update_at {A : Type} (l : list A) (i : nat) (x : A) :
  (i < List.length l)%nat -> nth_error (update_at l i x) i = Some x.
Proof.
  intro Hi. unfold update_at.
  rewrite nth_error_app2; rewrite length_firstn; [| lia].
  replace (i - Nat.min i (List.length l))%nat with 0%nat by lia.
  destruct (skipn i l) as [| y tl] eqn:Hs.
  - apply (f_equal (@List.length A)) in Hs. rewrite length_skipn in Hs. simpl in Hs. lia.
  - reflexivity.
Qed.

Lemma length_update_at {A : Type} (l : list A) (i : nat) (x : A) :
  List.length (update_at l i x) = List.length l.
Proof.
  unfold update_at. rewrite length_app, length_firstn.
  destruct (skipn i l) as [| y tl] eqn:Hs;
    apply (f_equal (@List.length A)) in Hs; rewrite length_skipn in Hs;
    simpl in *; lia.
Qed.

Lemma nth_error_set_inst (vm : VM) (i : nat) (t : Thread) (x : option Z) :
  nth_error (m_threads vm) i = Some t ->
  nth_error (m_threads (set_inst vm i x)) i = Some (mkThread x (saves t)).
Proof.
  intro H. unfold set_inst. rewrite H. cbn [set_threads m_threads].
  apply nth_error_update_at. apply nth_error_Some. rewrite H. discriminate.
Qed.

Lemma m_pos_set_inst (vm : VM) (i : nat) (x : option Z) :
  m_pos (set_inst vm i x) = m_pos vm.
Proof. unfold set_inst. destruct (nth_error (m_threads vm) i); reflexivity. Qed.

Lemma nth_error_set_save (vm : VM) (i : nat) (t : Thread) (k : nat) (p : Z) :
  nth_error (m_threads vm) i = Some t ->
  nth_error (m_threads (set_save vm i k p)) i
    = Some (mkThread (inst t) (update_at (saves t) k (Some p))).
Proof.
  intro H. unfold set_save. rewrite H. cbn [set_threads m_threads].
  apply nth_error_update_at. apply nth_error_Some. rewrite H. discriminate.
Qed.

Lemma update_at_twice {A : Type} (l : list A) (i : nat) (x y : A) :
  update_at (update_at l i x) i y = update_at l i y.
Proof.
  unfold update_at.
  destruct (skipn i l) as [| z tl] eqn:Hs.
  - rewrite app_nil_r.
    assert (Hlen : (List.length l <= i)%nat).
    { apply (f_equal (@List.length A)) in Hs. rewrite length_skipn in Hs.
      cbn [List.length] in Hs. lia. }
    rewrite (firstn_all2 l) by exact Hlen.
    rewrite (firstn_all2 l) by exact Hlen.
    rewrite (skipn_all2 l) by exact Hlen. rewrite app_nil_r. reflexivity.
  - assert (Hlen : List.length (firstn i l) = i).
    { rewrite length_firstn.
      apply (f_equal (@List.length A)) in Hs. rewrite length_skipn in Hs.
      cbn [List.length] in Hs. lia. }
    rewrite firstn_app, skipn_app, Hlen, Nat.sub_diag.
    rewrite <- Hlen at 1. rewrite firstn_all.
    rewrite <- Hlen at 2. rewrite skipn_all.
    cbn [firstn skipn app]. rewrite app_nil_r. reflexivity.
Qed.

Lemma set_inst_twice (vm : VM) (i : nat) (a b : option Z) :
  set_inst (set_inst vm i a) i b = set_inst vm i b.
Proof.
  destruct (nth_error (m_threads vm) i) as [t |] eqn:Ht.
  - unfold set_inst at 1. rewrite (nth_error_set_inst vm i t a Ht).
    unfold set_inst. rewrite Ht. unfold set_threads.
    cbn [m_threads m_pos m_captures saves]. rewrite update_at_twice. reflexivity.
  - unfold set_inst. rewrite Ht. rewrite Ht. reflexivity.
Qed.

(** The Save case of [step]: the index is the one byte after the opcode, read
    as a [char]; the slot of that index receives the cursor and the thread
    goes on two bytes further, and nothing else changes.  An index that is
    no slot of the thread is an access outside its [saves]. *)
Lemma step_instruction_Save (is_word : Codepoint -> bool) (program : CompiledRegex.t)
  (data : list byte) (vm : VM) (i : nat) (thread : Thread) (pc : Z) (b : byte) :
  nth_error (m_threads vm) i = Some thread ->
  inst thread = Some pc ->
  at_index (CompiledRegex.bytecode program) pc
    = Some (CompiledRegex.code CompiledRegex.Save) ->
  at_index (CompiledRegex.bytecode program) (pc + 1) = Some b ->
  step_instruction is_word program data vm i
  = if (0 <=? char_value b) && (char_value b <? size (saves thread))
    then Ok (Continue
               (mkVM (update_at (m_threads vm) i
                        (mkThread (Some (pc + 1 + 1))
                           (update_at (saves thread) (Z.to_nat (char_value b))
                                      (Some (m_pos vm)))))
                     (m_pos vm) (m_captures vm)))
    else Fault OutOfBounds.
Proof.
  intros Hth Hinst Hop Hb.
  unfold step_instruction. rewrite Hth, Hinst, Hop.
  cbn [CompiledRegex.decode CompiledRegex.code]. rewrite Hb.
  destruct ((0 <=? char_value b) && (char_value b <? size (saves thread))) eqn:Hrange;
    [| reflexivity].
  rewrite set_inst_twice, m_pos_set_inst.
  pose proof (nth_error_set_inst vm i thread (Some (pc + 1 + 1)) Hth) as H2.
  unfold set_save. rewrite H2. cbn [inst saves].
  unfold set_inst. rewrite Hth. unfold set_threads. cbn [m_threads m_pos m_captures].
  rewrite update_at_twice. reflexivity.
Qed.

(** ** Save slots *)

(** C10: the index of a Save instruction is one byte.  For a capturing node
    of group [c], [compile_node_inner] writes Save and the low eight bits of
    [2c], then the code of the node, then Save and the low eight bits of
    [2c + 1]; the byte equals [2c + 1] exactly when [2c + 1 < 256]; what
    [step] reads back from it as a [char] can only equal [2c + 1] when it
    fits in the byte; from group 128 on the two bytes are those of the
    group 128 below; and [step] at a Save instruction with that byte reads
    the one byte as its index: when the index, as a [char], is a slot of the
    thread, that slot receives the cursor, the thread goes on two bytes
    further and nothing else changes, and otherwise the access is outside
    the [saves] of the thread. *)
Theorem C10_save_index_is_one_byte :
  forall (parsed_ranges : list (list CharRange_)) (node : AstNode)
         (bc bc' : list byte) (pos : Offset),
    op node = Sequence \/ op node = Alternation ->
    0 <= value node < minus_one ->
    compile_node_inner parsed_ranges node bc = Ok (bc', pos) ->
    (exists body p,
        compile_node_inner parsed_ranges (set_value node minus_one)
          (bc ++ [CompiledRegex.code CompiledRegex.Save; to_char (value node * 2)])
          = Ok (body, p) /\
        extends (bc ++ [CompiledRegex.code CompiledRegex.Save; to_char (value node * 2)])
                body /\
        bc' = body ++ [CompiledRegex.code CompiledRegex.Save;
                       to_char (value node * 2 + 1)]) /\
    to_char (value node * 2 + 1) = (value node * 2 + 1) mod 256 /\
    (to_char (value node * 2 + 1) = value node * 2 + 1 <-> value node * 2 + 1 < 256) /\
    (char_value (to_char (value node * 2 + 1)) = value node * 2 + 1 ->
     value node * 2 + 1 < 256) /\
    (128 <= value node ->
     to_char (value node * 2) = to_char ((value node - 128) * 2) /\
     to_char (value node * 2 + 1) = to_char ((value node - 128) * 2 + 1) /\
     to_char (value node * 2) <> value node * 2 /\
     to_char (value node * 2 + 1) <> value node * 2 + 1) /\
    (forall is_word program data vm i thread pc,
        nth_error (m_threads vm) i = Some thread ->
        inst thread = Some pc ->
        at_index (CompiledRegex.bytecode program) pc
          = Some (CompiledRegex.code CompiledRegex.Save) ->
        at_index (CompiledRegex.bytecode program) (pc + 1)
          = Some (to_char (value node * 2 + 1)) ->
        let index := char_value (to_char (value node * 2 + 1)) in
        ((0 <=? index) && (index <? size (saves thread)) = true ->
         exists vm' thread',
           step_instruction is_word program data vm i = Ok (Continue vm') /\
           m_threads vm' = update_at (m_threads vm) i thread' /\
           m_pos vm' = m_pos vm /\
           m_captures vm' = m_captures vm /\
           nth_error (m_threads vm') i = Some thread' /\
           inst thread' = Some (pc + 1 + 1) /\
           saves thread' = update_at (saves thread) (Z.to_nat index) (Some (m_pos vm)) /\
           nth_error (saves thread') (Z.to_nat index) = Some (Some (m_pos vm))) /\
        ((0 <=? index) && (index <? size (saves thread)) = false ->
         step_instruction is_word program data vm i = Fault OutOfBounds)).
Proof.
  intros parsed_ranges node bc bc' pos Hop Hc Hcompile.
  assert (Hne : value node <> minus_one) by lia.
  split.
  { destruct (compile_node_inner_capture parsed_ranges node bc bc' pos Hop Hne Hcompile)
      as [body [p [Hbody Hbc']]].
    exists body, p. split; [exact Hbody |]. split; [| exact Hbc'].
    apply (compile_node_inner_extends parsed_ranges _ _ _ _ Hbody). }
  split; [reflexivity |].
  split; [apply to_char_small; lia |].
  split.
  { intro H. apply char_value_small in H; lia. }
  split.
  { intro H128. unfold to_char.
    assert (E0 : value node * 2 = (value node - 128) * 2 + 1 * 256) by lia.
    assert (E1 : value node * 2 + 1 = (value node - 128) * 2 + 1 + 1 * 256) by lia.
    split; [rewrite E0 at 1; apply Z_mod_plus_full |].
    split; [rewrite E1 at 1; apply Z_mod_plus_full |].
    pose proof (Z.mod_pos_bound (value node * 2) 256 ltac:(lia)).
    pose proof (Z.mod_pos_bound (value node * 2 + 1) 256 ltac:(lia)).
    split; lia. }
  intros is_word program data vm i thread pc Hth Hinst Hsave Hbyte index.
  pose proof (step_instruction_Save is_word program data vm i thread pc _
                Hth Hinst Hsave Hbyte) as Hstep.
  fold index in Hstep.
  split; intro Hrange; rewrite Hrange in Hstep; [| exact Hstep].
  eexists. eexists. split; [exact Hstep |]. cbn [m_threads m_pos m_captures].
  split; [reflexivity |]. split; [reflexivity |]. split; [reflexivity |].
  split.
  { apply nth_error_update_at. apply nth_error_Some. rewrite Hth. discriminate. }
  cbn [inst saves].
  split; [reflexivity |]. split; [reflexivity |].
  apply andb_true_iff in Hrange. destruct Hrange as [H0 H1].
  apply Z.leb_le in H0. apply Z.ltb_lt in H1.
  apply nth_error_update_at. unfold size in H1. lia.
Qed.

(** The theorem at the group (a) of number 1, written into an empty
    program, and at a thread that stands on the second Save of that code
    with the cursor at 1: slot 3 receives the cursor. *)
Lemma C10_save_index_is_one_byte_witness :
  let node := mkAstNode Sequence 1 (Quantifier.of_type Quantifier.One)
                [make_ast_node_value Literal 97] in
  let program := CompiledRegex.mk [8; 2; 1; 97; 8; 3] 4 in
  let thread := mkThread (Some 4) [Some 0; None; Some 0; None] in
  let vm := mkVM [thread] 1 [] in
  (op node = Sequence \/ op node = Alternation) /\
  0 <= value node < minus_one /\
  compile_node_inner [] node [] = Ok (CompiledRegex.bytecode program, 0) /\
  (exists body p,
    compile_node_inner [] (set_value node minus_one)
      ([] ++ [CompiledRegex.code CompiledRegex.Save; to_char (value node * 2)])
      = Ok (body, p) /\
    extends ([] ++ [CompiledRegex.code CompiledRegex.Save; to_char (value node * 2)])
            body /\
    [8; 2; 1; 97; 8; 3]
      = body ++ [CompiledRegex.code CompiledRegex.Save; to_char (value node * 2 + 1)]) /\
  (exists vm' thread',
    step_instruction ascii_is_word program [97] vm 0 = Ok (Continue vm') /\
    m_threads vm' = [thread'] /\
    m_pos vm' = 1 /\
    m_captures vm' = [] /\
    nth_error (m_threads vm') 0 = Some thread' /\
    inst thread' = Some 6 /\
    saves thread' = [Some 0; None; Some 0; Some 1] /\
    nth_error (saves thread') 3 = Some (Some 1)).
Proof.
  intros node program thread vm.
  assert (H1 : op node = Sequence \/ op node = Alternation) by (left; reflexivity).
  assert (H2 : 0 <= value node < minus_one) by (unfold node, minus_one, two32; simpl; lia).
  assert (H3 : compile_node_inner [] node [] = Ok ([8; 2; 1; 97; 8; 3], 0))
    by reflexivity.
  split; [exact H1 |]. split; [exact H2 |]. split; [exact H3 |].
  split; [exact (proj1 (C10_save_index_is_one_byte [] node [] _ _ H1 H2 H3)) |].
  exact (proj1 (proj2 (proj2 (proj2 (proj2 (proj2
           (C10_save_index_is_one_byte [] node [] _ _ H1 H2 H3)))))
           ascii_is_word program [97] vm 0%nat thread 4 eq_refl eq_refl eq_refl eq_refl)
           eq_refl).
Defined.

(** With 128 groups in parentheses the last one has number 128 and writes
    the Save indices 0 and 1 of group 0.  Executed on 128 a, the program
    leaves the saves vector at the first index byte that reads as a
    negative [char]. *)
Lemma group_128_writes_the_slots_of_group_0 : forall is_word : Codepoint -> bool,
  exists program,
    compile 1024 (List.concat (repeat (bytes_of_string "(a)") 128)) = Ok program /\
    CompiledRegex.save_count program = 258 /\
    firstn 2 (skipn 11 (CompiledRegex.bytecode program)) = [8; 0] /\
    skipn 775 (CompiledRegex.bytecode program) = [8; 0; 1; 97; 8; 1; 8; 1; 0] /\
    exec is_word program (repeat (chr "a") 128) true false 1024 fresh
      = Fault OutOfBounds.
Proof.
  intro is_word.
  eexists. runs 4.
Qed.

(** ** The seed of [exec] *)

Lemma write_search_prefix_eq : write_search_prefix [] = Ok search_prefix.
Proof. reflexivity. Qed.

(** A compiled program begins with the search prefix. *)
Lemma compile_parsed_prefix (ast : AstNode) (parsed_regex : ParsedRegex)
  (program : CompiledRegex.t) :
  compile_parsed ast parsed_regex = Ok program ->
  size (CompiledRegex.bytecode program) < two32 ->
  firstn (Z.to_nat prefix_size) (CompiledRegex.bytecode program) = search_prefix.
Proof.
  intros H Hsize. unfold compile_parsed in H.
  rewrite write_search_prefix_eq in H. cbn [bind] in H.
  bind_inv H. destruct r as [bc p]. injection H as <-.
  cbn [CompiledRegex.bytecode] in *.
  apply compile_node_extends in Hr.
  destruct (extends_app_trans _ _ [CompiledRegex.code CompiledRegex.Match] Hr) as [_ Hpre].
  apply Hpre. exact Hsize.
Qed.

(** C1: the seed thread of [exec] is at offset [prefix_size] when [match] is
    set (anchored) and at offset 0 otherwise (search), with every save
    unset.  [prefix_size] is the size of the search prefix, with which every
    compiled program begins; in a search the first turn of the seed thread
    runs the split of the prefix, which moves the seed thread to
    [prefix_size] and adds a thread on the AnyChar of the prefix. *)
Theorem C1_seed_thread :
  forall (program : CompiledRegex.t) (match_ : bool) (vm : VM),
    m_threads (exec_seed program match_ vm)
      = [mkThread (Some (if match_ then prefix_size else 0))
                  (repeat None (Z.to_nat (CompiledRegex.save_count program)))] /\
    m_pos (exec_seed program match_ vm) = m_begin /\
    write_search_prefix [] = Ok search_prefix /\
    size search_prefix = prefix_size /\
    (forall ast parsed_regex,
        compile_parsed ast parsed_regex = Ok program ->
        size (CompiledRegex.bytecode program) < two32 ->
        firstn (Z.to_nat prefix_size) (CompiledRegex.bytecode program) = search_prefix) /\
    (forall is_word data,
        firstn (Z.to_nat prefix_size) (CompiledRegex.bytecode program) = search_prefix ->
        exists vm1,
          step_instruction is_word program data (exec_seed program false vm) 0
            = Ok (Continue vm1) /\
          m_threads vm1
            = [mkThread (Some prefix_size)
                        (repeat None (Z.to_nat (CompiledRegex.save_count program)));
               mkThread (Some (1 + sizeof_Offset))
                        (repeat None (Z.to_nat (CompiledRegex.save_count program)))]).
Proof.
  intros program match_ vm.
  split; [destruct match_; reflexivity |].
  split; [reflexivity |].
  split; [reflexivity |].
  split; [reflexivity |].
  split; [intros ast parsed_regex; apply compile_parsed_prefix |].
  intros is_word data Hprefix.
  destruct program as [bytecode save_count]. cbn [CompiledRegex.bytecode] in Hprefix.
  rewrite <- (firstn_skipn (Z.to_nat prefix_size) bytecode), Hprefix.
  eexists. split; reflexivity.
Qed.

(** The seed offsets of the specification text are the other way round. *)
Lemma C1_seed_thread_counterexample :
  live_insts (m_threads (exec_seed (CompiledRegex.mk search_prefix 2) true fresh))
    = [prefix_size] /\
  spec_seed_offset true = 0 /\
  prefix_size <> 0 /\
  live_insts (m_threads (exec_seed (CompiledRegex.mk search_prefix 2) false fresh))
    = [0] /\
  spec_seed_offset false = prefix_size.
Proof.
  split; [reflexivity |]. split; [reflexivity |].
  split; [discriminate |]. split; reflexivity.
Qed.

(** ** Word boundaries *)

Lemma is_word_boundary_iff (is_word : Codepoint -> bool) (data : list byte) (vm : VM) :
  is_word_boundary is_word data vm = true <->
  (m_pos vm = m_begin \/ m_pos vm = m_end data \/
   is_word (codepoint_before data (m_pos vm)) <> is_word (codepoint_at data (m_pos vm))).
Proof.
  unfold is_word_boundary.
  rewrite !orb_true_iff, !Z.eqb_eq, negb_true_iff, eqb_false_iff.
  tauto.
Qed.

(** C2: a WordBoundary instruction lets the thread go on exactly when the
    cursor is at the begin of the subject, or at its end, or the
    classification differs between the codepoint before the cursor and the
    codepoint at it, and fails the thread otherwise; a NotWordBoundary
    instruction goes on exactly when WordBoundary fails. *)
Theorem C2_word_boundary_instruction :
  forall (is_word : Codepoint -> bool) (program : CompiledRegex.t) (data : list byte)
         (vm : VM) (i : nat) (thread : Thread) (pc : Z) (b : byte),
    nth_error (m_threads vm) i = Some thread ->
    inst thread = Some pc ->
    at_index (CompiledRegex.bytecode program) pc = Some b ->
    let boundary :=
      m_pos vm = m_begin \/ m_pos vm = m_end data \/
      is_word (codepoint_before data (m_pos vm))
        <> is_word (codepoint_at data (m_pos vm)) in
    let t := step_instruction is_word program data vm i in
    (b = CompiledRegex.code CompiledRegex.WordBoundary ->
     (succeeds t = true <-> boundary) /\ (fails t = true <-> ~ boundary)) /\
    (b = CompiledRegex.code CompiledRegex.NotWordBoundary ->
     (succeeds t = true <-> ~ boundary) /\ (fails t = true <-> boundary)).
Proof.
  intros is_word program data vm i thread pc b Hth Hinst Hb boundary t.
  assert (Hpos : forall x, m_pos (set_inst vm i x) = m_pos vm)
    by (intro x; apply m_pos_set_inst).
  assert (Hwb : forall x, is_word_boundary is_word data (set_inst vm i x)
                          = is_word_boundary is_word data vm).
  { intro x. unfold is_word_boundary. rewrite Hpos. reflexivity. }
  pose proof (is_word_boundary_iff is_word data vm) as Hiff.
  fold boundary in Hiff.
  split; intros ->; unfold t, step_instruction;
    rewrite Hth, Hinst, Hb; cbn [CompiledRegex.decode CompiledRegex.code];
    rewrite Hwb; destruct (is_word_boundary is_word data vm);
    cbn [negb succeeds fails]; split; split; intro H;
    try discriminate; try reflexivity;
    try (apply Hiff; reflexivity);
    try (apply Hiff in H; discriminate);
    try (intro Hb'; apply Hiff in Hb'; discriminate);
    try (exfalso; apply H; apply Hiff; reflexivity).
Qed.

(** The theorem at the begin of the subject " a", before a space. *)
Lemma C2_word_boundary_instruction_witness :
  let program := CompiledRegex.mk [CompiledRegex.code CompiledRegex.WordBoundary] 0 in
  let data := bytes_of_string " a" in
  let vm := mkVM [mkThread (Some 0) []] 0 [] in
  nth_error (m_threads vm) 0 = Some (mkThread (Some 0) []) /\
  inst (mkThread (Some 0) []) = Some 0 /\
  at_index (CompiledRegex.bytecode program) 0
    = Some (CompiledRegex.code CompiledRegex.WordBoundary) /\
  (succeeds (step_instruction ascii_is_word program data vm 0) = true <->
   (m_pos vm = m_begin \/ m_pos vm = m_end data \/
    ascii_is_word (codepoint_before data (m_pos vm))
      <> ascii_is_word (codepoint_at data (m_pos vm)))).
Proof.
  intros program data vm.
  split; [reflexivity |]. split; [reflexivity |]. split; [reflexivity |].
  exact (proj1 (proj1 (C2_word_boundary_instruction ascii_is_word program data vm 0%nat
                         (mkThread (Some 0) []) 0 _ eq_refl eq_refl eq_refl)
                      eq_refl)).
Defined.

(** At the begin of " a" the codepoint at the cursor is a space and there is
    nothing before it: the word boundary of the specification text does not
    hold there, and the WordBoundary instruction goes on; on the empty
    subject likewise. *)
Lemma C2_word_boundary_counterexample :
  let program := CompiledRegex.mk [CompiledRegex.code CompiledRegex.WordBoundary] 0 in
  let vm := mkVM [mkThread (Some 0) []] 0 [] in
  succeeds (step_instruction ascii_is_word program (bytes_of_string " a") vm 0) = true /\
  spec_word_boundary ascii_is_word (bytes_of_string " a") (m_pos vm) = false /\
  succeeds (step_instruction ascii_is_word program [] vm 0) = true /\
  spec_word_boundary ascii_is_word [] (m_pos vm) = false.
Proof.
  intros program vm. split; [reflexivity |]. split; [reflexivity |].
  split; reflexivity.
Qed.

(** * More of the engine *)

(** ** The cursor and the captures during [exec] *)

Lemma m_pos_set_save (vm : VM) (i k : nat) (p : Z) :
  m_pos (set_save vm i k p) = m_pos vm.
Proof. unfold set_save. destruct (nth_error (m_threads vm) i); reflexivity. Qed.

(** No turn of the loop of [step] moves the cursor. *)
Lemma step_instruction_m_pos (is_word : Codepoint -> bool)
  (program : CompiledRegex.t) (data : list byte) (vm : VM) (i : nat) (t : turn) :
  step_instruction is_word program data vm i = Ok t ->
  m_pos (turn_vm t) = m_pos vm.
Proof.
  intro H. unfold step_instruction in H.
  turn_cases H; injection H as <-; cbn [turn_vm];
    rewrite ?m_pos_set_save, ?m_pos_set_inst; cbn [set_threads m_pos];
    rewrite ?m_pos_set_inst; reflexivity.
Qed.

Lemma step_m_pos (is_word : Codepoint -> bool) (program : CompiledRegex.t)
  (data : list byte) :
  forall fuel vm i r vm',
    step is_word program data fuel vm i = Ok (r, vm') -> m_pos vm' = m_pos vm.
Proof.
  induction fuel as [| fuel IH]; intros vm i r vm' H; [discriminate |].
  simpl in H. bind_inv H.
  apply step_instruction_m_pos in Hr.
  destruct r0 as [res vm1 | vm1]; cbn [turn_vm] in Hr.
  - injection H as _ <-. exact Hr.
  - rewrite <- Hr. apply (IH vm1 i r vm' H).
Qed.

Lemma step_remaining_m_pos (is_word : Codepoint -> bool) (program : CompiledRegex.t)
  (data : list byte) (longest : bool) :
  forall fuel i found vm ret found' vm',
    step_remaining is_word program data longest fuel i found vm
      = Ok (ret, found', vm') ->
    m_pos vm' = m_pos vm.
Proof.
  induction fuel as [| fuel IH]; intros i found vm ret found' vm' H; [discriminate |].
  simpl in H.
  destruct (i <? List.length (m_threads vm))%nat.
  - bind_inv H. destruct r as [res vm1].
    apply step_m_pos in Hr.
    destruct res; [| destruct (negb longest) |].
    + rewrite (IH _ _ _ _ _ _ H). exact Hr.
    + injection H as _ _ <-. exact Hr.
    + rewrite (IH _ _ _ _ _ _ H). exact Hr.
    + rewrite (IH _ _ _ _ _ _ H). exact Hr.
  - injection H as _ _ <-. reflexivity.
Qed.

(** With [match] set, the loop over the threads inside the loop over the
    subject never returns and never finds a match. *)
Lemma step_threads_anchored (is_word : Codepoint -> bool) (program : CompiledRegex.t)
  (data : list byte) (longest : bool) :
  forall fuel i found vm ret found' vm',
    step_threads is_word program data true longest fuel i found vm
      = Ok (ret, found', vm') ->
    ret = None /\ found' = found /\ m_captures vm' = m_captures vm.
Proof.
  induction fuel as [| fuel IH]; intros i found vm ret found' vm' H; [discriminate |].
  simpl in H.
  destruct (i <? List.length (m_threads vm))%nat.
  - bind_inv H. destruct r as [res vm1].
    apply step_captures in Hr.
    destruct res.
    + destruct (IH _ _ _ _ _ _ H) as [Hn [Hf Hc]]. rewrite Hc, Hr. auto.
    + destruct (IH _ _ _ _ _ _ H) as [Hn [Hf Hc]]. rewrite Hc, Hr. auto.
    + destruct (IH _ _ _ _ _ _ H) as [Hn [Hf Hc]].
      rewrite Hc, m_captures_set_inst, Hr. auto.
  - injection H as <- <- <-. auto.
Qed.

Lemma exec_loop_anchored (is_word : Codepoint -> bool) (program : CompiledRegex.t)
  (data : list byte) (longest : bool) :
  forall fuel vm vm',
    exec_loop is_word program data true longest fuel false vm = Ok (true, vm') ->
    m_pos vm' = m_end data.
Proof.
  induction fuel as [| fuel IH]; intros vm vm' H; [discriminate |].
  simpl in H.
  destruct (m_pos vm =? m_end data) eqn:Hend; cbn [negb] in H.
  - apply Z.eqb_eq in Hend.
    bind_inv H. destruct r as [[ret found1] vm1].
    apply step_remaining_m_pos in Hr.
    destruct ret as [b |]; injection H as _ <-; congruence.
  - bind_inv H. destruct r as [[ret found1] vm1].
    unfold exec_round in Hr. bind_inv Hr. destruct r as [[ret0 found0] vm0].
    apply step_threads_anchored in Hr0. destruct Hr0 as [-> [-> _]].
    cbn [set_threads m_threads] in Hr.
    destruct (filter (fun t => negb (is_dead t)) (m_threads vm0)).
    + injection Hr as <- _ <-. discriminate.
    + injection Hr as <- <- <-. apply (IH _ _ H).
Qed.

(** *** The saves vectors *)

Lemma Forall_update_at {A : Type} (P : A -> Prop) (l : list A) (i : nat) (x : A) :
  Forall P l -> P x -> Forall P (update_at l i x).
Proof.
  intros Hl Hx. unfold update_at.
  rewrite <- (firstn_skipn i l) in Hl. apply Forall_app in Hl. destruct Hl as [H1 H2].
  apply Forall_app. split; [exact H1 |].
  destruct (skipn i l) as [| y tl]; [constructor |].
  inversion H2; subst. constructor; assumption.
Qed.

Lemma Forall_nth_error {A : Type} (P : A -> Prop) (l : list A) (i : nat) (x : A) :
  Forall P l -> nth_error l i = Some x -> P x.
Proof.
  intros Hl Hx. rewrite Forall_forall in Hl. apply Hl.
  apply (nth_error_In l i Hx).
Qed.

Lemma Forall_add_thread (P : Thread -> Prop) (threads : list Thread) (index : nat)
  (pos : Offset) (svs : list (option Z)) :
  Forall P threads -> P (mkThread (Some pos) svs) ->
  Forall P (add_thread threads index pos svs).
Proof.
  intros Hl Hx. unfold add_thread.
  destruct (has_thread_at threads (Some pos)); [exact Hl |].
  rewrite <- (firstn_skipn index threads) in Hl.
  apply Forall_app in Hl. destruct Hl as [H1 H2].
  apply Forall_app. split; [exact H1 |]. constructor; assumption.
Qed.

Section SavesInvariant.

Variables (n : nat) (hi : Z).

Local Abbreviation ok := (all_saves_ok n hi).

Lemma ok_set_inst (vm : VM) (i : nat) (x : option Z) : ok vm -> ok (set_inst vm i x).
Proof.
  unfold all_saves_ok, set_inst. intro H.
  destruct (nth_error (m_threads vm) i) as [t |] eqn:Ht; [| exact H].
  cbn [set_threads m_threads]. apply Forall_update_at; [exact H |].
  cbn [saves]. apply (Forall_nth_error _ _ _ _ H Ht).
Qed.

Lemma ok_set_save (vm : VM) (i k : nat) (p : Z) :
  ok vm -> 0 <= p <= hi -> ok (set_save vm i k p).
Proof.
  unfold all_saves_ok, set_save. intros H Hp.
  destruct (nth_error (m_threads vm) i) as [t |] eqn:Ht; [| exact H].
  cbn [set_threads m_threads]. apply Forall_update_at; [exact H |].
  cbn [saves]. destruct (Forall_nth_error _ _ _ _ H Ht) as [Hlen Hall].
  split; [rewrite length_update_at; exact Hlen |].
  apply Forall_update_at; [exact Hall | exact Hp].
Qed.

Lemma ok_add_thread (vm : VM) (index : nat) (pos : Offset) (svs : list (option Z)) :
  ok vm -> saves_ok n hi svs ->
  ok (set_threads vm (add_thread (m_threads vm) index pos svs)).
Proof.
  unfold all_saves_ok. intros H Hs. cbn [set_threads m_threads].
  apply Forall_add_thread; assumption.
Qed.

(** A turn of the loop of [step] keeps the saves vectors of all threads. *)
Lemma step_instruction_saves (is_word : Codepoint -> bool)
  (program : CompiledRegex.t) (data : list byte) (vm : VM) (i : nat) (t : turn) :
  ok vm -> 0 <= m_pos vm <= hi ->
  step_instruction is_word program data vm i = Ok t ->
  ok (turn_vm t).
Proof.
  intros Hok Hpos H. unfold step_instruction in H.
  destruct (nth_error (m_threads vm) i) as [thread |] eqn:Hth; [| discriminate].
  pose proof (Forall_nth_error _ _ _ _ Hok Hth) as Hsaves.
  turn_cases H; injection H as <-; cbn [turn_vm];
    repeat first
      [ exact Hok
      | apply ok_set_inst
      | apply ok_set_save; [| rewrite ?m_pos_set_inst; exact Hpos]
      | apply ok_add_thread; [| exact Hsaves] ].
Qed.

Lemma step_saves (is_word : Codepoint -> bool) (program : CompiledRegex.t)
  (data : list byte) :
  forall fuel vm i r vm',
    ok vm -> 0 <= m_pos vm <= hi ->
    step is_word program data fuel vm i = Ok (r, vm') -> ok vm'.
Proof.
  induction fuel as [| fuel IH]; intros vm i r vm' Hok Hpos H; [discriminate |].
  simpl in H. bind_inv H.
  pose proof (step_instruction_saves _ _ _ _ _ _ Hok Hpos Hr) as Hok1.
  apply step_instruction_m_pos in Hr.
  destruct r0 as [res vm1 | vm1]; cbn [turn_vm] in Hr, Hok1.
  - injection H as _ <-. exact Hok1.
  - apply (IH vm1 i r vm'); [exact Hok1 | rewrite Hr; exact Hpos | exact H].
Qed.

End SavesInvariant.

Lemma length_set_inst (vm : VM) (i : nat) (x : option Z) :
  List.length (m_threads (set_inst vm i x)) = List.length (m_threads vm).
Proof.
  unfold set_inst. destruct (nth_error (m_threads vm) i); [| reflexivity].
  cbn [set_threads m_threads]. apply length_update_at.
Qed.

Lemma length_set_save (vm : VM) (i k : nat) (p : Z) :
  List.length (m_threads (set_save vm i k p)) = List.length (m_threads vm).
Proof.
  unfold set_save. destruct (nth_error (m_threads vm) i); [| reflexivity].
  cbn [set_threads m_threads]. apply length_update_at.
Qed.

Lemma length_add_thread (threads : list Thread) (index : nat) (pos : Offset)
  (svs : list (option Z)) :
  (List.length threads <= List.length (add_thread threads index pos svs)
   <= S (List.length threads))%nat.
Proof.
  unfold add_thread. destruct (has_thread_at threads (Some pos)); [lia |].
  rewrite length_app. cbn [List.length]. rewrite length_firstn, length_skipn. lia.
Qed.

(** A turn of the loop of [step] removes no thread and adds at most one. *)
Lemma step_instruction_length (is_word : Codepoint -> bool)
  (program : CompiledRegex.t) (data : list byte) (vm : VM) (i : nat) (t : turn) :
  step_instruction is_word program data vm i = Ok t ->
  (List.length (m_threads vm) <= List.length (m_threads (turn_vm t))
   <= S (List.length (m_threads vm)))%nat.
Proof.
  intro H. unfold step_instruction in H.
  turn_cases H; injection H as <-; cbn [turn_vm];
    rewrite ?length_set_save, ?length_set_inst; cbn [set_threads m_threads];
    try match goal with
        | |- context [add_thread ?ts ?ix ?p ?s] =>
          pose proof (length_add_thread ts ix p s)
        end;
    rewrite ?length_set_inst in *; lia.
Qed.

Lemma step_length (is_word : Codepoint -> bool) (program : CompiledRegex.t)
  (data : list byte) :
  forall fuel vm i r vm',
    step is_word program data fuel vm i = Ok (r, vm') ->
    (List.length (m_threads vm) <= List.length (m_threads vm'))%nat.
Proof.
  induction fuel as [| fuel IH]; intros vm i r vm' H; [discriminate |].
  simpl in H. bind_inv H.
  apply step_instruction_length in Hr.
  destruct r0 as [res vm1 | vm1]; cbn [turn_vm] in Hr.
  - injection H as _ <-. lia.
  - apply IH in H. lia.
Qed.

Section CapturesInvariant.

Variables (is_word : Codepoint -> bool) (program : CompiledRegex.t) (data : list byte).
Variables (match_ longest : bool) (n : nat).

Local Abbreviation inv := (exec_inv n data).
Local Abbreviation inv_result := (exec_inv_result n data).

Lemma thread_saves_ok (vm : VM) (i : nat) :
  threads_ok n (size data) vm -> (i < List.length (m_threads vm))%nat ->
  saves_ok n (size data) (thread_saves vm i).
Proof.
  intros [Hok _] Hi. unfold thread_saves.
  destruct (nth_error (m_threads vm) i) as [t |] eqn:Ht.
  - apply (Forall_nth_error _ _ _ _ Hok Ht).
  - apply nth_error_None in Ht. lia.
Qed.

Lemma threads_ok_step (fuel : nat) (vm : VM) (i : nat) (r : StepResult) (vm' : VM) :
  threads_ok n (size data) vm ->
  step is_word program data fuel vm i = Ok (r, vm') ->
  threads_ok n (size data) vm'.
Proof.
  intros [Hok Hpos] H. split.
  - apply (step_saves n (size data) is_word program data fuel vm i r vm' Hok Hpos H).
  - rewrite (step_m_pos _ _ _ _ _ _ _ _ H). exact Hpos.
Qed.

Lemma threads_ok_firstn (vm : VM) (i : nat) (caps : list (option Z)) :
  threads_ok n (size data) vm ->
  threads_ok n (size data) (mkVM (firstn i (m_threads vm)) (m_pos vm) caps).
Proof.
  intros [Hok Hpos]. split; [| exact Hpos]. cbn [m_threads].
  rewrite <- (firstn_skipn i (m_threads vm)) in Hok.
  apply Forall_app in Hok. apply Hok.
Qed.

Lemma threads_ok_set_inst (vm : VM) (i : nat) (x : option Z) :
  threads_ok n (size data) vm -> threads_ok n (size data) (set_inst vm i x).
Proof.
  intros [Hok Hpos]. split; [apply ok_set_inst; exact Hok |].
  rewrite m_pos_set_inst. exact Hpos.
Qed.

Lemma step_threads_inv :
  forall fuel i found vm r,
    inv found vm ->
    step_threads is_word program data match_ longest fuel i found vm = Ok r ->
    inv_result r.
Proof.
  induction fuel as [| fuel IH]; intros i found vm r Hinv H; [discriminate |].
  simpl in H.
  destruct (i <? List.length (m_threads vm))%nat eqn:Hi.
  - apply Nat.ltb_lt in Hi.
    bind_inv H. destruct r0 as [res vm1].
    destruct Hinv as [Hok Hcaps].
    pose proof (threads_ok_step _ _ _ _ _ Hok Hr) as Hok1.
    pose proof (step_length _ _ _ _ _ _ _ _ Hr) as Hlen.
    pose proof (step_captures _ _ _ _ _ _ _ _ Hr) as Hc.
    assert (Hinv1 : inv found vm1) by (split; [exact Hok1 | rewrite Hc; exact Hcaps]).
    destruct res.
    + apply (IH _ _ _ _ Hinv1 H).
    + destruct match_.
      * apply (IH _ _ _ _ Hinv1 H).
      * assert (Hnew : inv true (mkVM (firstn i (m_threads vm1)) (m_pos vm1)
                                      (thread_saves vm1 i))).
        { split; [apply threads_ok_firstn; exact Hok1 |].
          intros _. cbn [m_captures]. apply thread_saves_ok; [exact Hok1 | lia]. }
        destruct (negb longest).
        -- injection H as <-. split; [exact Hnew | reflexivity].
        -- apply (IH _ _ _ _ Hnew H).
    + refine (IH _ found (set_inst vm1 i None) _ _ H).
      split; [apply threads_ok_set_inst; exact Hok1 |].
      rewrite m_captures_set_inst, Hc. exact Hcaps.
  - injection H as <-. split; [exact Hinv | discriminate].
Qed.

Lemma step_remaining_inv :
  forall fuel i found vm r,
    inv found vm ->
    step_remaining is_word program data longest fuel i found vm = Ok r ->
    inv_result r.
Proof.
  induction fuel as [| fuel IH]; intros i found vm r Hinv H; [discriminate |].
  simpl in H.
  destruct (i <? List.length (m_threads vm))%nat eqn:Hi.
  - apply Nat.ltb_lt in Hi.
    bind_inv H. destruct r0 as [res vm1].
    destruct Hinv as [Hok Hcaps].
    pose proof (threads_ok_step _ _ _ _ _ Hok Hr) as Hok1.
    pose proof (step_length _ _ _ _ _ _ _ _ Hr) as Hlen.
    pose proof (step_captures _ _ _ _ _ _ _ _ Hr) as Hc.
    assert (Hinv1 : inv found vm1) by (split; [exact Hok1 | rewrite Hc; exact Hcaps]).
    destruct res.
    + apply (IH _ _ _ _ Hinv1 H).
    + assert (Hnew : inv true (mkVM (firstn i (m_threads vm1)) (m_pos vm1)
                                    (thread_saves vm1 i))).
      { split; [apply threads_ok_firstn; exact Hok1 |].
        intros _. cbn [m_captures]. apply thread_saves_ok; [exact Hok1 | lia]. }
      destruct (negb longest).
      * injection H as <-. split; [exact Hnew | reflexivity].
      * apply (IH _ _ _ _ Hnew H).
    + apply (IH _ _ _ _ Hinv1 H).
  - injection H as <-. split; [exact Hinv | discriminate].
Qed.

End CapturesInvariant.

Lemma at_index_Some {A : Type} (l : list A) (i : Z) (x : A) :
  at_index l i = Some x -> 0 <= i < size l.
Proof.
  unfold at_index, size. destruct (i <? 0) eqn:Hi; [discriminate |].
  apply Z.ltb_ge in Hi. intro H.
  assert (Hn : (Z.to_nat i < List.length l)%nat)
    by (apply nth_error_Some; rewrite H; discriminate).
  lia.
Qed.

Lemma skip_continuation_bounds (s : list byte) :
  forall fuel it, it <= size s -> it <= utf8.skip_continuation fuel s it <= size s.
Proof.
  induction fuel as [| fuel IH]; intros it Hit; simpl; [lia |].
  destruct (at_index s it) as [b |] eqn:Hb; [| lia].
  apply at_index_Some in Hb.
  destruct (utf8.is_continuation b); [| lia].
  specialize (IH (it + 1) ltac:(lia)). lia.
Qed.

(** [++m_pos] moves forward and stays inside the subject. *)
Lemma to_next_bounds (s : list byte) (it : Z) :
  it <= size s -> it <= utf8.to_next s it <= size s.
Proof.
  intro Hit. unfold utf8.to_next.
  destruct (at_index s it) as [b |] eqn:Hb; [| lia].
  apply at_index_Some in Hb.
  destruct (Z.land b 128 =? 0); [lia |].
  pose proof (skip_continuation_bounds s (List.length s) (it + 1) ltac:(lia)). lia.
Qed.

Section ExecCaptures.

Variables (is_word : Codepoint -> bool) (program : CompiledRegex.t) (data : list byte).
Variables (match_ longest : bool) (n : nat).

Lemma exec_round_inv (fuel : nat) (found : bool) (vm : VM) (ret : option bool)
  (found' : bool) (vm' : VM) :
  threads_ok n (size data) vm ->
  (found = true -> saves_ok n (size data) (m_captures vm)) ->
  exec_round is_word program data match_ longest fuel found vm = Ok (ret, found', vm') ->
  threads_ok n (size data) vm' /\
  (found' = true -> saves_ok n (size data) (m_captures vm')) /\
  (ret = Some true -> found' = true).
Proof.
  intros Hok Hcaps H. unfold exec_round in H. bind_inv H.
  destruct r as [[ret0 found0] vm0].
  pose proof (step_threads_inv is_word program data match_ longest n
                fuel 0 found vm _ (conj Hok Hcaps) Hr) as [[Hok0 Hcaps0] Hret0].
  destruct ret0 as [b |].
  - injection H as <- <- <-. auto.
  - cbn [set_threads m_threads] in H.
    assert (Hf : threads_ok n (size data)
                   (mkVM (filter (fun t => negb (is_dead t)) (m_threads vm0))
                         (m_pos vm0) (m_captures vm0))).
    { destruct Hok0 as [Hall Hpos]. split; [| exact Hpos]. cbn [m_threads].
      rewrite Forall_forall in Hall |- *. intros t Ht.
      apply filter_In in Ht. apply Hall. apply Ht. }
    destruct (filter (fun t => negb (is_dead t)) (m_threads vm0)) as [| t ts] eqn:Hfilter.
    + injection H as <- <- <-. split; [exact Hf |]. split; [exact Hcaps0 | discriminate].
    + injection H as <- <- <-. cbn [m_captures]. split; [| split; [exact Hcaps0 | discriminate]].
      destruct Hf as [Hall Hpos]. split; [exact Hall |]. cbn [m_pos] in *.
      pose proof (to_next_bounds data (m_pos vm0) ltac:(lia)). lia.
Qed.

Lemma exec_loop_inv :
  forall fuel found vm vm',
    threads_ok n (size data) vm ->
    (found = true -> saves_ok n (size data) (m_captures vm)) ->
    exec_loop is_word program data match_ longest fuel found vm = Ok (true, vm') ->
    saves_ok n (size data) (m_captures vm').
Proof.
  induction fuel as [| fuel IH]; intros found vm vm' Hok Hcaps H; [discriminate |].
  simpl in H.
  destruct (negb (m_pos vm =? m_end data)).
  - bind_inv H. destruct r as [[ret found1] vm1].
    destruct (exec_round_inv _ _ _ _ _ _ Hok Hcaps Hr) as [Hok1 [Hcaps1 Hret]].
    destruct ret as [b |].
    + injection H as -> <-. apply Hcaps1. apply Hret. reflexivity.
    + apply (IH _ _ _ Hok1 Hcaps1 H).
  - bind_inv H. destruct r as [[ret found1] vm1].
    pose proof (step_remaining_inv is_word program data longest n
                  fuel 0 found vm _ (conj Hok Hcaps) Hr) as [[Hok1 Hcaps1] Hret].
    destruct ret as [b |].
    + injection H as -> <-. apply Hcaps1. apply Hret. reflexivity.
    + injection H as -> <-. apply Hcaps1. reflexivity.
Qed.

End ExecCaptures.

(** X1: when [exec] returns true, [m_captures] has [save_count] entries, and
    each of them is unset or an offset between the begin and the end of the
    subject, whatever the program and whatever the VM held before. *)
Theorem exec_true_captures_inside_subject :
  forall (is_word : Codepoint -> bool) (program : CompiledRegex.t) (data : list byte)
         (match_ longest : bool) (fuel : nat) (vm vm' : VM),
    exec is_word program data match_ longest fuel vm = Ok (true, vm') ->
    List.length (m_captures vm') = Z.to_nat (CompiledRegex.save_count program) /\
    Forall (save_in_range (size data)) (m_captures vm').
Proof.
  intros is_word program data match_ longest fuel vm vm' H. unfold exec in H.
  refine (exec_loop_inv is_word program data match_ longest
            (Z.to_nat (CompiledRegex.save_count program)) fuel false
            (exec_seed program match_ vm) vm' _ _ H); [| discriminate].
  unfold exec_seed, add_thread. cbn [has_thread_at existsb firstn skipn app].
  split; cbn [m_threads m_pos].
  - constructor; [| constructor]. cbn [saves]. split; [apply repeat_length |].
    apply Forall_forall. intros s Hs. apply repeat_spec in Hs. subst s. exact I.
  - unfold m_begin. pose proof (size_nonneg data). lia.
Qed.

(** The theorem at the search for a in "xa". *)
Lemma exec_true_captures_inside_subject_witness :
  let program := CompiledRegex.mk
                   [7; 11; 0; 0; 0; 2; 6; 5; 0; 0; 0; 8; 0; 1; 97; 8; 1; 0] 2 in
  let vm' := mkVM [] 2 [Some 1; Some 2] in
  exec ascii_is_word program (bytes_of_string "xa") false false 64 fresh = Ok (true, vm') /\
  List.length (m_captures vm') = Z.to_nat (CompiledRegex.save_count program) /\
  Forall (save_in_range (size (bytes_of_string "xa"))) (m_captures vm').
Proof.
  intros program vm'.
  assert (H : exec ascii_is_word program (bytes_of_string "xa") false false 64 fresh
              = Ok (true, vm')) by (vm_compute; reflexivity).
  split; [exact H |].
  exact (exec_true_captures_inside_subject _ _ _ _ _ _ _ _ H).
Defined.

(** X2: with [match] set, [exec] returns true only with the cursor at the end
    of the subject: a thread that reaches Match before the end is dropped,
    whatever the program. *)
Theorem exec_anchored_true_at_end :
  forall (is_word : Codepoint -> bool) (program : CompiledRegex.t) (data : list byte)
         (longest : bool) (fuel : nat) (vm vm' : VM),
    exec is_word program data true longest fuel vm = Ok (true, vm') ->
    m_pos vm' = m_end data.
Proof.
  intros is_word program data longest fuel vm vm' H. unfold exec in H.
  apply (exec_loop_anchored _ _ _ _ _ _ _ H).
Qed.

(** The theorem at the anchored run of a program for the pattern a on "a". *)
Lemma exec_anchored_true_at_end_witness :
  let program := CompiledRegex.mk
                   [7; 11; 0; 0; 0; 2; 6; 5; 0; 0; 0; 8; 0; 1; 97; 8; 1; 0] 2 in
  let vm' := mkVM [] 1 [Some 0; Some 1] in
  exec ascii_is_word program (bytes_of_string "a") true false 64 fresh = Ok (true, vm') /\
  m_pos vm' = m_end (bytes_of_string "a").
Proof.
  intros program vm'.
  assert (H : exec ascii_is_word program (bytes_of_string "a") true false 64 fresh
              = Ok (true, vm')) by (vm_compute; reflexivity).
  split; [exact H |].
  exact (exec_anchored_true_at_end _ _ _ _ _ _ _ H).
Defined.

(** X3: without [longest], a run of [exec] that returns false leaves
    [m_captures] as it was before the call, whatever the program, the subject
    and the mode. *)
Theorem exec_false_leaves_captures :
  forall (is_word : Codepoint -> bool) (program : CompiledRegex.t) (data : list byte)
         (match_ : bool) (fuel : nat) (vm vm' : VM),
    exec is_word program data match_ false fuel vm = Ok (false, vm') ->
    m_captures vm' = m_captures vm.
Proof.
  intros is_word program data match_ fuel vm vm'.
  apply exec_false_keeps_captures.
Qed.

(** The theorem at the anchored run of a program for the pattern a on "b",
    on a VM that holds two captures. *)
Lemma exec_false_leaves_captures_witness :
  let program := CompiledRegex.mk
                   [7; 11; 0; 0; 0; 2; 6; 5; 0; 0; 0; 8; 0; 1; 97; 8; 1; 0] 2 in
  let vm := mkVM [] 0 [Some 1; Some 2] in
  let vm' := mkVM [] 0 [Some 1; Some 2] in
  exec ascii_is_word program (bytes_of_string "b") true false 64 vm = Ok (false, vm') /\
  m_captures vm' = m_captures vm.
Proof.
  intros program vm vm'.
  assert (H : exec ascii_is_word program (bytes_of_string "b") true false 64 vm
              = Ok (false, vm')) by (vm_compute; reflexivity).
  split; [exact H |].
  exact (exec_false_leaves_captures _ _ _ _ _ _ _ H).
Defined.

Lemma In_add_thread (threads : list Thread) (index : nat) (pos : Offset)
  (svs : list (option Z)) (t : Thread) :
  In t threads -> In t (add_thread threads index pos svs).
Proof.
  intro H. unfold add_thread.
  destruct (has_thread_at threads (Some pos)); [exact H |].
  rewrite <- (firstn_skipn index threads) in H.
  apply in_app_or in H. apply in_or_app.
  destruct H as [H | H]; [left; exact H | right; right; exact H].
Qed.

(** X4: [add_thread] keeps the instruction pointers of the live threads
    pairwise distinct, removes no thread, adds at most one, and adds none
    when a thread of the list is already at the offset. *)
Theorem add_thread_collapses_duplicates :
  forall (threads : list Thread) (index : nat) (pos : Offset) (svs : list (option Z)),
    NoDup (live_insts threads) ->
    NoDup (live_insts (add_thread threads index pos svs)) /\
    (forall t, In t threads -> In t (add_thread threads index pos svs)) /\
    (List.length threads <= List.length (add_thread threads index pos svs)
     <= S (List.length threads))%nat /\
    (In pos (live_insts threads) -> add_thread threads index pos svs = threads).
Proof.
  intros threads index pos svs Hnd.
  split; [apply add_thread_keeps_distinct; exact Hnd |].
  split; [intros t; apply In_add_thread |].
  split; [apply length_add_thread |].
  intro Hin. unfold add_thread.
  destruct (has_thread_at threads (Some pos)) eqn:Hat; [reflexivity |].
  apply has_thread_at_live in Hat. contradiction.
Qed.

(** The theorem at a list of two threads and an offset one of them has. *)
Lemma add_thread_collapses_duplicates_witness :
  let threads := [mkThread (Some 11) []; mkThread (Some 5) []] in
  NoDup (live_insts threads) /\
  NoDup (live_insts (add_thread threads 1 5 [])).
Proof.
  intro threads.
  assert (H : NoDup (live_insts threads)).
  { unfold threads, live_insts. cbn [flat_map inst app].
    constructor; [intros [H | []]; discriminate |].
    constructor; [intros [] | constructor]. }
  split; [exact H |].
  exact (proj1 (add_thread_collapses_duplicates threads 1 5 [] H)).
Defined.

(** ** Offsets in the program *)

Lemma offset_bytes_value (v : Z) :
  v mod 256 + 256 * ((v / 256) mod 256) + 65536 * ((v / 65536) mod 256)
  + 16777216 * ((v / 16777216) mod 256) = v mod two32.
Proof.
  unfold two32. Z.to_euclidean_division_equations. lia.
Qed.

Lemma at_index_app_l {A : Type} (l1 l2 : list A) (i : Z) :
  i < size l1 -> at_index (l1 ++ l2) i = at_index l1 i.
Proof.
  intros Hi. unfold at_index, size in *.
  destruct (i <? 0) eqn:H0; [reflexivity |]. apply Z.ltb_ge in H0.
  apply nth_error_app1. lia.
Qed.

Lemma at_index_app_r {A : Type} (l1 l2 : list A) (i : Z) :
  size l1 <= i -> at_index (l1 ++ l2) i = at_index l2 (i - size l1).
Proof.
  intros Hi. unfold at_index, size in *.
  destruct (i <? 0) eqn:H0; [apply Z.ltb_lt in H0; lia |].
  destruct (i - Z.of_nat (List.length l1) <? 0) eqn:H1; [apply Z.ltb_lt in H1; lia |].
  rewrite nth_error_app2 by lia. f_equal. lia.
Qed.

Lemma set_offset_spec (b b' : list byte) (o : Offset) (v : Z) :
  set_offset b o v = Ok b' ->
  0 <= o /\ o + sizeof_Offset <= size b /\
  b' = firstn (Z.to_nat o) b ++ offset_bytes v ++ skipn (Z.to_nat (o + sizeof_Offset)) b.
Proof.
  unfold set_offset.
  destruct ((0 <=? o) && (o + sizeof_Offset <=? size b)) eqn:Hr; [| discriminate].
  apply andb_true_iff in Hr. destruct Hr as [H0 H1].
  apply Z.leb_le in H0. apply Z.leb_le in H1.
  intro H. injection H as <-. auto.
Qed.

(** X5: [get_offset(program, pos) = v] on four bytes inside the program keeps
    the size of the program and every other byte, and the VM reads [v] back
    from [pos], modulo 2^32. *)
Theorem offset_write_then_read :
  forall (b b' : list byte) (o : Offset) (v : Z),
    set_offset b o v = Ok b' ->
    read_offset b' o = Ok (v mod two32) /\
    size b' = size b /\
    (forall j, j < o \/ o + sizeof_Offset <= j -> at_index b' j = at_index b j).
Proof.
  intros b b' o v H.
  pose proof (set_offset_length _ _ _ _ H) as Hlen.
  apply set_offset_spec in H. destruct H as [H0 [H1 ->]].
  unfold CompiledRegex.sizeof_Offset in *.
  assert (Hf : size (firstn (Z.to_nat o) b) = o).
  { unfold size in *. rewrite length_firstn. lia. }
  split; [| split].
  - unfold read_offset.
    rewrite (at_index_app_r _ _ o), (at_index_app_r _ _ (o + 1)),
            (at_index_app_r _ _ (o + 2)), (at_index_app_r _ _ (o + 3)) by lia.
    rewrite Hf.
    replace (o - o) with 0 by lia. replace (o + 1 - o) with 1 by lia.
    replace (o + 2 - o) with 2 by lia. replace (o + 3 - o) with 3 by lia.
    unfold offset_bytes.
    set (rest := skipn (Z.to_nat (o + 4)) b).
    change (at_index ([v mod 256; (v / 256) mod 256; (v / 65536) mod 256;
                       (v / 16777216) mod 256] ++ rest) 0) with (Some (v mod 256)).
    change (at_index ([v mod 256; (v / 256) mod 256; (v / 65536) mod 256;
                       (v / 16777216) mod 256] ++ rest) 1)
      with (Some ((v / 256) mod 256)).
    change (at_index ([v mod 256; (v / 256) mod 256; (v / 65536) mod 256;
                       (v / 16777216) mod 256] ++ rest) 2)
      with (Some ((v / 65536) mod 256)).
    change (at_index ([v mod 256; (v / 256) mod 256; (v / 65536) mod 256;
                       (v / 16777216) mod 256] ++ rest) 3)
      with (Some ((v / 16777216) mod 256)).
    cbv iota beta. f_equal. apply offset_bytes_value.
  - unfold size. f_equal. exact Hlen.
  - intros j [Hj | Hj].
    + rewrite at_index_app_l by lia.
      unfold at_index. destruct (j <? 0) eqn:Hj0; [reflexivity |].
      apply Z.ltb_ge in Hj0. rewrite nth_error_firstn.
      destruct (Z.to_nat j <? Z.to_nat o)%nat eqn:Hlt; [reflexivity |].
      apply Nat.ltb_ge in Hlt. lia.
    + rewrite at_index_app_r by lia. rewrite Hf.
      rewrite at_index_app_r by (unfold size; simpl; lia).
      unfold size at 1. cbn [offset_bytes List.length].
      unfold at_index.
      destruct (j - o - Z.of_nat 4 <? 0) eqn:H4; [apply Z.ltb_lt in H4; lia |].
      destruct (j <? 0) eqn:Hj0; [apply Z.ltb_lt in Hj0; lia |].
      rewrite nth_error_skipn. f_equal. lia.
Qed.

(** The theorem at the first offset of the search prefix. *)
Lemma offset_write_then_read_witness :
  set_offset [7; 0; 0; 0; 0] 1 11 = Ok [7; 11; 0; 0; 0] /\
  read_offset [7; 11; 0; 0; 0] 1 = Ok (11 mod two32).
Proof.
  assert (H : set_offset [7; 0; 0; 0; 0] 1 11 = Ok [7; 11; 0; 0; 0]) by reflexivity.
  split; [exact H |].
  exact (proj1 (offset_write_then_read _ _ _ _ H)).
Defined.

(** ** What the writer keeps *)

Lemma compile_quantified_pos (q : Quantifier.t)
  (inner : list byte -> outcome (list byte * Offset)) (bc bc' : list byte) (pos : Offset) :
  compile_quantified q inner bc = Ok (bc', pos) -> pos = to_offset (size bc).
Proof.
  intro H. unfold compile_quantified in H.
  destruct (if Quantifier.allows_none q
            then let '(bc0, o0) :=
                   alloc_offset (bc ++ [CompiledRegex.code CompiledRegex.Split_PrioritizeParent])
                 in (bc0, [o0])
            else (bc, [])) as [b1 offs1].
  bind_inv H. bind_inv H. destruct r0 as [b3 inner_pos].
  bind_inv H. destruct r0 as [b4 offs4].
  bind_inv H. injection H as _ <-. reflexivity.
Qed.

(** X6: [compile_node] only appends: it returns the offset at which it
    started, the program it leaves is at least as long as the one it was
    given and, as long as its size fits an [Offset], begins with it;
    backpatching never reaches the bytes that were there before. *)
Theorem compile_node_appends :
  forall (parsed_ranges : list (list CharRange_)) (node : AstNode)
         (bc bc' : list byte) (pos : Offset),
    compile_node parsed_ranges node bc = Ok (bc', pos) ->
    pos = to_offset (size bc) /\
    (List.length bc <= List.length bc')%nat /\
    (size bc' < two32 -> firstn (List.length bc) bc' = bc).
Proof.
  intros parsed_ranges node bc bc' pos H.
  split; [apply (compile_quantified_pos _ _ _ _ _ H) |].
  apply (compile_node_extends parsed_ranges node bc bc' pos H).
Qed.

(** The theorem at the literal a with the quantifier [*], written after the
    search prefix. *)
Lemma compile_node_appends_witness :
  let node := make_ast_node Literal 97 (Quantifier.of_type Quantifier.RepeatZeroOrMore) in
  let bc' := search_prefix ++ [6; 23; 0; 0; 0; 1; 97; 7; 16; 0; 0; 0] in
  compile_node [] node search_prefix = Ok (bc', 11) /\
  11 = to_offset (size search_prefix) /\
  (List.length search_prefix <= List.length bc')%nat /\
  (size bc' < two32 -> firstn (List.length search_prefix) bc' = search_prefix).
Proof.
  intros node bc'.
  assert (H : compile_node [] node search_prefix = Ok (bc', 11)) by reflexivity.
  split; [exact H |].
  exact (compile_node_appends [] node search_prefix bc' 11 H).
Defined.

(** X7: a program [compile] returns is the search prefix, the code of the
    root node and a final Match; it reserves two save slots per capture. *)
Theorem compile_parsed_shape :
  forall (ast : AstNode) (parsed_regex : ParsedRegex) (program : CompiledRegex.t),
    compile_parsed ast parsed_regex = Ok program ->
    size (CompiledRegex.bytecode program) < two32 ->
    (exists body,
        CompiledRegex.bytecode program
          = search_prefix ++ body ++ [CompiledRegex.code CompiledRegex.Match] /\
        compile_node (ranges parsed_regex) ast search_prefix
          = Ok (search_prefix ++ body, prefix_size)) /\
    CompiledRegex.save_count program = capture_count parsed_regex * 2.
Proof.
  intros ast parsed_regex program H Hsize. unfold compile_parsed in H.
  rewrite write_search_prefix_eq in H. cbn [bind] in H.
  bind_inv H. destruct r as [bc p]. injection H as <-.
  cbn [CompiledRegex.bytecode CompiledRegex.save_count] in *.
  split; [| reflexivity].
  destruct (compile_node_appends _ _ _ _ _ Hr) as [Hp [Hlen Hpre]].
  assert (Hbc : size bc < two32).
  { rewrite size_app in Hsize.
    change (size [0]) with 1 in Hsize. lia. }
  specialize (Hpre Hbc).
  exists (skipn (List.length search_prefix) bc).
  assert (Hsplit : bc = search_prefix ++ skipn (List.length search_prefix) bc).
  { rewrite <- Hpre at 1. symmetry. apply firstn_skipn. }
  split.
  - rewrite app_assoc, <- Hsplit. reflexivity.
  - rewrite <- Hsplit, Hr, Hp. reflexivity.
Qed.

(** The theorem at the pattern a. *)
Lemma compile_parsed_shape_witness :
  let ast := mkAstNode Sequence 0 (Quantifier.of_type Quantifier.One)
               [make_ast_node_value Literal 97] in
  let parsed_regex := mkParsedRegex 1 [] in
  let program := CompiledRegex.mk (search_prefix ++ [8; 0; 1; 97; 8; 1; 0]) 2 in
  compile_parsed ast parsed_regex = Ok program /\
  size (CompiledRegex.bytecode program) < two32 /\
  CompiledRegex.save_count program = capture_count parsed_regex * 2.
Proof.
  intros ast parsed_regex program.
  assert (H : compile_parsed ast parsed_regex = Ok program) by reflexivity.
  assert (Hs : size (CompiledRegex.bytecode program) < two32) by reflexivity.
  split; [exact H |]. split; [exact Hs |].
  exact (proj2 (compile_parsed_shape ast parsed_regex program H Hs)).
Defined.

(** ** The trees of the parser *)

Lemma well_formed_mono (k k' : Z) :
  k <= k' -> forall node, well_formed k node = true -> well_formed k' node = true.
Proof.
  intro Hk. induction node as [o v q cs IH] using AstNode_ind.
  cbn [well_formed]. intro H. apply andb_true_iff in H. destruct H as [Hshape Hcs].
  apply andb_true_iff. split.
  - destruct o; try exact Hshape;
      apply andb_true_iff in Hshape; destruct Hshape as [Hs Hv];
      apply andb_true_iff; (split; [exact Hs |]);
      apply Z.ltb_lt in Hv; apply Z.ltb_lt; lia.
  - rewrite forallb_forall in Hcs |- *. intros c Hc.
    rewrite Forall_forall in IH. apply (IH c Hc). apply (Hcs c Hc).
Qed.

Lemma well_formed_set_quantifier (k : Z) (node : AstNode) (q : Quantifier.t) :
  well_formed k (set_quantifier node q) = well_formed k node.
Proof. destruct node. reflexivity. Qed.

Lemma size_app_any {A : Type} (a b : list A) : size (a ++ b) = size a + size b.
Proof. unfold size. rewrite length_app. lia. Qed.

Lemma size_nonneg_any {A : Type} (a : list A) : 0 <= size a.
Proof. unfold size. lia. Qed.

Section ParserShape.

Variable re : list byte.

Lemma assertion_shape (pos pos' : Z) (node : AstNode) (k : Z) :
  Parser.assertion re pos = Ok (Some node, pos') -> well_formed k node = true.
Proof.
  intro H. unfold Parser.assertion in H.
  turn_cases H; injection H as <- _; reflexivity.
Qed.

Lemma atom_escape_shape (pos : Z) (node : AstNode) (k : Z) :
  Parser.atom_escape re pos = Ok node -> well_formed k node = true.
Proof.
  intro H. unfold Parser.atom_escape in H.
  turn_cases H; injection H as <-; reflexivity.
Qed.

Lemma character_class_shape (fuel : nat) (pr pr' : ParsedRegex) (pos pos' : Z)
  (node : AstNode) :
  Parser.character_class re fuel pr pos = Ok (node, pr', pos') ->
  well_formed (size (ranges pr')) node = true /\
  size (ranges pr') = size (ranges pr) + 1 /\
  capture_count pr' = capture_count pr.
Proof.
  intro H. unfold Parser.character_class in H.
  bind_inv H. bind_inv H. destruct r0 as [rs p1].
  destruct (p1 =? Parser.end_ re); [discriminate |].
  injection H as <- <- _. cbn [ranges capture_count].
  rewrite size_app_any. change (size [rs]) with 1.
  split; [| split; reflexivity].
  pose proof (size_nonneg_any (ranges pr)) as Hs.
  assert (Hm : 0 <= size (ranges pr) mod two32 <= size (ranges pr)).
  { split; [apply Z.mod_pos_bound; reflexivity |].
    apply Z.mod_le; [exact Hs | reflexivity]. }
  destruct r; cbn [make_ast_node_value make_ast_node well_formed List.length forallb];
    rewrite andb_true_r; apply andb_true_iff; (split; [apply andb_true_iff; split |]);
    try reflexivity; try (apply Z.leb_le; lia); apply Z.ltb_lt; lia.
Qed.

Section WithDisjunction.

Variable disj : ParsedRegex -> Z -> Codepoint -> outcome (AstNode * ParsedRegex * Z).

Hypothesis disj_shape :
  forall pr pos capture node pr' pos',
    disj pr pos capture = Ok (node, pr', pos') ->
    well_formed (size (ranges pr')) node = true /\ grows pr pr'.

Lemma atom_shape (fuel : nat) (pr pr' : ParsedRegex) (pos pos' : Z)
  (n : option AstNode) :
  Parser.atom re disj fuel pr pos = Ok (n, pr', pos') ->
  match n with
  | Some node => well_formed (size (ranges pr')) node = true
  | None => True
  end /\ grows pr pr'.
Proof.
  intros H. unfold Parser.atom in H.
  destruct (pos =? Parser.end_ re).
  { injection H as <- <- _. split; [exact I | split; lia]. }
  bind_inv H.
  destruct (r =? chr "."); [injection H as <- <- _; split; [reflexivity | split; lia] |].
  destruct (r =? chr "(").
  { bind_inv H. destruct r0 as [[content pr1] p1]. bind_inv H.
    destruct r0; [| discriminate]. injection H as <- <- _.
    apply disj_shape in Hr0. destruct Hr0 as [Hwf [Hs1 Hc1]].
    cbn [ranges capture_count] in Hs1, Hc1.
    split; [exact Hwf | split; lia]. }
  destruct (r =? chr "\").
  { bind_inv H. injection H as <- <- _.
    split; [apply (atom_escape_shape _ _ _ Hr0) | split; lia]. }
  destruct (r =? chr "[").
  { bind_inv H. destruct r0 as [[node pr1] p1]. injection H as <- <- _.
    apply character_class_shape in Hr0. destruct Hr0 as [Hwf [Hs Hc]].
    split; [exact Hwf | split; lia]. }
  destruct (contains "^$.*+?()[]{}|" r); injection H as <- <- _;
    (split; [| split; lia]); [exact I | reflexivity].
Qed.

Lemma term_shape (fuel : nat) (pr pr' : ParsedRegex) (pos pos' : Z)
  (n : option AstNode) :
  Parser.term re disj fuel pr pos = Ok (n, pr', pos') ->
  match n with
  | Some node => well_formed (size (ranges pr')) node = true
  | None => True
  end /\ grows pr pr'.
Proof.
  intros H. unfold Parser.term in H.
  bind_inv H. destruct r as [[a |] p1].
  - injection H as <- <- _.
    split; [apply (assertion_shape _ _ _ _ Hr) | split; lia].
  - bind_inv H. destruct r as [[[node |] pr1] p2].
    + bind_inv H. destruct r as [q p3]. injection H as <- <- _.
      apply (atom_shape _ _ _ _ _ _) in Hr0.
      rewrite well_formed_set_quantifier. exact Hr0.
    + injection H as <- <- _.
      apply (atom_shape _ _ _ _ _ _) in Hr0. exact Hr0.
Qed.

Lemma alternative_loop_shape :
  forall fuel res pr pos res' pr' pos',
      op res = Sequence ->
    forallb (well_formed (size (ranges pr))) (children res) = true ->
    Parser.alternative_loop re disj fuel res pr pos = Ok (res', pr', pos') ->
    op res' = Sequence /\
    forallb (well_formed (size (ranges pr'))) (children res') = true /\
    grows pr pr'.
Proof.
  induction fuel as [| fuel IH]; intros res pr pos res' pr' pos' Hop Hcs H;
    [discriminate |].
  cbn [Parser.alternative_loop] in H.
  bind_inv H. destruct r as [[[node |] pr1] p1].
  - destruct (term_shape _ _ _ _ _ _ Hr) as [Hwf [Hs Hc]].
    apply IH in H.
    + destruct H as [Hop' [Hcs' [Hs' Hc']]]. split; [exact Hop' |].
      split; [exact Hcs' | split; lia].
    + destruct res. exact Hop.
    + destruct res as [o v q cs]. cbn [push_child children op value quantifier] in *.
      rewrite forallb_app. apply andb_true_iff. split.
      * rewrite forallb_forall in Hcs |- *. intros c Hc'.
        apply (well_formed_mono _ _ Hs). apply (Hcs c Hc').
      * cbn [forallb]. rewrite Hwf. reflexivity.
  - injection H as <- <- _.
    destruct (term_shape _ _ _ _ _ _ Hr) as [_ [Hs Hc]].
    split; [exact Hop |]. split; [| split; lia].
    rewrite forallb_forall in Hcs |- *. intros c Hc'.
    apply (well_formed_mono _ _ Hs). apply (Hcs c Hc').
Qed.

Lemma alternative_shape (fuel : nat) (pr pr' : ParsedRegex) (pos pos' : Z)
  (node : AstNode) :
  Parser.alternative re disj fuel pr pos = Ok (node, pr', pos') ->
  op node = Sequence /\ children node <> [] /\
  well_formed (size (ranges pr')) node = true /\ grows pr pr'.
Proof.
  intros H. unfold Parser.alternative in H.
  bind_inv H. destruct r as [[res pr1] p1].
  apply alternative_loop_shape in Hr; [| reflexivity | reflexivity].
  destruct Hr as [Hop [Hcs Hg]].
  destruct res as [o v q cs]. cbn [children op] in *.
  destruct cs as [| c cs]; [discriminate |].
  injection H as <- <- _. cbn [op children].
  split; [exact Hop |]. split; [discriminate |]. split; [| exact Hg].
  subst o. cbn [well_formed List.length Nat.eqb negb andb]. exact Hcs.
Qed.

End WithDisjunction.

Lemma disjunction_shape :
  forall fuel pr pos capture node pr' pos',
      Parser.disjunction re fuel pr pos capture = Ok (node, pr', pos') ->
    well_formed (size (ranges pr')) node = true /\ grows pr pr' /\
    is_group node = true /\ value node = capture.
Proof.
  induction fuel as [| fuel IH]; intros pr pos capture node pr' pos' H; [discriminate |].
  cbn [Parser.disjunction] in H.
  bind_inv H. destruct r as [[node1 pr1] p1].
  apply alternative_shape in Hr;
    [| intros pr0 pos0 c0 n0 pr0' pos0' H0;
       destruct (IH _ _ _ _ _ _ H0) as [Hw [Hg _]]; split; assumption].
  destruct Hr as [Hop [Hne [Hwf [Hs Hc]]]].
  bind_inv H. destruct r.
  - bind_inv H. destruct r as [[rhs pr2] p2]. injection H as <- <- _.
    destruct (IH _ _ _ _ _ _ Hr0) as [Hwf2 [[Hs2 Hc2] _]].
    split; [| split; [split; lia | split; reflexivity]].
    destruct node1 as [o1 v1 q1 cs1].
    cbn [set_value push_child make_ast_node_op make_ast_node op value quantifier
         children app well_formed List.length Nat.eqb forallb andb].
    pose proof (well_formed_mono _ _ Hs2 _ Hwf) as Hwf1.
    cbn [well_formed] in Hwf1. rewrite Hwf1, Hwf2. reflexivity.
  - injection H as <- <- _.
    destruct node1 as [o1 v1 q1 cs1]. cbn [op] in Hop. subst o1.
    split; [exact Hwf |]. split; [split; assumption | split; reflexivity].
Qed.

End ParserShape.

Lemma parse_well_formed_tree (re : list byte) (fuel : nat) (ast : AstNode)
  (parsed_regex : ParsedRegex) :
  Parser.parse re fuel = Ok (ast, parsed_regex) ->
  well_formed (size (ranges parsed_regex)) ast = true.
Proof.
  intro H. unfold Parser.parse in H.
  bind_inv H. destruct r as [[node pr] p]. injection H as <- <-.
  apply disjunction_shape in Hr. apply Hr.
Qed.

(** X8: a tree [parse] returns is well formed: every Alternation has exactly
    two children, every Sequence at least one, every other node none, and
    every character class node holds an index of the table of classes; its
    root is a Sequence or an Alternation of capture 0, and the capture count
    is at least 1. *)
Theorem parse_well_formed :
  forall (re : list byte) (fuel : nat) (ast : AstNode) (parsed_regex : ParsedRegex),
    Parser.parse re fuel = Ok (ast, parsed_regex) ->
    well_formed (size (ranges parsed_regex)) ast = true /\
    is_group ast = true /\
    value ast = 0 /\
    1 <= capture_count parsed_regex.
Proof.
  intros re fuel ast parsed_regex H. unfold Parser.parse in H.
  bind_inv H. destruct r as [[node pr] p]. injection H as <- <-.
  apply disjunction_shape in Hr. destruct Hr as [Hwf [[_ Hc] [Hg Hv]]].
  cbn [capture_count] in Hc. auto.
Qed.

(** The theorem at the pattern (a|[bc])d. *)
Lemma parse_well_formed_witness :
  exists ast parsed_regex,
    Parser.parse (bytes_of_string "(a|[bc])d") 64 = Ok (ast, parsed_regex) /\
    well_formed (size (ranges parsed_regex)) ast = true /\
    is_group ast = true /\
    value ast = 0 /\
    1 <= capture_count parsed_regex.
Proof.
  destruct (Parser.parse (bytes_of_string "(a|[bc])d") 64) as [[ast pr] | | |] eqn:H;
    [| vm_compute in H; discriminate ..].
  exists ast, pr. split; [reflexivity |].
  exact (parse_well_formed _ _ _ _ H).
Defined.

(** ** The writer on the trees of the parser *)

Lemma safe_bind {A B : Type} (m : outcome A) (k : A -> outcome B) :
  safe m -> (forall a, m = Ok a -> safe (k a)) -> safe (bind m k).
Proof.
  destruct m as [a | e | f |]; simpl; intros Hm Hk; try contradiction.
  - apply Hk. reflexivity.
  - exact I.
Qed.

Lemma set_offset_safe (a b : list byte) (o : Offset) (v : Z) :
  pending a b o -> safe (set_offset b o v).
Proof.
  intros [n [Ho [Han Hnb]]]. unfold set_offset.
  pose proof (size_nonneg a) as Ha.
  assert (Hon : 0 <= o <= n).
  { subst o. unfold CompiledRegex.to_offset, two32.
    pose proof (Z.mod_pos_bound n 4294967296).
    pose proof (Z.mod_le n 4294967296). lia. }
  destruct ((0 <=? o) && (o + sizeof_Offset <=? size b)) eqn:E; [exact I |].
  apply andb_false_iff in E. destruct E as [E | E]; apply Z.leb_gt in E; lia.
Qed.

Lemma set_offsets_safe (a : list byte) (os : list Offset) (v : Z) :
  forall b, Forall (pending a b) os -> safe (set_offsets b os v).
Proof.
  induction os as [| o os IH]; intros b Hpend; simpl; [exact I |].
  inversion Hpend as [| o' os' Ho Hos]; subst.
  apply safe_bind; [apply (set_offset_safe a); exact Ho |].
  intros b1 Hb1. apply IH.
  eapply Forall_impl; [| exact Hos].
  intros o' Ho'. apply (pending_mono a b b1); [exact Ho' |].
  apply (set_offset_extends_self _ _ _ _ Hb1).
Qed.

Lemma repeat_loop_safe {S : Type} (I : S -> Prop) (body : S -> outcome S) :
  (forall s, I s -> safe (body s)) ->
  (forall s s', I s -> body s = Ok s' -> I s') ->
  forall n s, I s -> safe (repeat_loop n body s).
Proof.
  intros Hsafe Hkeep n. induction n as [| n IH]; intros s Hs; simpl; [exact Logic.I |].
  apply safe_bind; [apply Hsafe; exact Hs |].
  intros s' Hs'. apply IH. apply (Hkeep s s'); assumption.
Qed.

Lemma push_codepoint_safe (b : list byte) (cp : Codepoint) : safe (push_codepoint b cp).
Proof.
  unfold push_codepoint, utf8.dump.
  destruct (cp <=? 127); [exact I |].
  destruct (cp <=? 2047); [exact I |].
  destruct (cp <=? 65535); [exact I |].
  destruct (cp <=? 1114111); exact I.
Qed.

Lemma push_codepoints_safe (cps : list Codepoint) :
  forall b, safe (push_codepoints b cps).
Proof.
  induction cps as [| cp cps IH]; intro b; simpl; [exact I |].
  apply safe_bind; [apply push_codepoint_safe | intros b1 _; apply IH].
Qed.

(** [compile_node] neither asserts nor writes out of range when the writer of
    the node does not. *)
Lemma compile_quantified_safe (q : Quantifier.t)
  (inner : list byte -> outcome (list byte * Offset)) :
  (forall b, safe (inner b)) ->
  (forall b b' o, inner b = Ok (b', o) -> extends b b') ->
  forall bc, safe (compile_quantified q inner bc).
Proof.
  intros Hsafe Hinner bc. unfold compile_quantified.
  set (stage := if Quantifier.allows_none q
                then let '(bc0, o0) :=
                       alloc_offset (bc ++ [CompiledRegex.code CompiledRegex.Split_PrioritizeParent])
                     in (bc0, [o0])
                else (bc, [])).
  assert (HA : extends bc (fst stage) /\ Forall (pending bc (fst stage)) (snd stage)).
  { unfold stage. destruct (Quantifier.allows_none q).
    - destruct (alloc_offset (bc ++ [CompiledRegex.code CompiledRegex.Split_PrioritizeParent]))
        as [ba oa] eqn:Halloc.
      simpl. split.
      + apply (extends_alloc _ _ _ _ _ Halloc), extends_refl.
      + constructor; [| constructor].
        apply (pending_after_op _ _ _ _ _ _ Halloc); apply extends_refl.
    - split; [apply extends_refl | constructor]. }
  destruct stage as [b1 offs1]. simpl in HA. destruct HA as [Hb1 Hoffs1].
  cbv beta iota.
  apply safe_bind; [apply Hsafe |]. intros [b2 p2] Hr.
  pose proof (Hinner _ _ _ Hr) as Hb2.
  apply safe_bind.
  { apply (repeat_loop_safe (fun _ => True)); [| trivial | trivial].
    intros s _. apply Hsafe. }
  intros [b3 inner_pos] Hr0.
  assert (Hb3 : extends b2 b3).
  { refine (repeat_loop_invariant (fun s => extends b2 (fst s)) _ _ _
                                    (b2, p2) (b3, inner_pos) _ Hr0).
    - intros s [x y] Hs Hbody.
      apply (extends_trans _ (fst s)); [exact Hs | apply (Hinner _ _ _ Hbody)].
    - apply extends_refl. }
  assert (Hbc3 : extends bc b3).
  { apply (extends_trans bc b1); [exact Hb1 |].
    apply (extends_trans b1 b2); assumption. }
  assert (Hoffs3 : Forall (pending bc b3) offs1).
  { apply (Forall_pending_mono bc b1); [exact Hoffs1 |].
    apply (extends_trans b1 b2); assumption. }
  assert (Hkeep : forall (s s' : list byte * list Offset),
             extends bc (fst s) /\ Forall (pending bc (fst s)) (snd s) ->
             (let '(bc0, o0) :=
                alloc_offset (fst s ++ [CompiledRegex.code CompiledRegex.Split_PrioritizeParent]) in
              '(bc1, _) <- inner bc0 ;; Ok (bc1, snd s ++ [o0])) = Ok s' ->
             extends bc (fst s') /\ Forall (pending bc (fst s')) (snd s')).
  { intros [sb so] s' [Hsb Hso] Hbody. simpl in Hsb, Hso.
    cbn beta iota delta [fst snd] in Hbody.
    destruct (alloc_offset (sb ++ [CompiledRegex.code CompiledRegex.Split_PrioritizeParent]))
      as [ba oa] eqn:Halloc.
    bind_inv Hbody. destruct r as [bi pi]. injection Hbody as <-. simpl.
    pose proof (Hinner _ _ _ Hr1) as Hbi.
    pose proof (extends_alloc _ _ _ _ _ Halloc (extends_refl sb)) as Hba.
    split.
    + apply (extends_trans bc sb); [exact Hsb |].
      apply (extends_trans sb ba); assumption.
    + apply Forall_app. split.
      * apply (Forall_pending_mono bc sb); [exact Hso |].
        apply (extends_trans sb ba); assumption.
      * constructor; [| constructor].
        apply (pending_after_op _ _ _ _ _ _ Halloc Hsb Hbi). }
  apply safe_bind.
  { destruct (Quantifier.allows_infinite_repeat q).
    - destruct (alloc_offset (b3 ++ [CompiledRegex.code CompiledRegex.Split_PrioritizeChild]))
        as [ba oa] eqn:Halloc.
      apply safe_bind; [| intros; exact I].
      apply (set_offset_safe bc).
      apply (pending_after_op _ _ _ _ _ _ Halloc Hbc3 (extends_refl ba)).
    - apply (repeat_loop_safe
               (fun s => extends bc (fst s) /\ Forall (pending bc (fst s)) (snd s)));
        [| exact Hkeep | split; assumption].
      intros [sb so] _. cbn beta iota delta [fst snd].
      destruct (alloc_offset (sb ++ [CompiledRegex.code CompiledRegex.Split_PrioritizeParent]))
        as [ba oa].
      apply safe_bind; [apply Hsafe |]. intros [bi pi] _. exact I. }
  intros [b4 offs4] Hr1.
  assert (H4 : Forall (pending bc b4) offs4).
  { destruct (Quantifier.allows_infinite_repeat q).
    - destruct (alloc_offset (b3 ++ [CompiledRegex.code CompiledRegex.Split_PrioritizeChild]))
        as [ba oa] eqn:Halloc.
      bind_inv Hr1. injection Hr1 as <- <-.
      eapply Forall_impl; [| exact Hoffs3].
      intros o' Ho'. apply (pending_mono bc b3); [exact Ho' |].
      pose proof (extends_length _ _ (extends_alloc _ _ _ _ _ Halloc (extends_refl b3))).
      pose proof (set_offset_extends_self _ _ _ _ Hr2). lia.
    - refine (proj2 (repeat_loop_invariant
               (fun s => extends bc (fst s) /\ Forall (pending bc (fst s)) (snd s))
               _ Hkeep _ (b3, offs1) (b4, offs4) _ Hr1)).
      split; assumption. }
  apply safe_bind; [apply (set_offsets_safe bc); exact H4 |].
  intros b5 _. exact I.
Qed.

Lemma compile_children_safe
  (f : AstNode -> list byte -> outcome (list byte * Offset)) (cs : list AstNode) :
  Forall (fun c => forall b, safe (f c b)) cs ->
  forall b, safe (compile_children f cs b).
Proof.
  induction 1 as [| c cs Hc Hcs IH]; intro b; simpl; [exact I |].
  apply safe_bind; [apply Hc |]. intros [b1 p1] _. apply IH.
Qed.

(** [compile_node_inner] on a well formed tree neither asserts nor reaches
    out of the program or of the table of character classes. *)
Lemma compile_node_inner_safe (parsed_ranges : list (list CharRange_)) :
  forall node,
    well_formed (size parsed_ranges) node = true ->
    forall bc, safe (compile_node_inner parsed_ranges node bc).
Proof.
  induction node as [o v q cs IH] using AstNode_ind.
  intros Hwf bc.
  cbn [well_formed] in Hwf. apply andb_true_iff in Hwf. destruct Hwf as [Hshape Hcs].
  assert (Hchildren :
            Forall (fun c => forall b,
                      safe (compile_quantified (quantifier c)
                              (compile_node_inner parsed_ranges c) b)) cs).
  { rewrite forallb_forall in Hcs. rewrite Forall_forall in IH |- *.
    intros c Hc b. apply compile_quantified_safe.
    - apply (IH c Hc). apply (Hcs c Hc).
    - apply compile_node_inner_extends. }
  cbn [compile_node_inner op value quantifier children].
  set (capture := match o with Alternation | Sequence => v | _ => minus_one end).
  set (b0 := if negb (capture =? minus_one)%Z
             then bc ++ [CompiledRegex.code CompiledRegex.Save; to_char (capture * 2)]
             else bc).
  assert (Hb0 : extends bc b0).
  { unfold b0. destruct (negb (capture =? minus_one)%Z);
      [apply extends_app | apply extends_refl]. }
  clearbody b0.
  assert (Hranges : forall w, (List.length cs =? 0)%nat && (0 <=? w) && (w <? size parsed_ranges) = true ->
                              exists rs, at_index parsed_ranges w = Some rs).
  { intros w Hw. apply andb_true_iff in Hw. destruct Hw as [Hw Hw2].
    apply andb_true_iff in Hw. destruct Hw as [_ Hw1].
    apply Z.leb_le in Hw1. apply Z.ltb_lt in Hw2.
    unfold at_index. destruct (w <? 0) eqn:E; [apply Z.ltb_lt in E; lia |].
    destruct (nth_error parsed_ranges (Z.to_nat w)) as [rs |] eqn:En; [exists rs; reflexivity |].
    apply nth_error_None in En. unfold size in Hw2. lia. }
  apply safe_bind.
  - destruct o; try exact I.
    + apply safe_bind; [apply push_codepoint_safe | intros; exact I].
    + destruct (Hranges v Hshape) as [rs ->].
      apply safe_bind; [apply push_codepoints_safe | intros b1 _].
      apply safe_bind; [apply push_codepoints_safe | intros; exact I].
    + destruct (Hranges v Hshape) as [rs ->].
      apply safe_bind; [apply push_codepoints_safe | intros b1 _].
      apply safe_bind; [apply push_codepoints_safe | intros; exact I].
    + apply safe_bind; [apply compile_children_safe; exact Hchildren | intros; exact I].
    + destruct cs as [| lhs [| rhs [| x cs]]]; try discriminate.
      inversion Hchildren as [| c1 l1 Hlhs Hrest]; subst.
      inversion Hrest as [| c2 l2 Hrhs _]; subst.
      destruct (alloc_offset (b0 ++ [CompiledRegex.code CompiledRegex.Split_PrioritizeParent]))
        as [ba oa] eqn:Halloc.
      apply safe_bind; [apply Hlhs |]. intros [bl pl] Hl.
      destruct (alloc_offset (bl ++ [CompiledRegex.code CompiledRegex.Jump]))
        as [bj oj] eqn:Hjump.
      apply safe_bind; [apply Hrhs |]. intros [br pr] Hr.
      apply safe_bind; [| intros; exact I].
      apply compile_quantified_extends in Hl; [| apply compile_node_inner_extends].
      apply compile_quantified_extends in Hr; [| apply compile_node_inner_extends].
      apply (set_offset_safe bc).
      apply (pending_after_op _ _ _ _ _ _ Halloc Hb0).
      apply (extends_trans ba bl); [exact Hl |].
      apply (extends_trans bl bj); [| exact Hr].
      apply (extends_alloc _ _ _ _ _ Hjump), extends_refl.
  - intros [b1 offs] Hr.
    assert (Hoffs : Forall (pending bc b1) offs).
    { destruct o.
      - bind_inv Hr. injection Hr as <- <-. constructor.
      - injection Hr as <- <-. constructor.
      - destruct (at_index parsed_ranges v) as [rs |]; [| discriminate].
        bind_inv Hr. bind_inv Hr. injection Hr as <- <-. constructor.
      - destruct (at_index parsed_ranges v) as [rs |]; [| discriminate].
        bind_inv Hr. bind_inv Hr. injection Hr as <- <-. constructor.
      - bind_inv Hr. injection Hr as <- <-. constructor.
      - destruct cs as [| lhs [| rhs [| x cs]]]; try discriminate.
        destruct (alloc_offset (b0 ++ [CompiledRegex.code CompiledRegex.Split_PrioritizeParent]))
          as [ba oa] eqn:Halloc.
        bind_inv Hr. destruct r as [bl pl].
        destruct (alloc_offset (bl ++ [CompiledRegex.code CompiledRegex.Jump]))
          as [bj oj] eqn:Hjump.
        bind_inv Hr. destruct r as [br pr].
        bind_inv Hr. injection Hr as <- <-.
        apply compile_quantified_extends in Hr0; [| apply compile_node_inner_extends].
        apply compile_quantified_extends in Hr1; [| apply compile_node_inner_extends].
        pose proof (extends_alloc _ _ _ _ _ Halloc Hb0) as Hba.
        pose proof (extends_trans _ _ _ Hba Hr0) as Hbcl.
        constructor; [| constructor].
        apply (pending_mono bc br).
        + apply (pending_after_op _ _ _ _ _ _ Hjump Hbcl Hr1).
        + apply (set_offset_extends_self _ _ _ _ Hr2).
      - injection Hr as <- <-. constructor.
      - injection Hr as <- <-. constructor.
      - injection Hr as <- <-. constructor.
      - injection Hr as <- <-. constructor.
      - injection Hr as <- <-. constructor.
      - injection Hr as <- <-. constructor. }
    apply safe_bind; [apply (set_offsets_safe bc); exact Hoffs |].
    intros b2 _. exact I.
Qed.

Lemma compile_parsed_safe (ast : AstNode) (parsed_regex : ParsedRegex) :
  well_formed (size (ranges parsed_regex)) ast = true ->
  safe (compile_parsed ast parsed_regex).
Proof.
  intro Hwf. unfold compile_parsed.
  rewrite write_search_prefix_eq. cbn [bind].
  apply safe_bind; [| intros [bc p] _; exact I].
  unfold compile_node. apply compile_quantified_safe.
  - apply compile_node_inner_safe. exact Hwf.
  - apply compile_node_inner_extends.
Qed.

(** X9: on a tree the parser returned, the writer checks no assertion that
    fails and makes no access out of range: every fault of [compile] is a
    fault of [parse], raised before a byte is written. *)
Theorem compile_faults_in_the_parser :
  forall (re : list byte) (fuel : nat) (f : fault),
    compile fuel re = Fault f -> Parser.parse re fuel = Fault f.
Proof.
  intros re fuel f H. unfold compile in H.
  destruct (Parser.parse re fuel) as [[ast parsed_regex] | e | f' |] eqn:Hp;
    cbn [bind] in H; try discriminate.
  - pose proof (compile_parsed_safe ast parsed_regex) as Hsafe.
    pose proof (parse_well_formed_tree re fuel ast parsed_regex Hp) as Hwf.
    specialize (Hsafe Hwf). rewrite H in Hsafe. contradiction.
  - injection H as ->. reflexivity.
Qed.

(** The theorem at the pattern a{3000000000}: the count leaves the range of
    [int] in [read_int], at [res * 10] before the last digit. *)
Lemma compile_faults_in_the_parser_witness :
  compile 64 (bytes_of_string "a{3000000000}") = Fault SignedOverflow /\
  Parser.parse (bytes_of_string "a{3000000000}") 64 = Fault SignedOverflow.
Proof.
  assert (H : compile 64 (bytes_of_string "a{3000000000}") = Fault SignedOverflow)
    by (vm_compute; reflexivity).
  split; [exact H |].
  exact (compile_faults_in_the_parser _ _ _ H).
Defined.

(** ** Patterns the parser rejects *)

Lemma at_index_inside {A : Type} (l : list A) (i : Z) (x : A) :
  at_index l i = Some x -> 0 <= i < size l.
Proof.
  unfold at_index, size. destruct (i <? 0) eqn:E; [discriminate |].
  apply Z.ltb_ge in E. intro H.
  assert (Hn : nth_error l (Z.to_nat i) <> None) by (rewrite H; discriminate).
  apply nth_error_Some in Hn. lia.
Qed.

(** [*pos] on a byte below 128 is that byte. *)
Lemma deref_ascii (re : list byte) (pos : Z) (c : byte) :
  at_index re pos = Some c -> Z.land c 128 = 0 -> Parser.deref re pos = Ok c.
Proof.
  intros Hat Hc.
  unfold Parser.deref, utf8.read_codepoint. rewrite Hat, Hc. reflexivity.
Qed.

(** At the end of the pattern, or at a character that starts neither an
    assertion nor an atom, [term] returns no node and stays where it is. *)
Lemma term_none (re : list byte)
  (disj : ParsedRegex -> Z -> Codepoint -> outcome (AstNode * ParsedRegex * Z))
  (fuel : nat) (pr : ParsedRegex) (pos : Z) :
  pos = size re \/
  (exists c, at_index re pos = Some c /\ contains "*+?)]{}|" c = true) ->
  Parser.term re disj fuel pr pos = Ok (None, pr, pos).
Proof.
  intros [Hend | [c [Hat Hc]]].
  - unfold Parser.term, Parser.assertion, Parser.atom, Parser.end_.
    subst pos. rewrite Z.eqb_refl. reflexivity.
  - pose proof (at_index_inside _ _ _ Hat) as Hpos.
    assert (Hne : (pos =? Parser.end_ re) = false)
      by (unfold Parser.end_; apply Z.eqb_neq; lia).
    assert (Hd : Parser.deref re pos = Ok c).
    { apply deref_ascii; [exact Hat |].
      unfold contains in Hc. cbn in Hc.
      repeat (apply orb_true_iff in Hc; destruct Hc as [Hc | Hc];
              [apply Z.eqb_eq in Hc; subst c; reflexivity |]).
      discriminate. }
    unfold Parser.term, Parser.assertion, Parser.atom.
    rewrite Hne, Hd. cbn [bind].
    unfold contains in Hc. cbn in Hc.
    repeat (apply orb_true_iff in Hc; destruct Hc as [Hc | Hc];
            [apply Z.eqb_eq in Hc; subst c; reflexivity |]).
    discriminate.
Qed.

(** X10: a pattern that is empty, or that begins with a quantifier
    character, a closing bracket, a bar or a NUL (the elements of the
    literal handed to [contains], which no assertion and no atom starts
    with), is rejected with the parse error of [alternative], whatever
    follows. *)
Theorem parse_rejects_leading_operator :
  forall (re : list byte) (fuel : nat),
    re = [] \/ (exists c rest, re = c :: rest /\ contains "*+?)]{}|" c = true) ->
    Parser.parse re (2 + fuel) = Throw ParseError /\
    compile (2 + fuel) re = Throw ParseError.
Proof.
  intros re fuel H.
  assert (Hp : Parser.parse re (2 + fuel) = Throw ParseError).
  { unfold Parser.parse.
    change (2 + fuel)%nat with (S (S fuel)).
    remember (S fuel) as fuel1 eqn:Hfuel.
    cbn [Parser.disjunction]. subst fuel1.
    unfold Parser.alternative. cbn [Parser.alternative_loop].
    rewrite term_none; [reflexivity |].
    destruct H as [-> | [c [rest [-> Hc]]]]; [left; reflexivity |].
    right. exists c. split; [reflexivity | exact Hc]. }
  split; [exact Hp |].
  unfold compile. rewrite Hp. reflexivity.
Qed.

(** The theorem at the pattern *a. *)
Lemma parse_rejects_leading_operator_witness :
  Parser.parse (bytes_of_string "*a") 2 = Throw ParseError /\
  compile 2 (bytes_of_string "*a") = Throw ParseError.
Proof.
  apply (parse_rejects_leading_operator (bytes_of_string "*a") 0).
  right. exists 42, [97]. split; reflexivity.
Defined.

(** ** Patterns of plain characters *)

Lemma land_128 (b : byte) : is_ascii b -> Z.land b 128 = 0.
Proof.
  intros [H0 H1]. apply Z.bits_inj'. intros i Hi.
  rewrite Z.land_spec, Z.bits_0. change 128 with (2 ^ 7).
  rewrite Z.pow2_bits_eqb by lia.
  destruct (Z.eqb_spec 7 i) as [<- | Hne]; [| apply andb_false_r].
  rewrite andb_true_r. apply Z.testbit_false; [lia |].
  rewrite Z.div_small by (change (2 ^ 7) with 128; lia). reflexivity.
Qed.

Lemma read_codepoint_ascii (s : list byte) (it : Z) (c : byte) :
  at_index s it = Some c -> is_ascii c -> utf8.read_codepoint s it = (inl c, it + 1).
Proof.
  intros Hat Hc. unfold utf8.read_codepoint. rewrite Hat, (land_128 c Hc). reflexivity.
Qed.

Lemma to_next_ascii (s : list byte) (it : Z) (c : byte) :
  at_index s it = Some c -> is_ascii c -> utf8.to_next s it = it + 1.
Proof.
  intros Hat Hc. unfold utf8.to_next. rewrite Hat, (land_128 c Hc). reflexivity.
Qed.

Lemma at_index_middle {A : Type} (pre suf : list A) (x : A) :
  at_index (pre ++ x :: suf) (size pre) = Some x.
Proof.
  unfold at_index, size.
  destruct (Z.of_nat (List.length pre) <? 0) eqn:E; [apply Z.ltb_lt in E; lia |].
  rewrite Nat2Z.id, nth_error_app2 by lia. rewrite Nat.sub_diag. reflexivity.
Qed.

(** A codepoint a string literal does not contain is none of its
    characters, and not the NUL that ends it. *)
Lemma not_contained (s : string) (c x : Codepoint) :
  contains s c = false -> In x (bytes_of_string s) -> (c =? x) = false.
Proof.
  intros Hc Hin. unfold contains in Hc.
  destruct (c =? x) eqn:E; [| reflexivity].
  assert (Hex : existsb (Z.eqb c) (bytes_of_string s ++ [0]) = true).
  { apply existsb_exists. exists x. split; [| exact E].
    apply in_or_app. left. exact Hin. }
  rewrite Hex in Hc. discriminate.
Qed.

Lemma not_contained_nul (s : string) (c : Codepoint) : contains s c = false -> c <> 0.
Proof.
  intros Hc ->. unfold contains in Hc.
  assert (Hex : existsb (Z.eqb 0) (bytes_of_string s ++ [0]) = true).
  { apply existsb_exists. exists 0. split; [| reflexivity].
    apply in_or_app. right. left. reflexivity. }
  rewrite Hex in Hc. discriminate.
Qed.

Lemma not_among (l : list byte) (c x : Codepoint) :
  ~ In c l -> In x l -> (c =? x) = false.
Proof.
  intros Hc Hin. apply Z.eqb_neq. intros ->. exact (Hc Hin).
Qed.

(** A plain character is not the NUL. *)
Lemma plain_not_nul (c : byte) : plain c -> c <> 0.
Proof. intros [_ Hc]. exact (not_contained_nul _ c Hc). Qed.

(** A plain character is none of the syntax characters. *)
Lemma plain_not (c : byte) (s : ascii) :
  plain c -> In (chr s) (bytes_of_string "^$\.*+?()[]{}|") -> (c =? chr s) = false.
Proof. intros [_ Hc]. apply not_contained. exact Hc. Qed.

Lemma plain_no_quantifier (c : byte) :
  plain c -> is_ascii c /\ ~ In c (bytes_of_string "*+?{").
Proof.
  intro Hc. split; [apply Hc |].
  intro Hin. destruct Hc as [_ Hc].
  assert (Hself : (c =? c) = false).
  { apply (not_contained _ c c Hc). cbn in Hin |- *. tauto. }
  rewrite Z.eqb_refl in Hself. discriminate.
Qed.

(** A closing bracket, and the NUL that ends the literal of the brackets,
    is below 128, no quantifier, no bar, and no start of a term. *)
Lemma closing_bracket (c : byte) :
  contains ")]}" c = true ->
  is_ascii c /\ ~ In c (bytes_of_string "*+?{") /\ contains "*+?)]{}|" c = true /\
  (c =? chr "|") = false.
Proof.
  unfold contains. cbn [bytes_of_string list_ascii_of_string map existsb app].
  intro Hc.
  repeat (apply orb_true_iff in Hc; destruct Hc as [Hc | Hc];
          [apply Z.eqb_eq in Hc; subst c; unfold is_ascii; cbn; repeat split; lia |]).
  discriminate.
Qed.

Ltac syntax_character := cbn; tauto.

Section PlainPattern.

Variable re : list byte.
Variable disj : ParsedRegex -> Z -> Codepoint -> outcome (AstNode * ParsedRegex * Z).

(** [quantifier] at the end of the pattern or before a character that is
    none of * + ? {: the atom is taken once and nothing is read. *)
Lemma quantifier_one (fuel : nat) (pos : Z) :
  pos = size re \/
  (exists c, at_index re pos = Some c /\ is_ascii c /\ ~ In c (bytes_of_string "*+?{")) ->
  Parser.quantifier re fuel pos = Ok (Quantifier.of_type Quantifier.One, pos).
Proof.
  intros [Hend | [c [Hat [Hascii Hc]]]]; unfold Parser.quantifier, Parser.end_.
  - subst pos. rewrite Z.eqb_refl. reflexivity.
  - pose proof (at_index_inside _ _ _ Hat) as Hpos.
    destruct (pos =? size re) eqn:E; [apply Z.eqb_eq in E; lia |].
    rewrite (deref_ascii re pos c Hat (land_128 c Hascii)). cbn [bind].
    rewrite (not_among _ c (chr "*") Hc), (not_among _ c (chr "+") Hc),
            (not_among _ c (chr "?") Hc), (not_among _ c (chr "{") Hc)
      by syntax_character.
    reflexivity.
Qed.

(** [term] at a plain character makes a Literal of it and moves one byte on. *)
Lemma term_plain (fuel : nat) (pr : ParsedRegex) (pos : Z) (c : byte) :
  at_index re pos = Some c -> plain c ->
  pos + 1 = size re \/
  (exists c', at_index re (pos + 1) = Some c' /\ is_ascii c' /\
              ~ In c' (bytes_of_string "*+?{")) ->
  Parser.term re disj fuel pr pos = Ok (Some (literal_node c), pr, pos + 1).
Proof.
  intros Hat Hc Hnext.
  pose proof (at_index_inside _ _ _ Hat) as Hpos.
  assert (Hne : (pos =? Parser.end_ re) = false)
    by (unfold Parser.end_; apply Z.eqb_neq; lia).
  pose proof (deref_ascii re pos c Hat (land_128 c (proj1 Hc))) as Hd.
  assert (Hn : Parser.next re pos = pos + 1)
    by (apply (to_next_ascii re pos c Hat (proj1 Hc))).
  unfold Parser.term, Parser.assertion, Parser.atom.
  rewrite Hne, Hd. cbn [bind].
  rewrite (plain_not c "^" Hc), (plain_not c "$" Hc), (plain_not c "\" Hc)
    by syntax_character.
  cbn [bind].
  rewrite (plain_not c "." Hc), (plain_not c "(" Hc), (plain_not c "[" Hc)
    by syntax_character.
  assert (Hcontains : contains "^$.*+?()[]{}|" c = false).
  { unfold contains. apply not_true_is_false. intro Hex.
    apply existsb_exists in Hex. destruct Hex as [x [Hin Hx]].
    destruct Hc as [_ Hc]. unfold contains in Hc.
    assert (Hex : existsb (Z.eqb c) (bytes_of_string "^$\.*+?()[]{}|" ++ [0]) = true).
    { apply existsb_exists. exists x. split; [| exact Hx]. cbn in Hin |- *. tauto. }
    rewrite Hex in Hc. discriminate. }
  rewrite Hcontains, Hn. cbn [bind].
  rewrite (quantifier_one fuel (pos + 1) Hnext). reflexivity.
Qed.

End PlainPattern.

(** The loop of [alternative] over a run of plain characters up to the end
    of the pattern or a closing bracket: one Literal child per character. *)
Lemma alternative_loop_plain
  (disj : ParsedRegex -> Z -> Codepoint -> outcome (AstNode * ParsedRegex * Z))
  (pr : ParsedRegex) (tail : list byte) :
  ends_run tail ->
  forall (suf pre : list byte) (res : AstNode) (fuel : nat),
    Forall plain suf -> (List.length suf < fuel)%nat ->
    Parser.alternative_loop (pre ++ suf ++ tail) disj fuel res pr (size pre)
    = Ok (fold_left push_child (map literal_node suf) res, pr, size pre + size suf).
Proof.
  intro Htail.
  assert (Hstop : forall pre : list byte,
             size pre = size (pre ++ tail) \/
             (exists c, at_index (pre ++ tail) (size pre) = Some c /\
                        is_ascii c /\ ~ In c (bytes_of_string "*+?{") /\
                        contains "*+?)]{}|" c = true)).
  { intro pre. destruct Htail as [-> | [c [rest [-> Hc]]]].
    - left. rewrite app_nil_r. reflexivity.
    - right. exists c. destruct (closing_bracket c Hc) as [H1 [H2 [H3 _]]].
      split; [apply at_index_middle |].
      split; [exact H1 |]. split; [exact H2 | exact H3]. }
  induction suf as [| c suf IH]; intros pre res fuel Hplain Hfuel;
    (destruct fuel as [| fuel]; [lia |]); cbn [Parser.alternative_loop].
  - cbn [app]. rewrite term_none.
    + cbn [bind map fold_left]. change (size []) with 0. rewrite Z.add_0_r. reflexivity.
    + destruct (Hstop pre) as [H | [c [Hat [_ [_ Hc]]]]]; [left; exact H |].
      right. exists c. split; assumption.
  - inversion Hplain as [| c' suf' Hc Hsuf]; subst.
    assert (Hshift : pre ++ (c :: suf) ++ tail = (pre ++ [c]) ++ suf ++ tail)
      by (rewrite <- app_assoc; reflexivity).
    assert (Hsize : size (pre ++ [c]) = size pre + 1)
      by (unfold size; rewrite length_app; cbn [List.length]; lia).
    rewrite (term_plain (pre ++ (c :: suf) ++ tail) disj fuel pr (size pre) c).
    + cbn [bind map fold_left]. rewrite Hshift, <- Hsize.
      rewrite IH by (try exact Hsuf; cbn [List.length] in Hfuel; lia).
      f_equal. f_equal. unfold size. cbn [List.length]. rewrite length_app.
      cbn [List.length]. lia.
    + apply at_index_middle.
    + exact Hc.
    + rewrite Hshift, <- Hsize.
      destruct suf as [| c1 suf1].
      * cbn [app]. destruct (Hstop (pre ++ [c])) as [H | [c0 [Hat [H1 [H2 _]]]]];
          [left; exact H |].
        right. exists c0. split; [exact Hat |]. split; [exact H1 | exact H2].
      * right. exists c1. inversion Hsuf; subst.
        split; [apply at_index_middle | apply plain_no_quantifier; assumption].
Qed.

Lemma fold_push_child (cs : list AstNode) :
  forall res, fold_left push_child cs res
              = mkAstNode (op res) (value res) (quantifier res) (children res ++ cs).
Proof.
  induction cs as [| c cs IH]; intro res; cbn [fold_left].
  - rewrite app_nil_r. destruct res; reflexivity.
  - rewrite IH. unfold push_child. cbn [op value quantifier children].
    rewrite <- app_assoc. reflexivity.
Qed.

(** [parse] on a run of plain characters up to the end of the pattern or
    a closing bracket: what follows the bracket is not read. *)
Lemma parse_plain_run (lits tail : list byte) (fuel : nat) :
  lits <> [] -> Forall plain lits -> ends_run tail ->
  Parser.parse (lits ++ tail) (List.length lits + 3 + fuel)
  = Ok (literal_ast lits, mkParsedRegex 1 []).
Proof.
  intros Hne Hplain Htail. unfold Parser.parse.
  replace (List.length lits + 3 + fuel)%nat with (S (S (List.length lits + 1 + fuel))) by lia.
  remember (S (List.length lits + 1 + fuel)) as fuel1 eqn:Hfuel.
  cbn [Parser.disjunction]. unfold Parser.alternative.
  pose proof (alternative_loop_plain (Parser.disjunction (lits ++ tail) fuel1)
                (mkParsedRegex 1 []) tail Htail
                lits [] (make_ast_node_op Sequence) fuel1 Hplain) as Hloop.
  cbn [app] in Hloop. change (size []) with 0 in Hloop.
  rewrite Hloop by lia. cbn [bind].
  rewrite fold_push_child. cbn [make_ast_node_op make_ast_node op value quantifier children app].
  destruct (map literal_node lits) as [| n ns] eqn:Hmap.
  { destruct lits; [contradiction | discriminate]. }
  cbn [bind].
  assert (Hbar : (if 0 + size lits =? Parser.end_ (lits ++ tail) then Ok false
                  else c <- Parser.deref (lits ++ tail) (0 + size lits) ;;
                       Ok (c =? chr "|")) = Ok false).
  { rewrite Z.add_0_l. unfold Parser.end_.
    destruct Htail as [-> | [c [rest [-> Hc]]]].
    - rewrite app_nil_r, Z.eqb_refl. reflexivity.
    - destruct (closing_bracket c Hc) as [H1 [_ [_ H4]]].
      pose proof (at_index_middle lits rest c) as Hat.
      pose proof (at_index_inside _ _ _ Hat) as Hin.
      destruct (size lits =? size (lits ++ c :: rest)) eqn:E; [apply Z.eqb_eq in E; lia |].
      rewrite (deref_ascii _ _ c Hat (land_128 c H1)). cbn [bind]. rewrite H4. reflexivity. }
  rewrite Hbar. cbn [bind].
  unfold set_value, literal_ast. cbn [op value quantifier children].
  rewrite Hmap. reflexivity.
Qed.

(** [parse] on a pattern of plain characters. *)
Lemma parse_plain (lits : list byte) (fuel : nat) :
  lits <> [] -> Forall plain lits ->
  Parser.parse lits (List.length lits + 3 + fuel) = Ok (literal_ast lits, mkParsedRegex 1 []).
Proof.
  intros Hne Hplain.
  pose proof (parse_plain_run lits [] fuel Hne Hplain (or_introl eq_refl)) as H.
  rewrite app_nil_r in H. exact H.
Qed.

Lemma compile_quantified_One (inner : list byte -> outcome (list byte * Offset))
  (bc : list byte) :
  compile_quantified (Quantifier.of_type Quantifier.One) inner bc
  = ('(b, _) <- inner bc ;; Ok (b, to_offset (size bc))).
Proof.
  unfold compile_quantified.
  change (Quantifier.allows_none (Quantifier.of_type Quantifier.One)) with false.
  change (Quantifier.allows_infinite_repeat (Quantifier.of_type Quantifier.One)) with false.
  change (Z.to_nat (Quantifier.min (Quantifier.of_type Quantifier.One) - 1)) with 0%nat.
  change (Z.to_nat (Quantifier.max (Quantifier.of_type Quantifier.One)
                    - Z.max 1 (Quantifier.min (Quantifier.of_type Quantifier.One))))
    with 0%nat.
  cbv iota beta.
  destruct (inner bc) as [[b p] | e | f |]; reflexivity.
Qed.

Lemma compile_children_literals (parsed_ranges : list (list CharRange_)) :
  forall (lits : list byte) (bc : list byte),
    Forall is_ascii lits ->
    compile_children
      (fun child => compile_quantified (quantifier child)
                      (compile_node_inner parsed_ranges child))
      (map literal_node lits) bc
    = Ok (bc ++ literal_code lits).
Proof.
  induction lits as [| c lits IH]; intros bc Hascii; cbn [map compile_children].
  - unfold literal_code. cbn [flat_map]. rewrite app_nil_r. reflexivity.
  - inversion Hascii as [| c' l' Hc Hl]; subst.
    cbn [literal_node make_ast_node_value make_ast_node quantifier].
    rewrite compile_quantified_One.
    unfold literal_node at 1, make_ast_node_value, make_ast_node.
    cbn [compile_node_inner op value quantifier children].
    unfold push_codepoint, utf8.dump.
    destruct Hc as [Hc0 Hc1].
    destruct (c <=? 127) eqn:E; [| apply Z.leb_gt in E; lia].
    cbn [bind set_offsets negb Z.eqb].
    change (minus_one =? minus_one) with true. cbn [negb bind set_offsets].
    rewrite IH by exact Hl.
    unfold literal_code. cbn [flat_map]. rewrite <- !app_assoc. reflexivity.
Qed.

(** The writer on the tree of a run of plain characters: a Save, one
    Literal instruction per character, a Save and the Match. *)
Lemma compile_parsed_literal (lits : list byte) :
  Forall is_ascii lits ->
  compile_parsed (literal_ast lits) (mkParsedRegex 1 []) = Ok (literal_program lits).
Proof.
  intro Hascii.
  unfold compile_parsed. rewrite write_search_prefix_eq. cbn [bind ranges capture_count].
  unfold compile_node, literal_ast. cbn [quantifier].
  rewrite compile_quantified_One.
  cbn [compile_node_inner op value quantifier children].
  change (negb (0 =? minus_one)) with true. cbv iota.
  rewrite compile_children_literals by exact Hascii.
  cbn [bind set_offsets]. unfold literal_program.
  f_equal. rewrite <- !app_assoc. reflexivity.
Qed.

Lemma plain_ascii (lits : list byte) : Forall plain lits -> Forall is_ascii lits.
Proof. intro H. eapply Forall_impl; [| exact H]. intros c Hc. apply Hc. Qed.

(** [compile] on a pattern of plain characters. *)
Lemma compile_plain (lits : list byte) (fuel : nat) :
  lits <> [] -> Forall plain lits ->
  compile (List.length lits + 3 + fuel) lits = Ok (literal_program lits).
Proof.
  intros Hne Hplain. unfold compile.
  rewrite (parse_plain lits fuel Hne Hplain). cbn [bind].
  apply compile_parsed_literal, plain_ascii, Hplain.
Qed.

(** ** The run of the program of a plain pattern *)

Lemma at_index_cons {A : Type} (x : A) (l : list A) (i : Z) :
  0 <= i -> at_index (x :: l) (i + 1) = at_index l i.
Proof.
  intro Hi. unfold at_index.
  destruct (i + 1 <? 0) eqn:E1; [apply Z.ltb_lt in E1; lia |].
  destruct (i <? 0) eqn:E0; [apply Z.ltb_lt in E0; lia |].
  replace (Z.to_nat (i + 1)) with (S (Z.to_nat i)) by lia. reflexivity.
Qed.

Lemma literal_code_size (lits : list byte) : size (literal_code lits) = 2 * size lits.
Proof.
  unfold size, literal_code. induction lits as [| c lits IH]; [reflexivity |].
  cbn [flat_map app List.length]. lia.
Qed.

Lemma literal_code_at (rest : list byte) :
  forall (lits : list byte) (k : nat) (c : byte),
    nth_error lits k = Some c ->
    at_index (literal_code lits ++ rest) (2 * Z.of_nat k)
    = Some (CompiledRegex.code CompiledRegex.Literal) /\
    at_index (literal_code lits ++ rest) (2 * Z.of_nat k + 1) = Some c.
Proof.
  induction lits as [| c0 lits IH]; intros k c Hk; [destruct k; discriminate |].
  destruct k as [| k].
  - injection Hk as ->. split; reflexivity.
  - cbn [nth_error] in Hk. destruct (IH k c Hk) as [H0 H1].
    unfold literal_code in *. cbn [flat_map app].
    replace (2 * Z.of_nat (S k)) with (2 * Z.of_nat k + 1 + 1) by lia.
    replace (2 * Z.of_nat k + 1 + 1 + 1) with (2 * Z.of_nat k + 1 + 1 + 1) by lia.
    rewrite !at_index_cons by lia. split; assumption.
Qed.

Lemma at_index_of_nat {A : Type} (l : list A) (k : nat) :
  at_index l (Z.of_nat k) = nth_error l k.
Proof.
  unfold at_index. destruct (Z.of_nat k <? 0) eqn:E; [apply Z.ltb_lt in E; lia |].
  rewrite Nat2Z.id. reflexivity.
Qed.

Lemma skipn_nth_error {A : Type} (l : list A) :
  forall (k : nat) (x : A), nth_error l k = Some x -> skipn k l = x :: skipn (S k) l.
Proof.
  induction l as [| y l IH]; intros [| k] x H; try discriminate.
  - injection H as ->. reflexivity.
  - cbn [nth_error] in H. cbn [skipn]. apply IH. exact H.
Qed.

Section LiteralRun.

Variable is_word : Codepoint -> bool.
Variables lits data : list byte.
Variable longest : bool.

Hypothesis lits_ascii : Forall is_ascii lits.
Hypothesis data_ascii : Forall is_ascii data.

Local Abbreviation program := (literal_program lits).
Local Abbreviation code_at := (at_index (CompiledRegex.bytecode (literal_program lits))).

Lemma program_at_literal (k : nat) (c : byte) :
  nth_error lits k = Some c ->
  code_at (13 + 2 * Z.of_nat k) = Some (CompiledRegex.code CompiledRegex.Literal) /\
  code_at (13 + 2 * Z.of_nat k + 1) = Some c.
Proof.
  intro Hk. unfold literal_program. cbn [CompiledRegex.bytecode].
  destruct (literal_code_at
              [CompiledRegex.code CompiledRegex.Save; 1; CompiledRegex.code CompiledRegex.Match]
              lits k c Hk) as [H0 H1].
  rewrite !(at_index_app_r search_prefix) by (change (size search_prefix) with 11; lia).
  change (size search_prefix) with 11.
  replace (13 + 2 * Z.of_nat k - 11) with (2 * Z.of_nat k + 1 + 1) by lia.
  replace (13 + 2 * Z.of_nat k + 1 - 11) with (2 * Z.of_nat k + 1 + 1 + 1) by lia.
  cbn [app]. rewrite !at_index_cons by lia. split; assumption.
Qed.

Lemma program_at_end (j : Z) :
  0 <= j ->
  code_at (13 + 2 * size lits + j)
  = at_index [CompiledRegex.code CompiledRegex.Save; 1; CompiledRegex.code CompiledRegex.Match] j.
Proof.
  intro Hj. unfold literal_program. cbn [CompiledRegex.bytecode].
  pose proof (size_nonneg lits) as Hn.
  rewrite (at_index_app_r search_prefix) by (change (size search_prefix) with 11; lia).
  change (size search_prefix) with 11.
  replace (13 + 2 * size lits + j - 11) with (2 * size lits + j + 1 + 1) by lia.
  cbn [app]. rewrite !at_index_cons by lia.
  rewrite at_index_app_r by (rewrite literal_code_size; lia).
  rewrite literal_code_size. f_equal. lia.
Qed.

Lemma step_at_literal (k : nat) (c : byte) (svs : list (option Z)) (pos : Z)
  (caps : list (option Z)) (fuel : nat) :
  nth_error lits k = Some c ->
  step is_word program data (S fuel)
       (mkVM [mkThread (Some (13 + 2 * Z.of_nat k)) svs] pos caps) 0
  = Ok (if c =? (if pos =? m_end data then 0 else codepoint_at data pos)
        then Consumed else Failed,
        mkVM [mkThread (Some (13 + 2 * Z.of_nat (S k))) svs] pos caps).
Proof.
  intro Hk. destruct (program_at_literal k c Hk) as [H0 H1].
  pose proof (Forall_nth_error _ _ _ _ lits_ascii Hk) as Hc.
  cbn [step]. unfold step_instruction. cbn [m_threads nth_error inst m_pos].
  rewrite H0. cbn [CompiledRegex.code CompiledRegex.decode].
  unfold program_codepoint. rewrite (read_codepoint_ascii _ _ c H1 Hc).
  cbn [fst snd utf8.pass bind].
  unfold set_inst, set_threads.
  cbn [m_threads nth_error update_at firstn skipn app saves m_pos m_captures].
  replace (13 + 2 * Z.of_nat k + 1 + 1) with (13 + 2 * Z.of_nat (S k)) by lia.
  reflexivity.
Qed.

Lemma step_at_end (s0 s1 : option Z) (pos : Z) (caps : list (option Z)) (fuel : nat) :
  step is_word program data (S (S fuel))
       (mkVM [mkThread (Some (13 + 2 * size lits)) [s0; s1]] pos caps) 0
  = Ok (Matched, mkVM [mkThread None [s0; Some pos]] pos caps).
Proof.
  assert (H0 : code_at (13 + 2 * size lits) = Some (CompiledRegex.code CompiledRegex.Save)).
  { replace (13 + 2 * size lits) with (13 + 2 * size lits + 0) by lia.
    rewrite program_at_end by lia. reflexivity. }
  assert (H1 : code_at (13 + 2 * size lits + 1) = Some 1)
    by (rewrite program_at_end by lia; reflexivity).
  assert (H2 : code_at (13 + 2 * size lits + 1 + 1)
               = Some (CompiledRegex.code CompiledRegex.Match)).
  { replace (13 + 2 * size lits + 1 + 1) with (13 + 2 * size lits + 2) by lia.
    rewrite program_at_end by lia. reflexivity. }
  cbn [step]. unfold step_instruction at 1. cbn [m_threads nth_error inst m_pos].
  rewrite H0. cbn [CompiledRegex.code CompiledRegex.decode]. rewrite H1.
  cbn [saves].
  change (char_value 1) with 1.
  change ((0 <=? 1) && (1 <? size [s0; s1])) with true. cbv iota.
  change (Z.to_nat 1) with 1%nat.
  unfold set_inst, set_save, set_threads.
  cbn [m_threads nth_error update_at firstn skipn app saves inst m_pos m_captures bind].
  unfold step_instruction. cbn [m_threads nth_error inst m_pos].
  rewrite H2. cbn [CompiledRegex.code CompiledRegex.decode].
  unfold set_inst, set_threads.
  cbn [m_threads nth_error update_at firstn skipn app saves inst m_pos m_captures bind].
  reflexivity.
Qed.

Lemma step_at_start (s0 s1 : option Z) (pos : Z) (caps : list (option Z)) (fuel : nat) :
  step is_word program data (S fuel) (mkVM [mkThread (Some prefix_size) [s0; s1]] pos caps) 0
  = step is_word program data fuel (mkVM [mkThread (Some 13) [Some pos; s1]] pos caps) 0.
Proof.
  assert (H0 : code_at prefix_size = Some (CompiledRegex.code CompiledRegex.Save))
    by reflexivity.
  assert (H1 : code_at (prefix_size + 1) = Some 0) by reflexivity.
  cbn [step]. unfold step_instruction. cbn [m_threads nth_error inst m_pos].
  rewrite H0. cbn [CompiledRegex.code CompiledRegex.decode]. rewrite H1.
  cbn [saves].
  change (char_value 0) with 0.
  change ((0 <=? 0) && (0 <? size [s0; s1])) with true. cbv iota.
  change (Z.to_nat 0) with 0%nat.
  unfold set_inst, set_save, set_threads.
  cbn [m_threads nth_error update_at firstn skipn app saves inst m_pos m_captures bind].
  reflexivity.
Qed.

(** [step] on the thread of the run, [k] characters into the subject. *)
Lemma step_literal_thread (k : nat) (caps : list (option Z)) (fuel : nat) :
  (k <= List.length lits)%nat ->
  step is_word program data (S (S (S fuel))) (mkVM [literal_thread k] (Z.of_nat k) caps) 0
  = match nth_error lits k with
    | Some c =>
      Ok (if c =? (if Z.of_nat k =? m_end data then 0 else codepoint_at data (Z.of_nat k))
          then Consumed else Failed,
          mkVM [literal_thread (S k)] (Z.of_nat k) caps)
    | None =>
      Ok (Matched, mkVM [mkThread None [Some 0; Some (Z.of_nat k)]] (Z.of_nat k) caps)
    end.
Proof.
  intro Hk.
  assert (Hat : forall s0 s1 f,
             step is_word program data (S (S f))
               (mkVM [mkThread (Some (13 + 2 * Z.of_nat k)) [s0; s1]] (Z.of_nat k) caps) 0
             = match nth_error lits k with
               | Some c =>
                 Ok (if c =? (if Z.of_nat k =? m_end data then 0
                              else codepoint_at data (Z.of_nat k))
                     then Consumed else Failed,
                     mkVM [mkThread (Some (13 + 2 * Z.of_nat (S k))) [s0; s1]]
                          (Z.of_nat k) caps)
               | None =>
                 Ok (Matched, mkVM [mkThread None [s0; Some (Z.of_nat k)]] (Z.of_nat k) caps)
               end).
  { intros s0 s1 f. destruct (nth_error lits k) as [c |] eqn:Hc.
    - apply (step_at_literal k c). exact Hc.
    - apply nth_error_None in Hc.
      replace (Z.of_nat k) with (size lits) at 1 by (unfold size; lia).
      apply step_at_end. }
  destruct k as [| k'].
  - unfold literal_thread at 1. rewrite step_at_start.
    change 13 with (13 + 2 * Z.of_nat 0). rewrite Hat. reflexivity.
  - unfold literal_thread at 1. rewrite Hat. reflexivity.
Qed.

(** The loop of [exec] from [k] characters into the subject: it returns
    true exactly when the rest of the subject is the rest of the pattern. *)
Lemma exec_loop_literal :
  forall (r k fuel : nat) (caps : list (option Z)),
    (k + r = List.length data)%nat -> (k <= List.length lits)%nat ->
    (r + 5 <= fuel)%nat ->
    exists b vm',
      exec_loop is_word program data true longest fuel false
                (mkVM [literal_thread k] (Z.of_nat k) caps) = Ok (b, vm') /\
      (b = true <-> skipn k data = skipn k lits) /\
      (b = true -> vm' = mkVM [] (size data) [Some 0; Some (size data)]).
Proof.
  induction r as [| r IH]; intros k fuel caps Hk Hn Hfuel.
  - destruct fuel as [| [| [| [| [| fuel]]]]]; try lia.
    assert (Hend : Z.of_nat k = size data) by (unfold size; lia).
    assert (Hdata : skipn k data = []) by (apply skipn_all2; lia).
    cbn [exec_loop m_pos]. unfold m_end at 1.
    rewrite Hend, Z.eqb_refl.
    cbn [negb step_remaining m_threads List.length Nat.ltb Nat.leb].
    rewrite <- Hend.
    rewrite step_literal_thread by exact Hn.
    destruct (nth_error lits k) as [c |] eqn:Hc.
    + cbn [bind].
      destruct (c =? (if Z.of_nat k =? m_end data then 0 else codepoint_at data (Z.of_nat k)));
        (cbn [bind step_remaining m_threads List.length Nat.ltb Nat.leb Nat.add];
         eexists false, _; split; [reflexivity |]; split; [| discriminate];
         split; [discriminate |];
         rewrite Hdata, (skipn_nth_error lits k c Hc); discriminate).
    + apply nth_error_None in Hc.
      assert (Hlits : skipn k lits = []) by (apply skipn_all2; lia).
      cbn [bind m_threads firstn m_pos thread_saves nth_error saves].
      exists true, (mkVM [] (Z.of_nat k) [Some 0; Some (Z.of_nat k)]).
      split; [destruct longest; reflexivity |].
      split; [split; [intros _; rewrite Hdata, Hlits; reflexivity | reflexivity] |].
      intros _. rewrite Hend. reflexivity.
  - destruct fuel as [| [| [| [| [| fuel]]]]]; try lia.
    destruct (nth_error data k) as [d |] eqn:Hd;
      [| apply nth_error_None in Hd; lia].
    pose proof (Forall_nth_error _ _ _ _ data_ascii Hd) as Hdascii.
    assert (Hat : at_index data (Z.of_nat k) = Some d)
      by (rewrite at_index_of_nat; exact Hd).
    assert (Hne : (Z.of_nat k =? m_end data) = false)
      by (apply Z.eqb_neq; unfold m_end, size; lia).
    assert (Hcp : codepoint_at data (Z.of_nat k) = d).
    { unfold codepoint_at. rewrite (read_codepoint_ascii _ _ d Hat Hdascii). reflexivity. }
    cbn [exec_loop m_pos]. rewrite Hne.
    cbn [negb]. unfold exec_round.
    cbn [step_threads m_threads List.length Nat.ltb Nat.leb].
    rewrite step_literal_thread by exact Hn.
    rewrite Hne, Hcp. clear Hcp.
    destruct (nth_error lits k) as [c |] eqn:Hc.
    + destruct (c =? d) eqn:Hcd.
      * apply Z.eqb_eq in Hcd. subst c.
        cbn [bind step_threads m_threads List.length Nat.ltb Nat.leb Nat.add].
        assert (Hlive : filter (fun t => negb (is_dead t)) [literal_thread (S k)]
                        = [literal_thread (S k)]) by reflexivity.
        unfold set_threads. cbn [m_threads m_pos m_captures]. rewrite Hlive.
        cbn [literal_thread]. cbv iota. cbn [bind].
        rewrite (to_next_ascii _ _ d Hat Hdascii).
        replace (Z.of_nat k + 1) with (Z.of_nat (S k)) by lia.
        assert (Hn' : (S k <= List.length lits)%nat).
        { assert (Hlt : nth_error lits k <> None) by (rewrite Hc; discriminate).
          apply nth_error_Some in Hlt. lia. }
        destruct (IH (S k) (S (S (S (S fuel)))) caps ltac:(lia) Hn' ltac:(lia))
          as [b [vm' [Hrun [Hb Hvm]]]].
        exists b, vm'. split; [exact Hrun |]. split; [| exact Hvm].
        rewrite Hb, (skipn_nth_error data k d Hd), (skipn_nth_error lits k d Hc).
        split; [intros ->; reflexivity | intro H; injection H as H; exact H].
      * cbn [bind step_threads m_threads List.length Nat.ltb Nat.leb Nat.add].
        eexists false, _. split; [reflexivity |]. split; [| discriminate].
        split; [discriminate |].
        rewrite (skipn_nth_error data k d Hd), (skipn_nth_error lits k c Hc).
        intro H. injection H as H _. apply Z.eqb_neq in Hcd. congruence.
    + cbn [bind step_threads m_threads List.length Nat.ltb Nat.leb Nat.add].
      eexists false, _. split; [reflexivity |]. split; [| discriminate].
      split; [discriminate |].
      apply nth_error_None in Hc.
      rewrite (skipn_nth_error data k d Hd), (skipn_all2 lits) by lia. discriminate.
Qed.

End LiteralRun.

(** X11: a nonempty pattern of plain characters (bytes from 1 to 127, none
    of them a syntax character) compiles to one Literal instruction per
    character, and with [match] set its program accepts, among the subjects
    made of bytes below 128, the pattern itself and nothing else; the two
    captures are then the begin and the end of the subject. *)
Theorem plain_pattern_matches_itself :
  forall (is_word : Codepoint -> bool) (re data : list byte) (longest : bool) (fuel : nat),
    re <> [] -> Forall plain re -> Forall is_ascii data ->
    exists program b vm',
      compile (List.length re + 3 + fuel) re = Ok program /\
      exec is_word program data true longest (List.length data + 5 + fuel) fresh
      = Ok (b, vm') /\
      (b = true <-> data = re) /\
      (b = true -> m_captures vm' = [Some 0; Some (size data)]).
Proof.
  intros is_word re data longest fuel Hne Hplain Hdata.
  assert (Hre : Forall is_ascii re)
    by (eapply Forall_impl; [| exact Hplain]; intros c Hc; apply Hc).
  destruct (exec_loop_literal is_word re data longest Hre Hdata
              (List.length data) 0 (List.length data + 5 + fuel) []
              ltac:(lia) ltac:(lia) ltac:(lia)) as [b [vm' [Hrun [Hb Hvm]]]].
  exists (literal_program re), b, vm'.
  split; [apply compile_plain; assumption |].
  split; [exact Hrun |].
  split; [exact Hb |].
  intro Htrue. rewrite (Hvm Htrue). reflexivity.
Qed.

(** The theorem at the pattern ab and the subject ab. *)
Lemma plain_pattern_matches_itself_witness :
  exists program b vm',
    compile (2 + 3 + 0) (bytes_of_string "ab") = Ok program /\
    exec ascii_is_word program (bytes_of_string "ab") true false (2 + 5 + 0) fresh
    = Ok (b, vm') /\
    (b = true <-> bytes_of_string "ab" = bytes_of_string "ab") /\
    (b = true -> m_captures vm' = [Some 0; Some 2]).
Proof.
  apply (plain_pattern_matches_itself ascii_is_word (bytes_of_string "ab")
           (bytes_of_string "ab") false 0).
  - discriminate.
  - repeat constructor; try (cbn; lia).
  - repeat constructor; cbn; lia.
Defined.

(** ** Character classes: the writer and the VM agree *)

Lemma holds_intro (pre l tail : list byte) : holds (pre ++ l ++ tail) (size pre) l.
Proof.
  intros n x Hn.
  rewrite at_index_app_r by lia.
  replace (size pre + Z.of_nat n - size pre) with (Z.of_nat n) by lia.
  rewrite at_index_of_nat, nth_error_app1; [exact Hn |].
  apply nth_error_Some. rewrite Hn. discriminate.
Qed.

Lemma holds_tail (b : list byte) (base : Z) (x : byte) (l : list byte) :
  holds b base (x :: l) -> holds b (base + 1) l.
Proof.
  intros H n y Hn. specialize (H (S n) y Hn).
  replace (base + 1 + Z.of_nat n) with (base + Z.of_nat (S n)) by lia. exact H.
Qed.

Lemma holds_head (b : list byte) (base : Z) (x : byte) (l : list byte) :
  holds b base (x :: l) -> at_index b base = Some x.
Proof.
  intro H. specialize (H 0%nat x eq_refl).
  replace (base + Z.of_nat 0) with base in H by lia. exact H.
Qed.

Lemma holds_app_r (b : list byte) (base : Z) (l1 l2 : list byte) :
  holds b base (l1 ++ l2) -> holds b (base + size l1) l2.
Proof.
  intros H n y Hn. specialize (H (List.length l1 + n)%nat y).
  assert (E : nth_error (l1 ++ l2) (List.length l1 + n) = nth_error l2 n).
  { rewrite nth_error_app2 by lia. f_equal. lia. }
  rewrite E in H. specialize (H Hn). unfold size.
  replace (base + Z.of_nat (List.length l1) + Z.of_nat n)
    with (base + Z.of_nat (List.length l1 + n)) by lia.
  exact H.
Qed.

(** [utf8::advance] over bytes below 128 moves one byte per codepoint. *)
Lemma advance_ascii (b : list byte) (base : Z) (l : list byte) :
  holds b base l -> Forall is_ascii l ->
  utf8.advance b base (size l) = base + size l.
Proof.
  intros Hl Hascii. unfold utf8.advance, size. rewrite Nat2Z.id.
  assert (H : forall n, (n <= List.length l)%nat ->
                        Nat.iter n (utf8.to_next b) base = base + Z.of_nat n).
  { induction n as [| n IH]; intro Hn; unfold Nat.iter in *; cbn [nat_rect]; [lia |].
    rewrite IH by lia.
    destruct (nth_error l n) as [x |] eqn:Hx; [| apply nth_error_None in Hx; lia].
    rewrite (to_next_ascii b _ x (Hl n x Hx) (Forall_nth_error _ _ _ _ Hascii Hx)).
    lia. }
  apply H. lia.
Qed.

Section ClassRun.

Variable is_word : Codepoint -> bool.
Variable m_program : CompiledRegex.t.
Variable data : list byte.

Local Abbreviation B := (CompiledRegex.bytecode m_program).

Lemma program_codepoint_ascii (it : Z) (x : byte) :
  at_index B it = Some x -> is_ascii x -> program_codepoint m_program it = (x, it + 1).
Proof.
  intros Hat Hx. unfold program_codepoint.
  rewrite (read_codepoint_ascii _ _ x Hat Hx). reflexivity.
Qed.

(** The loop over the singles: on a hit the pointer goes to the end of the
    payload, otherwise it stands after the singles. *)
Lemma match_singles_spec (single_count range_count : Z) (cp : Codepoint)
  (rr : list byte) :
  Forall is_ascii rr -> size rr = range_count * 2 ->
  forall (ss : list byte) (base i : Z),
    holds B base (ss ++ rr) -> Forall is_ascii ss -> i + size ss = single_count ->
    (existsb (Z.eqb cp) ss = true ->
     fst (match_singles m_program (List.length ss) i single_count range_count cp base)
     = Some (base + size ss + size rr)) /\
    (existsb (Z.eqb cp) ss = false ->
     match_singles m_program (List.length ss) i single_count range_count cp base
     = (None, base + size ss)).
Proof.
  intros Hrr Hrc. induction ss as [| x ss IH]; intros base i Hholds Hss Hi.
  - split; [discriminate |]. intros _. cbn [List.length match_singles].
    change (size []) with 0. f_equal. lia.
  - inversion Hss as [| x' ss' Hx Hss']; subst x' ss'.
    cbn [List.length match_singles existsb].
    rewrite (program_codepoint_ascii base x (holds_head _ _ _ _ Hholds) Hx).
    assert (Hsize : size (x :: ss) = size ss + 1)
      by (unfold size; cbn [List.length]; lia).
    destruct (cp =? x) eqn:Hcp; cbn [orb fst].
    + split; [intros _ | discriminate].
      replace (single_count - (i + 1) + range_count * 2) with (size (ss ++ rr))
        by (rewrite size_app; lia).
      rewrite advance_ascii.
      * rewrite size_app. f_equal. lia.
      * apply (holds_tail _ _ x). exact Hholds.
      * apply Forall_app. split; assumption.
    + destruct (IH (base + 1) (i + 1) (holds_tail _ _ _ _ Hholds) Hss' ltac:(lia))
        as [IH1 IH2].
      split; intro Hex.
      * rewrite (IH1 Hex). f_equal. lia.
      * rewrite (IH2 Hex). f_equal. lia.
Qed.

(** The loop over the ranges. *)
Lemma match_ranges_spec (range_count : Z) (cp : Codepoint) :
  forall (rgs : list CharRange_) (base i : Z),
    holds B base (flat_map (fun r => [range_min r; range_max r]) rgs) ->
    Forall ascii_range rgs -> i + size rgs = range_count ->
    (existsb (fun r => (range_min r <=? cp) && (cp <=? range_max r)) rgs = true ->
     fst (match_ranges m_program (List.length rgs) i range_count cp base)
     = Some (base + 2 * size rgs)) /\
    (existsb (fun r => (range_min r <=? cp) && (cp <=? range_max r)) rgs = false ->
     match_ranges m_program (List.length rgs) i range_count cp base
     = (None, base + 2 * size rgs)).
Proof.
  induction rgs as [| r rgs IH]; intros base i Hholds Hrgs Hi.
  - split; [discriminate |]. intros _. cbn [List.length match_ranges].
    change (size []) with 0. f_equal. lia.
  - inversion Hrgs as [| r' rgs' [Hlo Hhi] Hrgs']; subst r' rgs'.
    cbn [flat_map app] in Hholds.
    cbn [List.length match_ranges existsb].
    rewrite (program_codepoint_ascii base _ (holds_head _ _ _ _ Hholds) Hlo).
    pose proof (holds_tail _ _ _ _ Hholds) as Hholds1.
    rewrite (program_codepoint_ascii (base + 1) _ (holds_head _ _ _ _ Hholds1) Hhi).
    pose proof (holds_tail _ _ _ _ Hholds1) as Hholds2.
    assert (Hsize : size (r :: rgs) = size rgs + 1)
      by (unfold size; cbn [List.length]; lia).
    assert (Hflat : @size byte (flat_map (fun r => [range_min r; range_max r]) rgs)
                    = 2 * size rgs).
    { unfold size. clear. induction rgs as [| r rgs IH]; [reflexivity |].
      cbn [flat_map app List.length]. lia. }
    destruct ((range_min r <=? cp) && (cp <=? range_max r)) eqn:Hin; cbn [orb fst].
    + split; [intros _ | discriminate].
      replace ((range_count - (i + 1)) * 2)
        with (@size byte (flat_map (fun r => [range_min r; range_max r]) rgs)) by lia.
      rewrite advance_ascii.
      * f_equal. lia.
      * exact Hholds2.
      * clear - Hrgs'. induction Hrgs' as [| r rgs [Hlo Hhi] _ IH]; [constructor |].
        cbn [flat_map app]. constructor; [exact Hlo |]. constructor; [exact Hhi | exact IH].
    + destruct (IH (base + 1 + 1) (i + 1) Hholds2 Hrgs' ltac:(lia)) as [IH1 IH2].
      split; intro Hex.
      * rewrite (IH1 Hex). f_equal. lia.
      * rewrite (IH2 Hex). f_equal. lia.
Qed.

End ClassRun.

Lemma push_codepoints_ascii (cps : list Codepoint) :
  Forall is_ascii cps -> forall b, push_codepoints b cps = Ok (b ++ cps).
Proof.
  induction 1 as [| cp cps [H0 H1] _ IH]; intro b; cbn [push_codepoints].
  - rewrite app_nil_r. reflexivity.
  - unfold push_codepoint, utf8.dump.
    destruct (cp <=? 127) eqn:E; [| apply Z.leb_gt in E; lia].
    cbn [bind]. rewrite IH, <- app_assoc. reflexivity.
Qed.

Lemma singles_ascii (rs : list CharRange_) :
  Forall ascii_range rs -> Forall is_ascii (single_codepoints rs).
Proof.
  unfold single_codepoints.
  induction 1 as [| r rs [Hlo Hhi] _ IH]; cbn [filter map]; [constructor |].
  destruct (is_single r); [constructor; assumption | exact IH].
Qed.

Lemma ranges_ascii (rs : list CharRange_) :
  Forall ascii_range rs -> Forall is_ascii (range_codepoints rs).
Proof.
  unfold range_codepoints.
  induction 1 as [| r rs [Hlo Hhi] _ IH]; cbn [filter flat_map]; [constructor |].
  destruct (is_single r); cbn [negb flat_map app]; [exact IH |].
  constructor; [exact Hlo |]. constructor; [exact Hhi | exact IH].
Qed.

Lemma class_counts (rs : list CharRange_) :
  @size byte (single_codepoints rs) = size (filter is_single rs) /\
  size (filter (fun r => negb (is_single r)) rs) = size rs - size (filter is_single rs) /\
  @size byte (range_codepoints rs) = (size rs - size (filter is_single rs)) * 2 /\
  0 <= size (filter is_single rs) <= size rs.
Proof.
  unfold single_codepoints, range_codepoints, size.
  rewrite length_map.
  induction rs as [| r rs IH]; [cbn; lia |].
  cbn [filter]. destruct (is_single r); cbn [negb flat_map app List.length];
    rewrite ?length_app; cbn [List.length]; lia.
Qed.

Lemma class_accepts_split (rs : list CharRange_) (cp : Codepoint) :
  class_accepts rs cp
  = existsb (Z.eqb cp) (single_codepoints rs)
    || existsb (fun r => (range_min r <=? cp) && (cp <=? range_max r))
               (filter (fun r => negb (is_single r)) rs).
Proof.
  unfold class_accepts, single_codepoints.
  induction rs as [| r rs IH]; [reflexivity |].
  cbn [existsb filter]. rewrite IH.
  destruct (is_single r); cbn [negb map existsb].
  - rewrite orb_assoc. reflexivity.
  - rewrite !orb_assoc. f_equal. apply orb_comm.
Qed.

(** The writer on a character class whose bounds are below 128. *)
Lemma compile_class (parsed_ranges : list (list CharRange_)) (v : Codepoint)
  (rs : list CharRange_) (positive : bool) (q : Quantifier.t) (cs : list AstNode)
  (bc : list byte) :
  at_index parsed_ranges v = Some rs -> Forall ascii_range rs ->
  compile_node_inner parsed_ranges
    (mkAstNode (if positive then CharRange else NegativeCharRange) v q cs) bc
  = Ok (bc ++ class_code positive rs, to_offset (size bc)).
Proof.
  intros Hrs Hascii.
  destruct positive; cbn [compile_node_inner op value quantifier children];
    change (negb (minus_one =? minus_one)) with false; cbv iota;
    rewrite Hrs;
    rewrite (push_codepoints_ascii _ (singles_ascii rs Hascii)); cbn [bind];
    rewrite (push_codepoints_ascii _ (ranges_ascii rs Hascii)); cbn [bind set_offsets];
    unfold class_code; rewrite <- !app_assoc; reflexivity.
Qed.

(** X12: the instruction the writer emits for a character class is read
    back by [step] as that class.  For a class of fewer than 128 entries
    with bounds below 128, the thread consumes the codepoint under the
    cursor exactly when it is one of the singles or inside one of the ranges
    (the reverse for a negated class), and in every case its instruction
    pointer is left at the end of the instruction. *)
Theorem class_instruction_round_trip :
  forall (is_word : Codepoint -> bool) (data : list byte)
         (parsed_ranges : list (list CharRange_)) (v : Codepoint) (rs : list CharRange_)
         (positive : bool) (q : Quantifier.t) (bc rest : list byte) (save_count : Z)
         (vm : VM) (i : nat) (thread : Thread),
    at_index parsed_ranges v = Some rs ->
    Forall ascii_range rs ->
    size rs < 128 ->
    nth_error (m_threads vm) i = Some thread ->
    inst thread = Some (size bc) ->
    exists bc',
      compile_node_inner parsed_ranges
        (mkAstNode (if positive then CharRange else NegativeCharRange) v q []) bc
      = Ok (bc', to_offset (size bc)) /\
      step_instruction is_word (CompiledRegex.mk (bc' ++ rest) save_count) data vm i
      = Ok (Return
              (if Bool.eqb
                    (class_accepts rs (if m_pos vm =? m_end data then 0
                                       else codepoint_at data (m_pos vm)))
                    positive
               then Consumed else Failed)
              (set_inst vm i (Some (size bc')))).
Proof.
  intros is_word data parsed_ranges v rs positive q bc rest save_count vm i thread
         Hrs Hascii Hsize Hthread Hinst.
  exists (bc ++ class_code positive rs).
  split; [apply compile_class; assumption |].
  set (cp := if m_pos vm =? m_end data then 0 else codepoint_at data (m_pos vm)).
  set (P := CompiledRegex.mk ((bc ++ class_code positive rs) ++ rest) save_count).
  destruct (class_counts rs) as [Hsc [Hrc [Hrr [Hsc0 Hsc1]]]].
  set (sc := size (filter is_single rs)) in *.
  set (rc := size rs - sc) in *.
  assert (Hholds : holds (CompiledRegex.bytecode P) (size bc) (class_code positive rs)).
  { unfold P. cbn [CompiledRegex.bytecode]. rewrite <- app_assoc. apply holds_intro. }
  unfold class_code in Hholds. fold sc rc in Hholds. cbn [app] in Hholds.
  pose proof (holds_head _ _ _ _ Hholds) as H0.
  pose proof (holds_tail _ _ _ _ Hholds) as Hholds1.
  pose proof (holds_head _ _ _ _ Hholds1) as H1.
  pose proof (holds_tail _ _ _ _ Hholds1) as Hholds2.
  pose proof (holds_head _ _ _ _ Hholds2) as H2.
  pose proof (holds_tail _ _ _ _ Hholds2) as Hholds3.
  assert (Hsmall : forall n, 0 <= n < 128 -> char_value (to_char n) = n).
  { intros n Hn. unfold to_char, char_value. rewrite Z.mod_small by lia.
    destruct (n <? 128) eqn:E; [reflexivity | apply Z.ltb_ge in E; lia]. }
  assert (Hend : size (bc ++ class_code positive rs)
                 = size bc + 1 + 1 + 1 + @size byte (single_codepoints rs)
                   + @size byte (range_codepoints rs)).
  { unfold class_code, size. rewrite !length_app. cbn [List.length].
    change (@List.length Codepoint) with (@List.length byte). lia. }
  destruct (match_singles_spec P sc rc cp (range_codepoints rs)
              (ranges_ascii rs Hascii) Hrr (single_codepoints rs)
              (size bc + 1 + 1 + 1) 0 Hholds3 (singles_ascii rs Hascii) ltac:(lia))
    as [Hhit Hmiss].
  assert (Hi2 : 0 + size (filter (fun r => negb (is_single r)) rs) = rc) by lia.
  assert (Hrgs : Forall ascii_range (filter (fun r => negb (is_single r)) rs)).
  { apply Forall_forall. intros r Hr. apply filter_In in Hr.
    rewrite Forall_forall in Hascii. apply Hascii. apply Hr. }
  destruct (match_ranges_spec P rc cp (filter (fun r => negb (is_single r)) rs)
              (size bc + 1 + 1 + 1 + @size byte (single_codepoints rs)) 0
              (holds_app_r _ _ _ _ Hholds3) Hrgs Hi2)
    as [Hhit2 Hmiss2].
  assert (Hn1 : Z.to_nat (char_value (to_char sc))
                = @List.length byte (single_codepoints rs)).
  { rewrite Hsmall by lia. unfold size in Hsc. lia. }
  assert (Hn2 : Z.to_nat (char_value (to_char rc))
                = List.length (filter (fun r => negb (is_single r)) rs)).
  { rewrite Hsmall by lia. rewrite <- Hrc. unfold size. lia. }
  change (@size Codepoint) with (@size byte) in *.
  unfold step_instruction. rewrite Hthread, Hinst.
  fold P. fold cp. rewrite H0.
  replace (size bc + 1 + 2) with (size bc + 1 + 1 + 1) by lia.
  rewrite class_accepts_split.
  assert (Hdecode : CompiledRegex.decode
                      (CompiledRegex.code (if positive then CompiledRegex.CharRange
                                           else CompiledRegex.NegativeCharRange))
                    = Some (if positive then CompiledRegex.CharRange
                            else CompiledRegex.NegativeCharRange))
    by (destruct positive; reflexivity).
  rewrite Hdecode.
  assert (Hbody :
    match at_index (CompiledRegex.bytecode P) (size bc + 1),
          at_index (CompiledRegex.bytecode P) (size bc + 1 + 1) with
    | Some sb, Some rb =>
      match match_singles P (Z.to_nat (char_value sb)) 0 (char_value sb) (char_value rb) cp
                          (size bc + 1 + 1 + 1) with
      | (Some pc', _) =>
        Ok (Return (if positive then Consumed else Failed)
                   (set_inst (set_inst vm i (Some (size bc + 1))) i (Some pc')))
      | (None, pc) =>
        match match_ranges P (Z.to_nat (char_value rb)) 0 (char_value rb) cp pc with
        | (Some pc', _) =>
          Ok (Return (if positive then Consumed else Failed)
                     (set_inst (set_inst vm i (Some (size bc + 1))) i (Some pc')))
        | (None, pc) =>
          Ok (Return (if positive then Failed else Consumed)
                     (set_inst (set_inst vm i (Some (size bc + 1))) i (Some pc)))
        end
      end
    | _, _ => Fault OutOfBounds
    end
    = Ok (Return
            (if Bool.eqb
                  (existsb (Z.eqb cp) (single_codepoints rs)
                   || existsb (fun r => (range_min r <=? cp) && (cp <=? range_max r))
                              (filter (fun r => negb (is_single r)) rs))
                  positive
             then Consumed else Failed)
            (set_inst vm i (Some (size (bc ++ class_code positive rs)))))).
  { rewrite H1, H2, Hn1, Hn2, !Hsmall by lia.
    destruct (existsb (Z.eqb cp) (single_codepoints rs)) eqn:Hex1.
    - specialize (Hhit eq_refl).
      destruct (match_singles P (@List.length byte (single_codepoints rs)) 0 sc rc cp
                              (size bc + 1 + 1 + 1)) as [[pc' |] it];
        cbn [fst] in Hhit; [| discriminate].
      injection Hhit as ->. cbn [orb]. rewrite Hend, set_inst_twice.
      destruct positive; reflexivity.
    - rewrite (Hmiss eq_refl). cbn [orb].
      destruct (existsb (fun r => (range_min r <=? cp) && (cp <=? range_max r))
                        (filter (fun r => negb (is_single r)) rs)) eqn:Hex2.
      + specialize (Hhit2 eq_refl).
        destruct (match_ranges P (List.length (filter (fun r => negb (is_single r)) rs))
                               0 rc cp
                               (size bc + 1 + 1 + 1 + @size byte (single_codepoints rs)))
          as [[pc' |] it]; unfold fst in Hhit2; [| discriminate].
        rewrite Hhit2, Hend, set_inst_twice.
        replace (size bc + 1 + 1 + 1 + @size byte (single_codepoints rs)
                 + 2 * size (filter (fun r => negb (is_single r)) rs))
          with (size bc + 1 + 1 + 1 + @size byte (single_codepoints rs)
                + @size byte (range_codepoints rs)) by lia.
        destruct positive; reflexivity.
      + rewrite (Hmiss2 eq_refl). rewrite Hend, set_inst_twice.
        replace (size bc + 1 + 1 + 1 + @size byte (single_codepoints rs)
                 + 2 * size (filter (fun r => negb (is_single r)) rs))
          with (size bc + 1 + 1 + 1 + @size byte (single_codepoints rs)
                + @size byte (range_codepoints rs)) by lia.
        destruct positive; reflexivity. }
  destruct positive; exact Hbody.
Qed.

(** The theorem at the class [a-cx], the first instruction of a program, and
    the subject b. *)
Lemma class_instruction_round_trip_witness :
  let rs := [mkCharRange 97 99; mkCharRange 120 0] in
  let vm := mkVM [mkThread (Some 0) []] 0 [] in
  let data := bytes_of_string "b" in
  exists bc',
    compile_node_inner [rs] (mkAstNode CharRange 0 (Quantifier.of_type Quantifier.One) []) []
    = Ok (bc', to_offset (size (@nil byte))) /\
    step_instruction ascii_is_word (CompiledRegex.mk (bc' ++ [0]) 2) data vm 0
    = Ok (Return
            (if Bool.eqb
                  (class_accepts rs (if m_pos vm =? m_end data then 0
                                     else codepoint_at data (m_pos vm)))
                  true
             then Consumed else Failed)
            (set_inst vm 0 (Some (size bc')))).
Proof.
  intros rs vm data.
  apply (class_instruction_round_trip ascii_is_word data [rs] 0 rs true
           (Quantifier.of_type Quantifier.One) [] [0] 2 vm 0 (mkThread (Some 0) [])).
  - reflexivity.
  - repeat constructor; cbn; lia.
  - reflexivity.
  - reflexivity.
  - reflexivity.
Defined.

(** ** A repetition of the empty match *)

Section Spinning.

Variable is_word : Codepoint -> bool.
Variable data : list byte.

Local Abbreviation program := line_start_star_program.

Lemma add_thread_after_head (t : Thread) (rest : list Thread) (pos : Offset)
  (svs : list (option Z)) :
  inst_eqb (inst t) (Some pos) = false ->
  add_thread (t :: rest) 1 pos svs = t :: add_thread rest 0 pos svs.
Proof.
  intro Ht. unfold add_thread, has_thread_at. cbn [existsb]. rewrite Ht. cbn [orb].
  destruct (existsb (fun t0 => inst_eqb (inst t0) (Some pos)) rest); reflexivity.
Qed.

Lemma add_thread_present (rest : list Thread) (index : nat) (pos : Offset)
  (svs : list (option Z)) :
  has_thread_at rest (Some pos) = true -> add_thread rest index pos svs = rest.
Proof. unfold add_thread. intros ->. reflexivity. Qed.

Lemma has_thread_at_add_thread (rest : list Thread) (pos : Offset) (svs : list (option Z)) :
  has_thread_at (add_thread rest 0 pos svs) (Some pos) = true.
Proof.
  unfold add_thread. destruct (has_thread_at rest (Some pos)) eqn:H; [exact H |].
  cbn [firstn skipn app has_thread_at existsb inst inst_eqb].
  rewrite Z.eqb_refl. reflexivity.
Qed.

Ltac still_spinning :=
  split; [reflexivity |]; do 6 eexists; split; [reflexivity |].

(** A turn of the loop of [step] from a spinning state goes on, to a
    spinning state. *)
Lemma spinning_turn (vm : VM) :
  spinning vm ->
  exists vm', step_instruction is_word program data vm 0 = Ok (Continue vm') /\ spinning vm'.
Proof.
  destruct vm as [threads pos caps].
  intros [Hpos [pc [s0 [s1 [s2 [s3 [rest [Hthreads Hpc]]]]]]]].
  cbn [m_pos m_threads] in Hpos, Hthreads. subst pos threads.
  set (svs := [s0; s1; s2; s3]).
  destruct Hpc as [-> | [-> | [-> | [[-> | [-> | [-> | ->]]] Hrest]]]].
  - (* 0: Split_PrioritizeChild to 11, the other thread goes to 5 *)
    exists (mkVM (mkThread (Some 11) svs :: add_thread rest 0 5 svs) 0 caps).
    split; [| still_spinning; right; left; reflexivity].
    transitivity
      (Ok (Continue
             (set_inst
                (set_threads (mkVM (mkThread (Some 1) svs :: rest) 0 caps)
                             (add_thread (mkThread (Some 1) svs :: rest) 1 5 svs))
                0 (Some 11)))); [reflexivity |].
    rewrite add_thread_after_head by reflexivity. reflexivity.
  - (* 11: Save 0 *)
    exists (mkVM (mkThread (Some 13) [Some 0; s1; s2; s3] :: rest) 0 caps).
    split; [reflexivity | still_spinning; right; right; left; reflexivity].
  - (* 13: Split_PrioritizeParent, the other thread goes to 28 *)
    exists (mkVM (mkThread (Some 18) svs :: add_thread rest 0 28 svs) 0 caps).
    split.
    + transitivity
        (Ok (Continue
               (set_inst
                  (set_threads (mkVM (mkThread (Some 14) svs :: rest) 0 caps)
                               (add_thread (mkThread (Some 14) svs :: rest) 1 28 svs))
                  0 (Some 18)))); [reflexivity |].
      rewrite add_thread_after_head by reflexivity. reflexivity.
    + still_spinning. right. right. right. split; [left; reflexivity |].
      apply has_thread_at_add_thread.
  - (* 18: Save 2 *)
    exists (mkVM (mkThread (Some 20) [s0; s1; Some 0; s3] :: rest) 0 caps).
    split; [reflexivity | still_spinning].
    right. right. right. split; [right; left; reflexivity | exact Hrest].
  - (* 20: LineStart, at the begin of the subject *)
    exists (mkVM (mkThread (Some 21) svs :: rest) 0 caps).
    split; [reflexivity | still_spinning].
    right. right. right. split; [right; right; left; reflexivity | exact Hrest].
  - (* 21: Save 3 *)
    exists (mkVM (mkThread (Some 23) [s0; s1; s2; Some 0] :: rest) 0 caps).
    split; [reflexivity | still_spinning].
    right. right. right. split; [right; right; right; reflexivity | exact Hrest].
  - (* 23: Split_PrioritizeChild back to 18; a thread is at 28 already *)
    exists (mkVM (mkThread (Some 18) svs :: rest) 0 caps).
    split.
    + transitivity
        (Ok (Continue
               (set_inst
                  (set_threads (mkVM (mkThread (Some 24) svs :: rest) 0 caps)
                               (add_thread (mkThread (Some 24) svs :: rest) 1 28 svs))
                  0 (Some 18)))); [reflexivity |].
      rewrite add_thread_after_head by reflexivity.
      rewrite (add_thread_present rest 0 28 svs Hrest). reflexivity.
    + still_spinning.
      right. right. right. split; [left; reflexivity | exact Hrest].
Qed.

(** [step] does not return from a spinning state, whatever the fuel. *)
Lemma spinning_step :
  forall (fuel : nat) (vm : VM), spinning vm -> step is_word program data fuel vm 0 = OutOfFuel.
Proof.
  induction fuel as [| fuel IH]; intros vm Hvm; [reflexivity |].
  cbn [step]. destruct (spinning_turn vm Hvm) as [vm' [Hturn Hvm']].
  rewrite Hturn. cbn [bind]. apply IH. exact Hvm'.
Qed.

End Spinning.

(** X13: the loop of a repetition whose body matches the empty string has
    no exit.  [compile] accepts the pattern (^)*, and on its program [exec]
    never returns, for every subject and both flags: the first call of
    [step] goes round Save, LineStart, Save and Split forever. *)
Theorem exec_spins_on_empty_repetition :
  forall (is_word : Codepoint -> bool) (data : list byte) (match_ longest : bool)
         (vm : VM) (fuel : nat),
    compile (64 + fuel) line_start_star = Ok line_start_star_program /\
    exec is_word line_start_star_program data match_ longest fuel vm = OutOfFuel.
Proof.
  intros is_word data match_ longest vm fuel.
  split; [revert fuel; run_compile 64%nat |].
  unfold exec.
  assert (Hseed : spinning (exec_seed line_start_star_program match_ vm)).
  { split; [reflexivity |].
    exists (if match_ then prefix_size else 0), None, None, None, None, [].
    split; [destruct match_; reflexivity |].
    destruct match_; [right; left; reflexivity | left; reflexivity]. }
  assert (Hlen : exists t ts,
             m_threads (exec_seed line_start_star_program match_ vm) = t :: ts).
  { destruct match_; eexists; eexists; reflexivity. }
  generalize dependent (exec_seed line_start_star_program match_ vm).
  intros seed Hseed [t [ts Hts]].
  destruct fuel as [| fuel]; [reflexivity |].
  cbn [exec_loop].
  destruct (negb (m_pos seed =? m_end data)).
  - unfold exec_round.
    destruct fuel as [| fuel]; [reflexivity |].
    cbn [step_threads]. rewrite Hts. cbn [List.length Nat.ltb Nat.leb].
    rewrite spinning_step by exact Hseed. reflexivity.
  - destruct fuel as [| fuel]; [reflexivity |].
    cbn [step_remaining]. rewrite Hts. cbn [List.length Nat.ltb Nat.leb].
    rewrite spinning_step by exact Hseed. reflexivity.
Qed.

(** ** Counted repetitions *)

Lemma decimal_from_le (ds : list Z) :
  Forall is_digit ds -> forall acc, 0 <= acc -> acc <= decimal_from acc ds.
Proof.
  unfold decimal_from.
  induction 1 as [| d ds [Hd0 Hd9] _ IH]; intros acc Hacc; cbn [fold_left]; [lia |].
  specialize (IH (acc * 10 + d) ltac:(lia)). lia.
Qed.

Section ReadInt.

Variable re : list byte.

(** [read_int] over a run of digits that a character other than a digit
    ends: the number the digits write, or -1 when there is no digit. *)
Lemma read_int_run (c : byte) :
  is_ascii c -> c < chr "0" \/ chr "9" < c ->
  forall (ds : list Z) (base res begin : Z) (fuel : nat),
    holds re base (digit_codes ds ++ [c]) ->
    Forall is_digit ds -> 0 <= res -> decimal_from res ds <= INT_MAX ->
    (List.length ds < fuel)%nat -> begin <= base ->
    Parser.read_int re fuel res base begin
    = Ok (if base + size ds =? begin then -1 else decimal_from res ds, base + size ds).
Proof.
  intros Hc Hnot.
  induction ds as [| d ds IH]; intros base res begin fuel Hholds Hds Hres Hmax Hfuel Hbegin;
    (destruct fuel as [| fuel]; [cbn [List.length] in Hfuel; lia |]);
    cbn [Parser.read_int].
  - cbn [digit_codes map app] in Hholds.
    pose proof (holds_head _ _ _ _ Hholds) as Hat.
    pose proof (at_index_inside _ _ _ Hat) as Hin.
    unfold Parser.end_.
    destruct (base =? size re) eqn:E; [apply Z.eqb_eq in E; lia |].
    rewrite (deref_ascii re base c Hat (land_128 c Hc)). cbn [bind].
    assert (Hout : (c <? chr "0") || (chr "9" <? c) = true).
    { apply orb_true_iff. destruct Hnot as [H | H];
        [left; apply Z.ltb_lt | right; apply Z.ltb_lt]; exact H. }
    rewrite Hout. change (size []) with 0. rewrite Z.add_0_r. reflexivity.
  - inversion Hds as [| d' ds' [Hd0 Hd9] Hds']; subst d' ds'.
    cbn [digit_codes map app] in Hholds.
    pose proof (holds_head _ _ _ _ Hholds) as Hat.
    pose proof (at_index_inside _ _ _ Hat) as Hin.
    assert (Hdigit : is_ascii (chr "0" + d))
      by (unfold is_ascii; change (chr "0") with 48; lia).
    unfold Parser.end_.
    destruct (base =? size re) eqn:E; [apply Z.eqb_eq in E; lia |].
    rewrite (deref_ascii re base _ Hat (land_128 _ Hdigit)). cbn [bind].
    assert (Hinside : (chr "0" + d <? chr "0") || (chr "9" <? chr "0" + d) = false).
    { apply orb_false_iff. change (chr "0") with 48. change (chr "9") with 57.
      split; apply Z.ltb_ge; lia. }
    rewrite Hinside.
    assert (Hstep : decimal_from res (d :: ds) = decimal_from (res * 10 + d) ds)
      by reflexivity.
    pose proof (decimal_from_le ds Hds' (res * 10 + d) ltac:(lia)) as Hle.
    assert (Hover : (INT_MAX <? res * 10) || (res * 10 <? - INT_MAX - 1) = false).
    { apply orb_false_iff. unfold INT_MAX in *. split; apply Z.ltb_ge; lia. }
    rewrite Hover.
    replace (res * 10 + (chr "0" + d) - chr "0") with (res * 10 + d) by lia.
    assert (Hint : to_int (res * 10 + d) = res * 10 + d).
    { unfold to_int, two32, INT_MAX in *. rewrite Z.mod_small by lia.
      destruct (res * 10 + d <=? 2147483647) eqn:E1; [reflexivity |].
      apply Z.leb_gt in E1. lia. }
    rewrite Hint.
    unfold Parser.next. rewrite (to_next_ascii re base _ Hat Hdigit).
    rewrite (IH (base + 1) (res * 10 + d) begin fuel
               (holds_tail _ _ _ _ Hholds) Hds' ltac:(lia) ltac:(lia)
               ltac:(cbn [List.length] in Hfuel; lia) ltac:(lia)).
    assert (Hsize : size (d :: ds) = size ds + 1)
      by (unfold size; cbn [List.length]; lia).
    pose proof (size_nonneg_any ds) as Hnn.
    rewrite Hsize, Hstep.
    destruct (base + 1 + size ds =? begin) eqn:E1; [apply Z.eqb_eq in E1; lia |].
    destruct (base + (size ds + 1) =? begin) eqn:E2; [apply Z.eqb_eq in E2; lia |].
    f_equal. f_equal. lia.
Qed.

Lemma count_of_run (ds : list Z) (base : Z) :
  (if base + size ds =? base then -1 else decimal_from 0 ds) = count_of ds.
Proof.
  destruct ds as [| d ds]; cbn [count_of].
  - change (size []) with 0. rewrite Z.add_0_r, Z.eqb_refl. reflexivity.
  - destruct (base + size (d :: ds) =? base) eqn:E; [| reflexivity].
    apply Z.eqb_eq in E. unfold size in E. cbn [List.length] in E. lia.
Qed.

Lemma digit_codes_size (ds : list Z) : size (digit_codes ds) = size ds.
Proof. unfold size, digit_codes. rewrite length_map. reflexivity. Qed.

Lemma plus_one_ascii (pos : Z) (c : byte) :
  at_index re pos = Some c -> is_ascii c -> Parser.plus re pos 1 = pos + 1.
Proof.
  intros Hat Hc. unfold Parser.plus, utf8.advance.
  change (Z.to_nat 1) with 1%nat. unfold Nat.iter. cbn [nat_rect].
  apply (to_next_ascii re pos c Hat Hc).
Qed.

(** [quantifier] at a count without a comma. *)
Lemma quantifier_exact (ds : list Z) (pos : Z) (fuel : nat) :
  holds re pos (chr "{" :: digit_codes ds ++ [chr "}"]) ->
  Forall is_digit ds -> decimal_from 0 ds <= INT_MAX -> (List.length ds < fuel)%nat ->
  Parser.quantifier re fuel pos
  = Ok (Quantifier.mk Quantifier.RepeatMinMax (count_of ds) (-1), pos + 1 + size ds + 1).
Proof.
  intros Hholds Hds Hmax Hfuel.
  pose proof (holds_head _ _ _ _ Hholds) as Hat.
  pose proof (at_index_inside _ _ _ Hat) as Hin.
  pose proof (holds_tail _ _ _ _ Hholds) as Hrun.
  pose proof (holds_app_r _ _ _ _ Hrun) as Hclose.
  rewrite digit_codes_size in Hclose. apply holds_head in Hclose.
  pose proof (at_index_inside _ _ _ Hclose) as Hin2.
  assert (Hbrace : is_ascii (chr "{")) by (unfold is_ascii; cbn; lia).
  assert (Hbrace2 : is_ascii (chr "}")) by (unfold is_ascii; cbn; lia).
  unfold Parser.quantifier, Parser.end_.
  destruct (pos =? size re) eqn:E; [apply Z.eqb_eq in E; lia |].
  rewrite (deref_ascii re pos _ Hat (land_128 _ Hbrace)). cbn [bind].
  change (chr "{" =? chr "*") with false. change (chr "{" =? chr "+") with false.
  change (chr "{" =? chr "?") with false. change (chr "{" =? chr "{") with true.
  cbv iota.
  rewrite (plus_one_ascii pos _ Hat Hbrace).
  rewrite (read_int_run (chr "}") Hbrace2 ltac:(right; cbn; lia) ds (pos + 1) 0 (pos + 1) fuel
             Hrun Hds ltac:(lia) Hmax Hfuel ltac:(lia)).
  cbn [bind]. rewrite count_of_run.
  rewrite (deref_ascii re _ _ Hclose (land_128 _ Hbrace2)). cbn [bind].
  change (chr "}" =? chr ",") with false. cbv iota. cbn [bind].
  rewrite (deref_ascii re _ _ Hclose (land_128 _ Hbrace2)). cbn [bind].
  change (negb (chr "}" =? chr "}")) with false. cbv iota.
  unfold Parser.next. rewrite (to_next_ascii re _ _ Hclose Hbrace2). reflexivity.
Qed.

(** [quantifier] at two counts with a comma between them. *)
Lemma quantifier_bounded (ds ds' : list Z) (pos : Z) (fuel : nat) :
  holds re pos (chr "{" :: digit_codes ds ++ chr "," :: digit_codes ds' ++ [chr "}"]) ->
  Forall is_digit ds -> Forall is_digit ds' ->
  decimal_from 0 ds <= INT_MAX -> decimal_from 0 ds' <= INT_MAX ->
  (List.length ds < fuel)%nat -> (List.length ds' < fuel)%nat ->
  Parser.quantifier re fuel pos
  = Ok (Quantifier.mk Quantifier.RepeatMinMax (count_of ds) (count_of ds'),
        pos + 1 + size ds + 1 + size ds' + 1).
Proof.
  intros Hholds Hds Hds' Hmax Hmax' Hfuel Hfuel'.
  pose proof (holds_head _ _ _ _ Hholds) as Hat.
  pose proof (at_index_inside _ _ _ Hat) as Hin.
  pose proof (holds_tail _ _ _ _ Hholds) as Hrun.
  pose proof (holds_app_r _ _ _ _ Hrun) as Hrest.
  rewrite digit_codes_size in Hrest.
  pose proof (holds_head _ _ _ _ Hrest) as Hcomma.
  pose proof (holds_tail _ _ _ _ Hrest) as Hrun'.
  pose proof (holds_app_r _ _ _ _ Hrun') as Hclose.
  rewrite digit_codes_size in Hclose. apply holds_head in Hclose.
  assert (Hrun1 : holds re (pos + 1) (digit_codes ds ++ [chr ","])).
  { intros n x Hn. apply Hrun.
    destruct (Nat.lt_ge_cases n (List.length (digit_codes ds))) as [Hlt | Hge].
    - rewrite nth_error_app1 in Hn |- * by exact Hlt. exact Hn.
    - rewrite nth_error_app2 in Hn |- * by exact Hge.
      destruct (n - List.length (digit_codes ds))%nat as [| m]; [exact Hn |].
      destruct m; discriminate. }
  assert (Hbrace : is_ascii (chr "{")) by (unfold is_ascii; cbn; lia).
  assert (Hbrace2 : is_ascii (chr "}")) by (unfold is_ascii; cbn; lia).
  assert (Hcomma_ascii : is_ascii (chr ",")) by (unfold is_ascii; cbn; lia).
  unfold Parser.quantifier, Parser.end_.
  destruct (pos =? size re) eqn:E; [apply Z.eqb_eq in E; lia |].
  rewrite (deref_ascii re pos _ Hat (land_128 _ Hbrace)). cbn [bind].
  change (chr "{" =? chr "*") with false. change (chr "{" =? chr "+") with false.
  change (chr "{" =? chr "?") with false. change (chr "{" =? chr "{") with true.
  cbv iota.
  rewrite (plus_one_ascii pos _ Hat Hbrace).
  rewrite (read_int_run (chr ",") Hcomma_ascii ltac:(left; cbn; lia) ds (pos + 1) 0 (pos + 1)
             fuel Hrun1 Hds ltac:(lia) Hmax Hfuel ltac:(lia)).
  cbn [bind]. rewrite count_of_run.
  rewrite (deref_ascii re _ _ Hcomma (land_128 _ Hcomma_ascii)). cbn [bind].
  change (chr "," =? chr ",") with true. cbv iota zeta.
  unfold Parser.next. rewrite !(to_next_ascii re _ _ Hcomma Hcomma_ascii).
  rewrite (read_int_run (chr "}") Hbrace2 ltac:(right; cbn; lia) ds'
             (pos + 1 + size ds + 1) 0 (pos + 1 + size ds + 1) fuel
             Hrun' Hds' ltac:(lia) Hmax' Hfuel' ltac:(lia)).
  cbn [bind]. rewrite count_of_run.
  rewrite (deref_ascii re _ _ Hclose (land_128 _ Hbrace2)). cbn [bind].
  change (negb (chr "}" =? chr "}")) with false. cbv iota.
  rewrite (to_next_ascii re _ _ Hclose Hbrace2). reflexivity.
Qed.

End ReadInt.

(** X14: what [quantifier] makes of braces.  A count without a comma is a
    lower bound only: {n} gives the Quantifier of {n,}, with the max -1
    that stands for no upper bound; with a comma the two counts are the min
    and the max, and a count that is left out is -1.  The counts are read as
    decimal numbers as long as they fit an int. *)
Theorem counted_quantifier :
  forall (pre rest : list byte) (ds ds' : list Z) (fuel : nat),
    Forall is_digit ds -> Forall is_digit ds' ->
    decimal_from 0 ds <= INT_MAX -> decimal_from 0 ds' <= INT_MAX ->
    let exact := chr "{" :: digit_codes ds ++ [chr "}"] in
    let bounded := chr "{" :: digit_codes ds ++ chr "," :: digit_codes ds' ++ [chr "}"] in
    Parser.quantifier (pre ++ exact ++ rest) (List.length ds + 1 + fuel) (size pre)
    = Ok (Quantifier.mk Quantifier.RepeatMinMax (count_of ds) (-1),
          size pre + size exact) /\
    Parser.quantifier (pre ++ bounded ++ rest)
                      (List.length ds + List.length ds' + 1 + fuel) (size pre)
    = Ok (Quantifier.mk Quantifier.RepeatMinMax (count_of ds) (count_of ds'),
          size pre + size bounded).
Proof.
  intros pre rest ds ds' fuel Hds Hds' Hmax Hmax' exact bounded.
  split.
  - rewrite (quantifier_exact (pre ++ exact ++ rest) ds (size pre)
               (List.length ds + 1 + fuel) (holds_intro pre exact rest) Hds Hmax ltac:(lia)).
    f_equal. f_equal. unfold exact, size. cbn [List.length].
    rewrite length_app. unfold digit_codes. rewrite length_map. cbn [List.length]. lia.
  - rewrite (quantifier_bounded (pre ++ bounded ++ rest) ds ds' (size pre)
               (List.length ds + List.length ds' + 1 + fuel)
               (holds_intro pre bounded rest) Hds Hds' Hmax Hmax' ltac:(lia) ltac:(lia)).
    f_equal. f_equal. unfold bounded, size. cbn [List.length].
    rewrite length_app. cbn [List.length]. rewrite length_app.
    unfold digit_codes. rewrite !length_map. cbn [List.length]. lia.
Qed.

(** The theorem at a{3} and a{3,5}. *)
Lemma counted_quantifier_witness :
  Parser.quantifier (bytes_of_string "a{3}") 2 1
  = Ok (Quantifier.mk Quantifier.RepeatMinMax 3 (-1), 4) /\
  Parser.quantifier (bytes_of_string "a{3,5}") 3 1
  = Ok (Quantifier.mk Quantifier.RepeatMinMax 3 5, 6).
Proof.
  assert (H3 : Forall is_digit [3]) by (repeat constructor; lia).
  assert (H5 : Forall is_digit [5]) by (repeat constructor; lia).
  exact (counted_quantifier [chr "a"] [] [3] [5] 0 H3 H5
           ltac:(cbn; unfold INT_MAX; lia) ltac:(cbn; unfold INT_MAX; lia)).
Defined.

(** ** What follows a stray closing bracket *)

(** X15: [parse] does not check that it consumed the pattern.  After a
    nonempty run of plain characters, a closing bracket that nothing opened,
    or a NUL, ends the parse without an error: the pattern is compiled as if
    it ended before that character, and whatever follows is never read. *)
Theorem parse_stops_at_closing_bracket :
  forall (lits rest : list byte) (c : byte) (fuel : nat),
    lits <> [] -> Forall plain lits -> contains ")]}" c = true ->
    Parser.parse (lits ++ c :: rest) (List.length lits + 3 + fuel)
    = Parser.parse lits (List.length lits + 3 + fuel) /\
    compile (List.length lits + 3 + fuel) (lits ++ c :: rest) = Ok (literal_program lits).
Proof.
  intros lits rest c fuel Hne Hplain Hc.
  assert (Htail : ends_run (c :: rest)).
  { right. exists c, rest. split; [reflexivity | exact Hc]. }
  pose proof (parse_plain_run lits (c :: rest) fuel Hne Hplain Htail) as Hrun.
  split.
  - rewrite Hrun, (parse_plain lits fuel Hne Hplain). reflexivity.
  - unfold compile. rewrite Hrun. cbn [bind].
    apply compile_parsed_literal, plain_ascii, Hplain.
Qed.

(** The theorem at the pattern a)b*, which is compiled as the pattern a. *)
Lemma parse_stops_at_closing_bracket_witness :
  Parser.parse (bytes_of_string "a)b*") 4 = Parser.parse (bytes_of_string "a") 4 /\
  compile 4 (bytes_of_string "a)b*") = Ok (literal_program (bytes_of_string "a")).
Proof.
  apply (parse_stops_at_closing_bracket (bytes_of_string "a") (bytes_of_string "b*")
           (chr ")") 0).
  - discriminate.
  - repeat constructor; cbn; lia.
  - reflexivity.
Defined.

(** ** Searching for a plain pattern *)

Lemma nth_error_frame {A : Type} (done : list A) (t : A) (rest : list A) :
  nth_error (done ++ t :: rest) (List.length done) = Some t.
Proof. rewrite nth_error_app2 by lia. rewrite Nat.sub_diag. reflexivity. Qed.

Lemma update_at_frame {A : Type} (done : list A) (t : A) (rest : list A) (x : A) :
  update_at (done ++ t :: rest) (List.length done) x = done ++ x :: rest.
Proof.
  unfold update_at.
  rewrite firstn_app, firstn_all, Nat.sub_diag, skipn_app, skipn_all, Nat.sub_diag.
  cbn [firstn skipn app]. rewrite app_nil_r. reflexivity.
Qed.

Lemma set_inst_frame (done : list Thread) (t : Thread) (rest : list Thread)
  (q : Z) (caps : list (option Z)) (x : option Z) :
  set_inst (mkVM (done ++ t :: rest) q caps) (List.length done) x
  = mkVM (done ++ mkThread x (saves t) :: rest) q caps.
Proof.
  unfold set_inst, set_threads. cbn [m_threads m_pos m_captures].
  rewrite nth_error_frame, update_at_frame. reflexivity.
Qed.

Lemma set_save_frame (done : list Thread) (t : Thread) (rest : list Thread)
  (q : Z) (caps : list (option Z)) (k : nat) (v : Z) :
  set_save (mkVM (done ++ t :: rest) q caps) (List.length done) k v
  = mkVM (done ++ mkThread (inst t) (update_at (saves t) k (Some v)) :: rest) q caps.
Proof.
  unfold set_save, set_threads. cbn [m_threads m_pos m_captures].
  rewrite nth_error_frame, update_at_frame. reflexivity.
Qed.

Lemma has_thread_at_app (a b : list Thread) (x : option Z) :
  has_thread_at (a ++ b) x = has_thread_at a x || has_thread_at b x.
Proof. unfold has_thread_at. apply existsb_app. Qed.

Lemma add_thread_at_end (l : list Thread) (pos : Offset) (svs : list (option Z)) :
  has_thread_at l (Some pos) = false ->
  add_thread l (List.length l) pos svs = l ++ [mkThread (Some pos) svs].
Proof.
  intro H. unfold add_thread. rewrite H. rewrite firstn_all, skipn_all. reflexivity.
Qed.

Section SearchRun.

Variable is_word : Codepoint -> bool.
Variables lits data : list byte.

Hypothesis lits_ascii : Forall is_ascii lits.
Hypothesis data_ascii : Forall is_ascii data.

Local Abbreviation program := (literal_program lits).
Local Abbreviation code_at := (at_index (CompiledRegex.bytecode (literal_program lits))).

(** The codepoint [step] compares with when the cursor is at [q]. *)
Local Abbreviation cp_at q := (if q =? m_end data then 0 else codepoint_at data q).

(** A thread at a Literal instruction, among other threads. *)
Lemma step_literal_among (done rest : list Thread) (k : nat) (c : byte)
  (svs : list (option Z)) (q : Z) (caps : list (option Z)) (fuel : nat) :
  nth_error lits k = Some c ->
  step is_word program data (S fuel)
       (mkVM (done ++ mkThread (Some (13 + 2 * Z.of_nat k)) svs :: rest) q caps)
       (List.length done)
  = Ok (if c =? cp_at q then Consumed else Failed,
        mkVM (done ++ mkThread (Some (13 + 2 * Z.of_nat (S k))) svs :: rest) q caps).
Proof.
  intro Hk. destruct (program_at_literal lits k c Hk) as [H0 H1].
  pose proof (Forall_nth_error _ _ _ _ lits_ascii Hk) as Hc.
  cbn [step]. unfold step_instruction. cbn [m_threads m_pos].
  rewrite nth_error_frame. cbn [inst].
  rewrite H0. cbn [CompiledRegex.code CompiledRegex.decode].
  unfold program_codepoint. rewrite (read_codepoint_ascii _ _ c H1 Hc).
  cbn [fst snd utf8.pass].
  rewrite set_inst_frame. cbn [saves]. rewrite set_inst_frame. cbn [saves bind].
  replace (13 + 2 * Z.of_nat k + 1 + 1) with (13 + 2 * Z.of_nat (S k)) by lia.
  reflexivity.
Qed.

(** A thread after the last Literal, among other threads: Save and Match. *)
Lemma step_end_among (done rest : list Thread) (s0 s1 : option Z) (q : Z)
  (caps : list (option Z)) (fuel : nat) :
  step is_word program data (S (S fuel))
       (mkVM (done ++ mkThread (Some (13 + 2 * size lits)) [s0; s1] :: rest) q caps)
       (List.length done)
  = Ok (Matched, mkVM (done ++ mkThread None [s0; Some q] :: rest) q caps).
Proof.
  assert (H0 : code_at (13 + 2 * size lits) = Some (CompiledRegex.code CompiledRegex.Save)).
  { replace (13 + 2 * size lits) with (13 + 2 * size lits + 0) by lia.
    rewrite program_at_end by lia. reflexivity. }
  assert (H1 : code_at (13 + 2 * size lits + 1) = Some 1)
    by (rewrite program_at_end by lia; reflexivity).
  assert (H2 : code_at (13 + 2 * size lits + 1 + 1)
               = Some (CompiledRegex.code CompiledRegex.Match)).
  { replace (13 + 2 * size lits + 1 + 1) with (13 + 2 * size lits + 2) by lia.
    rewrite program_at_end by lia. reflexivity. }
  cbn [step]. unfold step_instruction at 1. cbn [m_threads m_pos].
  rewrite nth_error_frame. cbn [inst].
  rewrite H0. cbn [CompiledRegex.code CompiledRegex.decode]. rewrite H1.
  cbn [saves].
  change (char_value 1) with 1.
  change ((0 <=? 1) && (1 <? size [s0; s1])) with true. cbv iota.
  change (Z.to_nat 1) with 1%nat.
  rewrite set_inst_frame. cbn [saves]. rewrite set_inst_frame. cbn [saves].
  rewrite set_save_frame. cbn [saves inst update_at firstn skipn app bind].
  unfold step_instruction. cbn [m_threads m_pos].
  rewrite nth_error_frame. cbn [inst].
  rewrite H2. cbn [CompiledRegex.code CompiledRegex.decode].
  rewrite set_inst_frame. cbn [saves]. rewrite set_inst_frame. cbn [saves bind].
  reflexivity.
Qed.

(** The AnyChar of the search prefix. *)
Lemma step_any_among (done rest : list Thread) (svs : list (option Z)) (q : Z)
  (caps : list (option Z)) (fuel : nat) :
  step is_word program data (S fuel)
       (mkVM (done ++ mkThread (Some 5) svs :: rest) q caps) (List.length done)
  = Ok (Consumed, mkVM (done ++ mkThread (Some 6) svs :: rest) q caps).
Proof.
  assert (H0 : code_at 5 = Some (CompiledRegex.code CompiledRegex.AnyChar)) by reflexivity.
  cbn [step]. unfold step_instruction. cbn [m_threads m_pos].
  rewrite nth_error_frame. cbn [inst].
  rewrite H0. cbn [CompiledRegex.code CompiledRegex.decode].
  rewrite set_inst_frame. cbn [saves bind]. reflexivity.
Qed.

(** The thread of the search prefix: it leaves a thread at the AnyChar
    behind it and tries the pattern at the cursor. *)
Lemma step_scout (done : list Thread) (p : nat) (q : Z) (caps : list (option Z))
  (fuel : nat) (c0 : byte) :
  nth_error lits 0 = Some c0 -> has_thread_at done (Some 5) = false ->
  step is_word program data (S (S (S fuel))) (mkVM (done ++ [scout_thread p]) q caps)
       (List.length done)
  = Ok (if c0 =? cp_at q then Consumed else Failed,
        mkVM (done ++ [mkThread (Some 15) [Some q; None]; mkThread (Some 5) [None; None]])
             q caps).
Proof.
  intros Hc0 Hdone.
  assert (Hsave : forall f,
             step is_word program data (S (S f))
               (mkVM (done ++ [mkThread (Some prefix_size) [None; None];
                               mkThread (Some 5) [None; None]]) q caps)
               (List.length done)
             = Ok (if c0 =? cp_at q then Consumed else Failed,
                   mkVM (done ++ [mkThread (Some 15) [Some q; None];
                                  mkThread (Some 5) [None; None]]) q caps)).
  { intro f.
    assert (H0 : code_at prefix_size = Some (CompiledRegex.code CompiledRegex.Save))
      by reflexivity.
    assert (H1 : code_at (prefix_size + 1) = Some 0) by reflexivity.
    remember (S f) as f1 eqn:Hf1.
    cbn [step]. unfold step_instruction at 1. cbn [m_threads m_pos].
    rewrite nth_error_frame. cbn [inst].
    rewrite H0. cbn [CompiledRegex.code CompiledRegex.decode]. rewrite H1.
    cbn [saves].
    change (char_value 0) with 0.
    change ((0 <=? 0) && (0 <? size [@None Z; @None Z])) with true. cbv iota.
    change (Z.to_nat 0) with 0%nat.
    rewrite set_inst_frame. cbn [saves]. rewrite set_inst_frame. cbn [saves].
    rewrite set_save_frame. cbn [saves inst update_at firstn skipn app bind m_pos].
    change (prefix_size + 1 + 1) with (13 + 2 * Z.of_nat 0). subst f1.
    rewrite (step_literal_among done [mkThread (Some 5) [None; None]] 0 c0 _ q caps f Hc0).
    reflexivity. }
  assert (Hadd : forall i0 : Z,
             i0 <> 5 ->
             add_thread (done ++ [mkThread (Some i0) [None; None]]) (List.length done + 1) 5
                        [None; None]
             = done ++ [mkThread (Some i0) [None; None]; mkThread (Some 5) [None; None]]).
  { intros i0 Hi0.
    replace (List.length done + 1)%nat
      with (List.length (done ++ [mkThread (Some i0) [None; None]]))
      by (rewrite length_app; reflexivity).
    rewrite add_thread_at_end.
    - rewrite <- app_assoc. reflexivity.
    - rewrite has_thread_at_app.
      match goal with
      | |- context [has_thread_at done ?x] =>
        replace (has_thread_at done x) with false by (symmetry; exact Hdone)
      end.
      cbn [orb has_thread_at existsb inst inst_eqb].
      apply Z.eqb_neq in Hi0. rewrite Hi0. reflexivity. }
  remember (S fuel) as fuel1 eqn:Hfuel1.
  destruct p as [| p']; unfold scout_thread; cbn [step];
    unfold step_instruction at 1; cbn [m_threads m_pos];
    rewrite nth_error_frame; cbn [inst].
  - assert (H0 : code_at 0 = Some (CompiledRegex.code CompiledRegex.Split_PrioritizeChild))
      by reflexivity.
    assert (H1 : read_offset (CompiledRegex.bytecode program) (0 + 1) = Ok prefix_size)
      by reflexivity.
    rewrite H0. cbn [CompiledRegex.code CompiledRegex.decode]. rewrite H1.
    rewrite set_inst_frame. cbn [saves m_threads bind].
    change (to_offset (0 + 1 + sizeof_Offset)) with 5.
    rewrite (Hadd (0 + 1)) by discriminate.
    unfold set_threads. cbn [m_pos m_captures].
    rewrite set_inst_frame. cbn [saves]. subst fuel1. apply Hsave.
  - assert (H0 : code_at 6 = Some (CompiledRegex.code CompiledRegex.Split_PrioritizeParent))
      by reflexivity.
    assert (H1 : read_offset (CompiledRegex.bytecode program) (6 + 1) = Ok 5)
      by reflexivity.
    rewrite H0. cbn [CompiledRegex.code CompiledRegex.decode]. rewrite H1.
    rewrite set_inst_frame. cbn [saves m_threads bind].
    rewrite (Hadd (6 + 1)) by discriminate.
    unfold set_threads. cbn [m_pos m_captures].
    rewrite set_inst_frame. cbn [saves]. subst fuel1. apply Hsave.
Qed.

Lemma cp_at_inside (p : nat) (d : byte) :
  nth_error data p = Some d -> cp_at (Z.of_nat p) = d.
Proof.
  intro Hd.
  assert (Hlt : nth_error data p <> None) by (rewrite Hd; discriminate).
  apply nth_error_Some in Hlt.
  destruct (Z.of_nat p =? m_end data) eqn:E;
    [apply Z.eqb_eq in E; unfold m_end, size in E; lia |].
  unfold codepoint_at.
  rewrite (read_codepoint_ascii data (Z.of_nat p) d);
    [reflexivity | rewrite at_index_of_nat; exact Hd |].
  apply (Forall_nth_error _ _ _ _ data_ascii Hd).
Qed.

Lemma ltb_frame {A : Type} (done : list A) (t : A) (rest : list A) :
  (List.length done <? List.length (done ++ t :: rest))%nat = true.
Proof. apply Nat.ltb_lt. rewrite length_app. cbn [List.length]. lia. Qed.

(** A round of [exec] over the attempts, none of which is at the end of
    the pattern: each one goes on or dies. *)
Lemma step_threads_attempts (p : nat) (d : byte) (caps : list (option Z))
  (rest : list Thread) :
  nth_error data p = Some d ->
  forall (ss : list nat) (done : list Thread) (fuel : nat),
    Forall (fun s => (s <= p)%nat /\ (p - s < List.length lits)%nat) ss ->
    (2 <= fuel)%nat ->
    step_threads is_word program data false false (List.length ss + fuel)
                 (List.length done) false
                 (mkVM (done ++ map (attempt_thread p) ss ++ rest) (Z.of_nat p) caps)
    = step_threads is_word program data false false fuel
                   (List.length done + List.length ss) false
                   (mkVM ((done ++ map (after_round lits p d) ss) ++ rest) (Z.of_nat p) caps).
Proof.
  intro Hd.
  induction ss as [| s ss IH]; intros done fuel Hss Hfuel.
  - cbn [map app List.length Nat.add]. rewrite app_nil_r, Nat.add_0_r. reflexivity.
  - inversion Hss as [| s' ss' [Hsp Hk] Hss']; subst s' ss'.
    destruct (nth_error lits (p - s)) as [c |] eqn:Hc;
      [| apply nth_error_None in Hc; lia].
    destruct fuel as [| fuel]; [lia |].
    cbn [List.length map app]. rewrite Nat.add_succ_l.
    cbn [step_threads m_threads]. rewrite ltb_frame.
    rewrite Nat.add_succ_r. unfold attempt_thread at 1.
    rewrite (step_literal_among done (map (attempt_thread p) ss ++ rest) (p - s) c
               _ (Z.of_nat p) caps (List.length ss + fuel) Hc).
    rewrite (cp_at_inside p d Hd). cbn [bind].
    assert (Hnext : forall t : Thread,
               t = after_round lits p d s ->
               step_threads is_word program data false false (List.length ss + S fuel)
                 (List.length done + 1) false
                 (mkVM (done ++ t :: map (attempt_thread p) ss ++ rest) (Z.of_nat p) caps)
               = step_threads is_word program data false false (S fuel)
                   (List.length done + S (List.length ss)) false
                   (mkVM ((done ++ after_round lits p d s :: map (after_round lits p d) ss)
                          ++ rest) (Z.of_nat p) caps)).
    { intros t ->.
      replace (done ++ after_round lits p d s :: map (attempt_thread p) ss ++ rest)
        with ((done ++ [after_round lits p d s]) ++ map (attempt_thread p) ss ++ rest)
        by (rewrite <- app_assoc; reflexivity).
      replace (List.length done + 1)%nat
        with (List.length (done ++ [after_round lits p d s]))
        by (rewrite length_app; reflexivity).
      rewrite (IH (done ++ [after_round lits p d s]) (S fuel) Hss' ltac:(lia)).
      rewrite length_app. cbn [List.length].
      replace (List.length done + 1 + List.length ss)%nat
        with (List.length done + S (List.length ss))%nat by lia.
      rewrite <- !app_assoc. reflexivity. }
    rewrite <- Nat.add_succ_r.
    unfold after_round in Hnext at 1. rewrite Hc in Hnext.
    destruct (c =? d).
    + apply Hnext. unfold attempt_thread. rewrite Nat.sub_succ_l by exact Hsp. reflexivity.
    + rewrite set_inst_frame. cbn [saves]. apply Hnext. reflexivity.
Qed.

(** The end of a round: the thread of the search prefix starts an attempt
    at the cursor, and the thread it leaves behind consumes the character. *)
Lemma step_threads_scout (p : nat) (d c0 : byte) (caps : list (option Z))
  (done : list Thread) (fuel : nat) :
  nth_error data p = Some d -> nth_error lits 0 = Some c0 ->
  has_thread_at done (Some 5) = false ->
  step_threads is_word program data false false (S (S (S (S (S fuel)))))
               (List.length done) false
               (mkVM (done ++ [scout_thread p]) (Z.of_nat p) caps)
  = Ok (None, false,
        mkVM (done ++ [if c0 =? d then mkThread (Some 15) [Some (Z.of_nat p); None]
                       else mkThread None [Some (Z.of_nat p); None];
                       mkThread (Some 6) [None; None]])
             (Z.of_nat p) caps).
Proof.
  intros Hd Hc0 Hdone.
  cbn [step_threads m_threads]. rewrite ltb_frame.
  rewrite (step_scout done p (Z.of_nat p) caps (S fuel) c0 Hc0 Hdone).
  rewrite (cp_at_inside p d Hd). cbn [bind].
  assert (Hlast : forall t : Thread,
             step_threads is_word program data false false (S (S (S (S fuel))))
               (List.length done + 1) false
               (mkVM (done ++ [t; mkThread (Some 5) [None; None]]) (Z.of_nat p) caps)
             = Ok (None, false,
                   mkVM (done ++ [t; mkThread (Some 6) [None; None]]) (Z.of_nat p) caps)).
  { intro t.
    replace (done ++ [t; mkThread (Some 5) [None; None]])
      with ((done ++ [t]) ++ [mkThread (Some 5) [None; None]])
      by (rewrite <- app_assoc; reflexivity).
    replace (List.length done + 1)%nat with (List.length (done ++ [t]))
      by (rewrite length_app; reflexivity).
    cbn [step_threads m_threads]. rewrite ltb_frame.
    rewrite step_any_among. cbn [bind m_threads].
    set (l := (done ++ [t]) ++ [mkThread (Some 6) [None; None]]).
    replace (List.length (done ++ [t]) + 1 <? List.length l)%nat with false
      by (symmetry; apply Nat.ltb_ge; unfold l; rewrite !length_app;
          cbn [List.length]; lia).
    unfold l. rewrite <- app_assoc. reflexivity. }
  destruct (c0 =? d).
  - apply Hlast.
  - rewrite set_inst_frame. cbn [saves]. apply Hlast.
Qed.

Lemma no_attempt_at_any (p : nat) (d : byte) (ss : list nat) :
  has_thread_at (map (after_round lits p d) ss) (Some 5) = false.
Proof.
  unfold has_thread_at. induction ss as [| s ss IH]; [reflexivity |].
  cbn [map existsb]. rewrite IH, orb_false_r.
  unfold after_round. destruct (nth_error lits (p - s)) as [c |]; [| reflexivity].
  destruct (c =? d); [| reflexivity].
  unfold attempt_thread. cbn [inst inst_eqb]. apply Z.eqb_neq. lia.
Qed.

Lemma live_after_round (p : nat) (d : byte) (ss : list nat) :
  filter (fun t => negb (is_dead t)) (map (after_round lits p d) ss)
  = map (attempt_thread (S p)) (filter (goes_on lits p d) ss).
Proof.
  induction ss as [| s ss IH]; [reflexivity |].
  cbn [map filter]. rewrite IH. unfold after_round, goes_on.
  destruct (nth_error lits (p - s)) as [c |]; [| reflexivity].
  destruct (c =? d); reflexivity.
Qed.

(** A round of [exec] in which no attempt is at the end of the pattern. *)
Lemma exec_round_search (p : nat) (d c0 : byte) (ss : list nat) (caps : list (option Z))
  (fuel : nat) :
  nth_error data p = Some d -> nth_error lits 0 = Some c0 ->
  Forall (fun s => (s <= p)%nat /\ (p - s < List.length lits)%nat) ss ->
  (List.length ss + 5 <= fuel)%nat ->
  exec_round is_word program data false false fuel false (search_vm p ss caps)
  = Ok (None, false, search_vm (S p) (next_starts lits p d ss) caps).
Proof.
  intros Hd Hc0 Hss Hfuel.
  unfold exec_round, search_vm.
  replace fuel with (List.length ss + (fuel - List.length ss))%nat by lia.
  pose proof (step_threads_attempts p d caps [scout_thread p] Hd ss [] 
                (fuel - List.length ss) Hss ltac:(lia)) as Hpass.
  cbn [app List.length Nat.add] in Hpass. rewrite Hpass. clear Hpass.
  replace (List.length ss) with (List.length (map (after_round lits p d) ss)) at 2
    by apply length_map.
  destruct (fuel - List.length ss)%nat as [| [| [| [| [| f]]]]] eqn:Hf; try lia.
  rewrite (step_threads_scout p d c0 caps _ f Hd Hc0 (no_attempt_at_any p d ss)).
  cbn [bind]. unfold set_threads. cbn [m_threads m_pos m_captures].
  rewrite filter_app, live_after_round.
  assert (Hat : at_index data (Z.of_nat p) = Some d)
    by (rewrite at_index_of_nat; exact Hd).
  rewrite (to_next_ascii data _ d Hat (Forall_nth_error _ _ _ _ data_ascii Hd)).
  replace (Z.of_nat p + 1) with (Z.of_nat (S p)) by lia.
  assert (Hgo : goes_on lits p d p = (c0 =? d))
    by (unfold goes_on; rewrite Nat.sub_diag, Hc0; reflexivity).
  unfold next_starts. rewrite Hgo, map_app.
  destruct (c0 =? d); cbn [filter is_dead inst inst_eqb negb map app].
  - assert (Hself : attempt_thread (S p) p
                    = mkThread (Some 15) [Some (Z.of_nat p); None]).
    { unfold attempt_thread. rewrite Nat.sub_succ_l, Nat.sub_diag by lia. reflexivity. }
    rewrite Hself, <- app_assoc. cbn [app].
    destruct (map (attempt_thread (S p)) (filter (goes_on lits p d) ss)); reflexivity.
  - rewrite app_nil_r.
    destruct (map (attempt_thread (S p)) (filter (goes_on lits p d) ss)); reflexivity.
Qed.

Lemma firstn_frame {A : Type} (done rest : list A) :
  firstn (List.length done) (done ++ rest) = done.
Proof. rewrite firstn_app, firstn_all, Nat.sub_diag. cbn [firstn]. apply app_nil_r. Qed.

(** A round of [exec] in which an attempt is at the end of the pattern:
    [exec] returns true with the captures of that attempt. *)
Lemma step_threads_match (p : nat) (d : byte) (caps : list (option Z))
  (ss1 : list nat) (s : nat) (ss2 : list nat) (rest : list Thread) (fuel : nat) :
  nth_error data p = Some d ->
  Forall (fun s => (s <= p)%nat /\ (p - s < List.length lits)%nat) ss1 ->
  (p - s)%nat = List.length lits ->
  (List.length ss1 + 3 <= fuel)%nat ->
  step_threads is_word program data false false fuel 0 false
               (mkVM (map (attempt_thread p) (ss1 ++ s :: ss2) ++ rest) (Z.of_nat p) caps)
  = Ok (Some true, true,
        mkVM (map (after_round lits p d) ss1) (Z.of_nat p)
             [Some (Z.of_nat s); Some (Z.of_nat p)]).
Proof.
  intros Hd Hss1 Hk Hfuel.
  rewrite map_app, <- app_assoc. cbn [map app].
  replace fuel with (List.length ss1 + (fuel - List.length ss1))%nat by lia.
  pose proof (step_threads_attempts p d caps
                (attempt_thread p s :: map (attempt_thread p) ss2 ++ rest) Hd ss1 []
                (fuel - List.length ss1) Hss1 ltac:(lia)) as Hpass.
  cbn [app List.length Nat.add] in Hpass. rewrite Hpass. clear Hpass.
  replace (List.length ss1) with (List.length (map (after_round lits p d) ss1)) at 2
    by apply length_map.
  destruct (fuel - List.length ss1)%nat as [| [| [| f]]] eqn:Hf; try lia.
  cbn [step_threads m_threads]. rewrite ltb_frame.
  unfold attempt_thread at 1. rewrite Hk. change (Z.of_nat (List.length lits)) with (size lits).
  rewrite step_end_among. cbn [bind negb m_threads m_pos].
  rewrite firstn_frame. unfold thread_saves. cbn [m_threads].
  rewrite nth_error_frame. reflexivity.
Qed.

(** The loop after the subject: the attempts that are not at the end of the
    pattern do not match. *)
Lemma step_remaining_attempts (p : nat) (caps : list (option Z)) (rest : list Thread) :
  forall (ss : list nat) (done : list Thread) (fuel : nat),
    Forall (fun s => (s <= p)%nat /\ (p - s < List.length lits)%nat) ss ->
    (2 <= fuel)%nat ->
    step_remaining is_word program data false (List.length ss + fuel)
                   (List.length done) false
                   (mkVM (done ++ map (attempt_thread p) ss ++ rest) (Z.of_nat p) caps)
    = step_remaining is_word program data false fuel
                     (List.length done + List.length ss) false
                     (mkVM ((done ++ map (attempt_thread (S p)) ss) ++ rest)
                           (Z.of_nat p) caps).
Proof.
  induction ss as [| s ss IH]; intros done fuel Hss Hfuel.
  - cbn [map app List.length Nat.add]. rewrite app_nil_r, Nat.add_0_r. reflexivity.
  - inversion Hss as [| s' ss' [Hsp Hk] Hss']; subst s' ss'.
    destruct (nth_error lits (p - s)) as [c |] eqn:Hc;
      [| apply nth_error_None in Hc; lia].
    destruct fuel as [| fuel]; [lia |].
    cbn [List.length map app]. rewrite Nat.add_succ_l.
    cbn [step_remaining m_threads]. rewrite ltb_frame.
    rewrite Nat.add_succ_r. unfold attempt_thread at 1.
    rewrite (step_literal_among done (map (attempt_thread p) ss ++ rest) (p - s) c
               _ (Z.of_nat p) caps (List.length ss + fuel) Hc).
    cbn [bind].
    assert (Hnext :
               step_remaining is_word program data false (List.length ss + S fuel)
                 (List.length done + 1) false
                 (mkVM (done ++ attempt_thread (S p) s :: map (attempt_thread p) ss ++ rest)
                       (Z.of_nat p) caps)
               = step_remaining is_word program data false (S fuel)
                   (List.length done + S (List.length ss)) false
                   (mkVM ((done ++ attempt_thread (S p) s :: map (attempt_thread (S p)) ss)
                          ++ rest) (Z.of_nat p) caps)).
    { replace (done ++ attempt_thread (S p) s :: map (attempt_thread p) ss ++ rest)
        with ((done ++ [attempt_thread (S p) s]) ++ map (attempt_thread p) ss ++ rest)
        by (rewrite <- app_assoc; reflexivity).
      replace (List.length done + 1)%nat
        with (List.length (done ++ [attempt_thread (S p) s]))
        by (rewrite length_app; reflexivity).
      rewrite (IH (done ++ [attempt_thread (S p) s]) (S fuel) Hss' ltac:(lia)).
      rewrite length_app. cbn [List.length].
      replace (List.length done + 1 + List.length ss)%nat
        with (List.length done + S (List.length ss))%nat by lia.
      rewrite <- !app_assoc. reflexivity. }
    rewrite <- Nat.add_succ_r.
    unfold attempt_thread in Hnext at 1. rewrite Nat.sub_succ_l in Hnext by exact Hsp.
    destruct (c =? cp_at (Z.of_nat p)); exact Hnext.
Qed.

Lemma no_attempt_at_any_later (p : nat) (ss : list nat) :
  has_thread_at (map (attempt_thread (S p)) ss) (Some 5) = false.
Proof.
  unfold has_thread_at. induction ss as [| s ss IH]; [reflexivity |].
  cbn [map existsb]. rewrite IH, orb_false_r.
  unfold attempt_thread. cbn [inst inst_eqb]. apply Z.eqb_neq. lia.
Qed.

Lemma step_remaining_scout (p : nat) (c0 : byte) (caps : list (option Z))
  (done : list Thread) (f : nat) :
  nth_error lits 0 = Some c0 -> has_thread_at done (Some 5) = false ->
  exists vm',
    step_remaining is_word program data false (S (S (S (S (S f))))) (List.length done) false
                   (mkVM (done ++ [scout_thread p]) (Z.of_nat p) caps)
    = Ok (None, false, vm').
Proof.
  intros Hc0 Hdone.
  cbn [step_remaining m_threads]. rewrite ltb_frame.
  rewrite (step_scout done p (Z.of_nat p) caps (S f) c0 Hc0 Hdone).
  cbn [bind].
  assert (Hlast :
             step_remaining is_word program data false (S (S (S (S f))))
               (List.length done + 1) false
               (mkVM (done ++ [mkThread (Some 15) [Some (Z.of_nat p); None];
                               mkThread (Some 5) [None; None]]) (Z.of_nat p) caps)
             = Ok (None, false,
                   mkVM (done ++ [mkThread (Some 15) [Some (Z.of_nat p); None];
                                  mkThread (Some 6) [None; None]]) (Z.of_nat p) caps)).
  { set (t := mkThread (Some 15) [Some (Z.of_nat p); None]).
    replace (done ++ [t; mkThread (Some 5) [None; None]])
      with ((done ++ [t]) ++ [mkThread (Some 5) [None; None]])
      by (rewrite <- app_assoc; reflexivity).
    replace (List.length done + 1)%nat with (List.length (done ++ [t]))
      by (rewrite length_app; reflexivity).
    cbn [step_remaining m_threads]. rewrite ltb_frame.
    rewrite step_any_among. cbn [bind m_threads].
    set (l := (done ++ [t]) ++ [mkThread (Some 6) [None; None]]).
    replace (List.length (done ++ [t]) + 1 <? List.length l)%nat with false
      by (symmetry; apply Nat.ltb_ge; unfold l; rewrite !length_app;
          cbn [List.length]; lia).
    unfold l. rewrite <- app_assoc. reflexivity. }
  eexists.
  destruct (c0 =? cp_at (Z.of_nat p)); exact Hlast.
Qed.

(** The loop after the subject, when no attempt is at the end of the
    pattern: nothing matches. *)
Lemma step_remaining_search (p : nat) (c0 : byte) (ss : list nat) (caps : list (option Z))
  (fuel : nat) :
  nth_error lits 0 = Some c0 ->
  Forall (fun s => (s <= p)%nat /\ (p - s < List.length lits)%nat) ss ->
  (List.length ss + 5 <= fuel)%nat ->
  exists vm',
    step_remaining is_word program data false fuel 0 false (search_vm p ss caps)
    = Ok (None, false, vm').
Proof.
  intros Hc0 Hss Hfuel. unfold search_vm.
  replace fuel with (List.length ss + (fuel - List.length ss))%nat by lia.
  pose proof (step_remaining_attempts p caps [scout_thread p] ss []
                (fuel - List.length ss) Hss ltac:(lia)) as Hpass.
  cbn [app List.length Nat.add] in Hpass. rewrite Hpass. clear Hpass.
  destruct (fuel - List.length ss)%nat as [| [| [| [| [| f]]]]] eqn:Hf; try lia.
  destruct (step_remaining_scout p c0 caps (map (attempt_thread (S p)) ss) f Hc0
              (no_attempt_at_any_later p ss)) as [vm' H].
  rewrite length_map in H. exists vm'. exact H.
Qed.

(** The loop after the subject, when an attempt is at the end of the
    pattern. *)
Lemma step_remaining_match (p : nat) (caps : list (option Z))
  (ss1 : list nat) (s : nat) (ss2 : list nat) (rest : list Thread) (fuel : nat) :
  Forall (fun s => (s <= p)%nat /\ (p - s < List.length lits)%nat) ss1 ->
  (p - s)%nat = List.length lits ->
  (List.length ss1 + 3 <= fuel)%nat ->
  step_remaining is_word program data false fuel 0 false
                 (mkVM (map (attempt_thread p) (ss1 ++ s :: ss2) ++ rest) (Z.of_nat p) caps)
  = Ok (Some true, true,
        mkVM (map (attempt_thread (S p)) ss1) (Z.of_nat p)
             [Some (Z.of_nat s); Some (Z.of_nat p)]).
Proof.
  intros Hss1 Hk Hfuel.
  rewrite map_app, <- app_assoc. cbn [map app].
  replace fuel with (List.length ss1 + (fuel - List.length ss1))%nat by lia.
  pose proof (step_remaining_attempts p caps
                (attempt_thread p s :: map (attempt_thread p) ss2 ++ rest) ss1 []
                (fuel - List.length ss1) Hss1 ltac:(lia)) as Hpass.
  cbn [app List.length Nat.add] in Hpass. rewrite Hpass. clear Hpass.
  replace (List.length ss1) with (List.length (map (attempt_thread (S p)) ss1)) at 2
    by apply length_map.
  destruct (fuel - List.length ss1)%nat as [| [| [| f]]] eqn:Hf; try lia.
  cbn [step_remaining m_threads]. rewrite ltb_frame.
  unfold attempt_thread at 2. rewrite Hk. change (Z.of_nat (List.length lits)) with (size lits).
  rewrite step_end_among. cbn [bind negb m_threads m_pos].
  rewrite firstn_frame. unfold thread_saves. cbn [m_threads].
  rewrite nth_error_frame. reflexivity.
Qed.

End SearchRun.

Section SearchInvariant.

Variables lits data : list byte.

Hypothesis lits_nonempty : lits <> [].

Lemma occurs_agrees (s : nat) :
  occurs_at lits data s <-> agrees lits data s (s + List.length lits).
Proof.
  unfold occurs_at, agrees. rewrite Nat.add_comm, Nat.add_sub. split.
  - intros H j Hj.
    transitivity (nth_error (firstn (List.length lits) (skipn s data)) j);
      [| rewrite H; reflexivity].
    rewrite nth_error_firstn.
    destruct (j <? List.length lits)%nat eqn:E; [| apply Nat.ltb_ge in E; lia].
    rewrite nth_error_skipn. reflexivity.
  - intro H. apply nth_error_ext. intro j.
    rewrite nth_error_firstn.
    destruct (j <? List.length lits)%nat eqn:E.
    + apply Nat.ltb_lt in E. rewrite nth_error_skipn. apply H. exact E.
    + apply Nat.ltb_ge in E. symmetry. apply nth_error_None. exact E.
Qed.

Lemma occurs_inside (s : nat) :
  occurs_at lits data s -> (s + List.length lits <= List.length data)%nat.
Proof.
  intro H. apply occurs_agrees in H.
  destruct lits as [| c l] eqn:Hl; [contradiction |].
  specialize (H (List.length l) ltac:(cbn [List.length]; lia)).
  assert (Hsome : nth_error (c :: l) (List.length l) <> None)
    by (apply nth_error_Some; cbn [List.length]; lia).
  rewrite <- H in Hsome. apply nth_error_Some in Hsome. cbn [List.length]. lia.
Qed.

Lemma agrees_next (s p : nat) :
  (s <= p)%nat ->
  (agrees lits data s (S p) <->
   agrees lits data s p /\ nth_error data p = nth_error lits (p - s)).
Proof.
  intro Hsp. unfold agrees. rewrite Nat.sub_succ_l by exact Hsp. split.
  - intro H. split.
    + intros j Hj. apply H. lia.
    + specialize (H (p - s)%nat ltac:(lia)).
      replace (s + (p - s))%nat with p in H by lia. exact H.
  - intros [H Hp] j Hj.
    destruct (Nat.eq_dec j (p - s)) as [-> | Hne].
    + replace (s + (p - s))%nat with p by lia. exact Hp.
    + apply H. lia.
Qed.

Lemma goes_on_spec (p : nat) (d : byte) (s : nat) :
  nth_error data p = Some d ->
  (goes_on lits p d s = true <-> nth_error data p = nth_error lits (p - s)).
Proof.
  intro Hd. unfold goes_on. rewrite Hd.
  destruct (nth_error lits (p - s)) as [c |]; [| split; discriminate].
  split.
  - intro H. apply Z.eqb_eq in H. subst c. reflexivity.
  - intro H. injection H as ->. apply Z.eqb_refl.
Qed.

(** A round that goes on keeps the invariant. *)
Lemma search_inv_next (p : nat) (d : byte) (ss : list nat) :
  nth_error data p = Some d ->
  search_inv lits data p ss ->
  search_inv lits data (S p) (next_starts lits p d ss).
Proof.
  intros Hd [Hlen Hin]. unfold next_starts. split.
  - rewrite length_app.
    pose proof (filter_length_le (goes_on lits p d) ss) as Hf.
    destruct (goes_on lits p d p); cbn [List.length]; lia.
  - intro s. rewrite in_app_iff, filter_In, Hin. split.
    + intros [[[Hsp [Hpn Hagree]] Hgo] | Hnew].
      * apply (goes_on_spec p d s Hd) in Hgo.
        assert (Hk : (p - s < List.length lits)%nat).
        { apply nth_error_Some. rewrite <- Hgo, Hd. discriminate. }
        split; [lia |]. split; [lia |].
        apply agrees_next; [lia |]. split; assumption.
      * destruct (goes_on lits p d p) eqn:Hgo; [| contradiction].
        destruct Hnew as [<- | []].
        apply (goes_on_spec p d p Hd) in Hgo.
        assert (Hk : (p - p < List.length lits)%nat).
        { apply nth_error_Some. rewrite <- Hgo, Hd. discriminate. }
        split; [lia |]. split; [lia |].
        apply agrees_next; [lia |]. split; [| exact Hgo].
        intros j Hj. lia.
    + intros [Hsp [Hpn Hagree]].
      apply agrees_next in Hagree; [| lia]. destruct Hagree as [Hagree Hp].
      apply (goes_on_spec p d s Hd) in Hp.
      destruct (Nat.eq_dec s p) as [-> | Hne].
      * right. rewrite Hp. left. reflexivity.
      * left. split; [| exact Hp]. split; [lia |]. split; [| exact Hagree].
        assert (Hk : (p - s < List.length lits)%nat).
        { unfold goes_on in Hp.
          destruct (nth_error lits (p - s)) eqn:E; [| discriminate].
          apply nth_error_Some. rewrite E. discriminate. }
        lia.
Qed.

(** Either no attempt is at the end of the pattern, or the list of the
    attempts splits at the first one that is. *)
Lemma first_complete_attempt (p : nat) (ss : list nat) :
  Forall (fun s => (s < p)%nat /\ (p <= s + List.length lits)%nat) ss ->
  Forall (fun s => (s <= p)%nat /\ (p - s < List.length lits)%nat) ss \/
  exists ss1 s ss2,
    ss = ss1 ++ s :: ss2 /\
    Forall (fun s => (s <= p)%nat /\ (p - s < List.length lits)%nat) ss1 /\
    (p - s)%nat = List.length lits.
Proof.
  induction 1 as [| s ss [Hsp Hpn] _ IH]; [left; constructor |].
  destruct (Nat.eq_dec (p - s) (List.length lits)) as [Heq | Hne].
  - right. exists [], s, ss. split; [reflexivity |]. split; [constructor | exact Heq].
  - destruct IH as [IH | [ss1 [s1 [ss2 [-> [H1 H2]]]]]].
    + left. constructor; [split; lia | exact IH].
    + right. exists (s :: ss1), s1, ss2.
      split; [reflexivity |]. split; [| exact H2].
      constructor; [split; lia | exact H1].
Qed.

End SearchInvariant.

Section SearchLoop.

Variable is_word : Codepoint -> bool.
Variables lits data : list byte.

Hypothesis lits_nonempty : lits <> [].
Hypothesis lits_ascii : Forall is_ascii lits.
Hypothesis data_ascii : Forall is_ascii data.

(** The loop of [exec] in a search, from the cursor at [p]: it returns true
    exactly when the pattern occurs in the subject, with the captures of
    the first occurrence. *)
Lemma exec_loop_search :
  forall (r p : nat) (ss : list nat) (fuel : nat) (caps : list (option Z)),
    (p + r = List.length data)%nat ->
    search_inv lits data p ss ->
    (forall s, (s + List.length lits < p)%nat -> ~ occurs_at lits data s) ->
    (List.length data + r + 6 <= fuel)%nat ->
    exists b vm',
      exec_loop is_word (literal_program lits) data false false fuel false
                (search_vm p ss caps) = Ok (b, vm') /\
      (b = true <-> exists s, occurs_at lits data s) /\
      (b = true ->
       exists s, occurs_at lits data s /\
                 (forall s', (s' < s)%nat -> ~ occurs_at lits data s') /\
                 m_captures vm'
                 = [Some (Z.of_nat s); Some (Z.of_nat (s + List.length lits))]).
Proof.
  destruct (nth_error lits 0) as [c0 |] eqn:Hc0;
    [| destruct lits; [contradiction | discriminate]].
  assert (Hn : (1 <= List.length lits)%nat)
    by (destruct lits; [contradiction | cbn [List.length]; lia]).
  induction r as [| r IH]; intros p ss fuel caps Hp Hinv Hearlier Hfuel;
    (destruct fuel as [| fuel]; [lia |]);
    pose proof Hinv as [Hlen Hin];
    assert (Hbounds : Forall (fun s => (s < p)%nat /\ (p <= s + List.length lits)%nat) ss)
      by (apply Forall_forall; intros s Hs; apply Hin in Hs; split; apply Hs);
    assert (Hfound : forall ss1 s ss2,
               ss = ss1 ++ s :: ss2 -> (p - s)%nat = List.length lits ->
               occurs_at lits data s /\
               (forall s', (s' < s)%nat -> ~ occurs_at lits data s') /\
               (s + List.length lits)%nat = p)
      by (intros ss1 s ss2 Hsplit Hk;
          assert (Hs : In s ss) by (rewrite Hsplit; apply in_or_app; right; left; reflexivity);
          apply Hin in Hs; destruct Hs as [Hsp [Hpn Hagree]];
          assert (Hend : (s + List.length lits)%nat = p) by lia;
          split; [apply occurs_agrees; rewrite Hend; exact Hagree |];
          split; [intros s' Hs'; apply Hearlier; lia | exact Hend]);
    assert (Hnone : Forall (fun s => (s <= p)%nat /\ (p - s < List.length lits)%nat) ss ->
                    forall s, (s + List.length lits <= p)%nat -> ~ occurs_at lits data s)
      by (intros Hall s Hs Hocc;
          destruct (Nat.eq_dec (s + List.length lits) p) as [Heq | Hne];
          [| apply (Hearlier s); [lia | exact Hocc]];
          assert (Hs' : In s ss)
            by (apply Hin; split; [lia |]; split; [lia |];
                rewrite <- Heq; apply occurs_agrees; exact Hocc);
          rewrite Forall_forall in Hall; specialize (Hall s Hs'); lia);
    cbn [exec_loop]; unfold search_vm at 1; cbn [m_pos]; fold (search_vm p ss caps).
  - (* the cursor is at the end of the subject *)
    replace (Z.of_nat p =? m_end data) with true
      by (symmetry; apply Z.eqb_eq; unfold m_end, size; lia).
    cbn [negb].
    destruct (first_complete_attempt lits p ss Hbounds) as [Hall | [ss1 [s [ss2 [Hsplit [H1 Hk]]]]]].
    + destruct (step_remaining_search is_word lits data lits_ascii p c0 ss caps fuel
                  Hc0 Hall ltac:(lia)) as [vm' Hrun].
      rewrite Hrun. cbn [bind].
      exists false, vm'. split; [reflexivity |]. split; [| discriminate].
      split; [discriminate |].
      intros [s Hocc]. exfalso.
      apply (Hnone Hall s); [| exact Hocc].
      pose proof (occurs_inside lits data lits_nonempty s Hocc). lia.
    + destruct (Hfound ss1 s ss2 Hsplit Hk) as [Hocc [Hleast Hend]].
      unfold search_vm. rewrite Hsplit.
      rewrite (step_remaining_match is_word lits data lits_ascii p caps ss1 s ss2
                 [scout_thread p] fuel H1 Hk)
        by (rewrite Hsplit, length_app in Hlen; lia).
      cbn [bind].
      eexists true, _. split; [reflexivity |].
      split; [split; [intros _; exists s; exact Hocc | reflexivity] |].
      intros _. exists s. split; [exact Hocc |]. split; [exact Hleast |].
      cbn [m_captures]. rewrite Hend. reflexivity.
  - (* the cursor is inside the subject *)
    destruct (nth_error data p) as [d |] eqn:Hd;
      [| apply nth_error_None in Hd; lia].
    replace (Z.of_nat p =? m_end data) with false
      by (symmetry; apply Z.eqb_neq; unfold m_end, size; lia).
    cbn [negb].
    destruct (first_complete_attempt lits p ss Hbounds) as [Hall | [ss1 [s [ss2 [Hsplit [H1 Hk]]]]]].
    + rewrite (exec_round_search is_word lits data lits_ascii data_ascii p d c0 ss caps fuel
                 Hd Hc0 Hall ltac:(lia)).
      cbn [bind].
      apply (IH (S p) (next_starts lits p d ss) fuel caps); [lia | | | lia].
      * apply search_inv_next; assumption.
      * intros s Hs. apply (Hnone Hall). lia.
    + destruct (Hfound ss1 s ss2 Hsplit Hk) as [Hocc [Hleast Hend]].
      unfold exec_round, search_vm. rewrite Hsplit.
      rewrite (step_threads_match is_word lits data lits_ascii data_ascii p d caps ss1 s ss2
                 [scout_thread p] fuel Hd H1 Hk)
        by (rewrite Hsplit, length_app in Hlen; lia).
      cbn [bind].
      eexists true, _. split; [reflexivity |].
      split; [split; [intros _; exists s; exact Hocc | reflexivity] |].
      intros _. exists s. split; [exact Hocc |]. split; [exact Hleast |].
      cbn [m_captures]. rewrite Hend. reflexivity.
Qed.

End SearchLoop.

(** X16: searching for a plain pattern finds its first occurrence.  For a
    nonempty pattern of plain characters (bytes from 1 to 127 that are no
    syntax characters) and a subject of bytes below 128,
    [exec] without [match] and without [longest] returns true exactly when
    the pattern occurs in the subject, and the two captures are then the
    begin and the end of its leftmost occurrence. *)
Theorem search_finds_first_occurrence :
  forall (is_word : Codepoint -> bool) (re data : list byte) (fuel : nat),
    re <> [] -> Forall plain re -> Forall is_ascii data ->
    exists program b vm',
      compile (List.length re + 3 + fuel) re = Ok program /\
      exec is_word program data false false (2 * List.length data + 6 + fuel) fresh
      = Ok (b, vm') /\
      (b = true <-> exists s, occurs_at re data s) /\
      (b = true ->
       exists s, occurs_at re data s /\
                 (forall s', (s' < s)%nat -> ~ occurs_at re data s') /\
                 m_captures vm'
                 = [Some (Z.of_nat s); Some (Z.of_nat (s + List.length re))]).
Proof.
  intros is_word re data fuel Hne Hplain Hdata.
  exists (literal_program re).
  destruct (exec_loop_search is_word re data Hne (plain_ascii re Hplain) Hdata
              (List.length data) 0 [] (2 * List.length data + 6 + fuel) [])
    as [b [vm' [Hrun Hspec]]].
  - reflexivity.
  - split; [cbn [List.length]; lia |].
    intro s. split; [intros [] | intros [H _]; lia].
  - intros s Hs. lia.
  - lia.
  - exists b, vm'. split; [apply compile_plain; assumption |].
    split; [exact Hrun | exact Hspec].
Qed.

(** The theorem at the pattern ab and the subject xaby. *)
Lemma search_finds_first_occurrence_witness :
  exists program b vm',
    compile (2 + 3 + 0) (bytes_of_string "ab") = Ok program /\
    exec ascii_is_word program (bytes_of_string "xaby") false false (2 * 4 + 6 + 0) fresh
    = Ok (b, vm') /\
    (b = true <-> exists s, occurs_at (bytes_of_string "ab") (bytes_of_string "xaby") s) /\
    (b = true ->
     exists s, occurs_at (bytes_of_string "ab") (bytes_of_string "xaby") s /\
               (forall s', (s' < s)%nat ->
                           ~ occurs_at (bytes_of_string "ab") (bytes_of_string "xaby") s') /\
               m_captures vm' = [Some (Z.of_nat s); Some (Z.of_nat (s + 2))]).
Proof.
  apply (search_finds_first_occurrence ascii_is_word (bytes_of_string "ab")
           (bytes_of_string "xaby") 0).
  - discriminate.
  - repeat constructor; cbn; lia.
  - repeat constructor; cbn; lia.
Defined.

(** ** Escaped characters *)

(** X17: [atom_escape] reads the escaped character and does not step over
    it, so the character is parsed a second time as an atom of its own.
    The pattern made of a backslash and one of the letters f n r t v is
    compiled as two literals, the control character and the letter: with
    [match] set it accepts the control character followed by the letter,
    and neither the control character alone nor anything else. *)
Theorem control_escape_keeps_its_letter :
  forall (is_word : Codepoint -> bool) (c v : Codepoint) (data : list byte)
         (longest : bool) (fuel : nat),
    In (c, v) Parser.control_escapes -> Forall is_ascii data ->
    exists b vm',
      compile (4 + fuel) [chr "\"; c] = Ok (literal_program [v; c]) /\
      exec is_word (literal_program [v; c]) data true longest
           (List.length data + 5 + fuel) fresh = Ok (b, vm') /\
      (b = true <-> data = [v; c]).
Proof.
  intros is_word c v data longest fuel Hin Hdata.
  assert (Hcompile : compile (4 + fuel) [chr "\"; c] = Ok (literal_program [v; c])).
  { cbn [Parser.control_escapes In] in Hin.
    destruct Hin as [H | [H | [H | [H | [H | []]]]]]; injection H as <- <-;
      revert fuel; run_compile 4%nat. }
  assert (Hascii : Forall is_ascii [v; c]).
  { cbn [Parser.control_escapes In] in Hin.
    destruct Hin as [H | [H | [H | [H | [H | []]]]]]; injection H as <- <-;
      repeat constructor; cbn; lia. }
  destruct (exec_loop_literal is_word [v; c] data longest Hascii Hdata
              (List.length data) 0 (List.length data + 5 + fuel) []
              ltac:(lia) ltac:(cbn [List.length]; lia) ltac:(lia))
    as [b [vm' [Hrun [Hb _]]]].
  exists b, vm'. split; [exact Hcompile |]. split; [exact Hrun | exact Hb].
Qed.

(** The theorem at the pattern \n and the subject of one newline, which is
    not accepted. *)
Lemma control_escape_keeps_its_letter_witness :
  exists b vm',
    compile (4 + 0) [chr "\"; chr "n"] = Ok (literal_program [10; chr "n"]) /\
    exec ascii_is_word (literal_program [10; chr "n"]) [10] true false (1 + 5 + 0) fresh
    = Ok (b, vm') /\
    (b = true <-> [10] = [10; chr "n"]).
Proof.
  apply (control_escape_keeps_its_letter ascii_is_word (chr "n") 10 [10] false 0).
  - right. left. reflexivity.
  - repeat constructor; cbn; lia.
Defined.
